(** * Multiclass focal loss for LightGBM: objective and evaluation metric

    A shallow embedding of the two callbacks of
    [examples/Lightgbm_with_Focal_Loss_multiclass.ipynb],
    [focal_loss_lgb] and [focal_loss_lgb_eval_error], together with the
    NumPy operations they are written with, and of the demonstration
    cells around them (the one-hot example, the cross-entropy cell and
    the predicted classes).

    The program is read twice. Which formula a cell holds, in which
    order the cells are laid out, and which inputs raise, is read over
    the real numbers: a cell of an array is either a real or "not a
    finite number", and rounding is not part of that reading. What
    number a cell holds in the float64 arithmetic NumPy computes with
    (rounding, overflow, inf and nan) is read on one cell in IEEE 754
    binary64, in [sigmoid64] and [fl64]. *)

From Stdlib Require Import Reals Lra Lia ZArith QArith String.
From stdpp Require Import base option list.

(** ** Cells: a finite real, or a non-finite value *)

Module Cell.

(** [None] stands for a value that is not a finite real (inf or nan).
    Once a cell is non-finite it stays so through [+], [-], [*], unary
    minus and division by a finite number, which are the only operations
    the program applies to cells that may be non-finite: [np.exp],
    [np.log], [**] and the divisor of [/] only ever see values computed
    from the finite scores, the one-hot labels and the hyperparameters. *)
Definition fval : Type := option R.

Definition lift1 (f : R → R) (u : fval) : fval := f <$> u.

Definition lift2 (f : R → R → R) (u v : fval) : fval :=
  x ← u; y ← v; Some (f x y).

Definition add : fval → fval → fval := lift2 Rplus.
Definition sub : fval → fval → fval := lift2 Rminus.
Definition mul : fval → fval → fval := lift2 Rmult.
Definition neg : fval → fval := lift1 Ropp.
Definition exp : fval → fval := lift1 Rtrigo_def.exp.

(** [x / y]: a zero divisor gives inf or nan. *)
Definition div (u v : fval) : fval :=
  x ← u; y ← v; if Req_dec_T y 0 then None else Some (x / y)%R.

(** [np.log]: [-inf] at 0 and [nan] below. *)
Definition log_real (x : R) : fval :=
  if Rlt_dec 0 x then Some (ln x) else None.

Definition log (u : fval) : fval := u ≫= log_real.

(** [x ** y] on floats, as C's [pow]: [exp (y * ln x)] on a positive
    base; 1 for a zero exponent; [0 ** y] is 0 for [y > 0] and inf for
    [y < 0]; a negative base needs an integral exponent, and is nan
    otherwise. *)
Definition pow_real (x y : R) : fval :=
  if Rlt_dec 0 x then Some (Rpower x y)
  else if Req_dec_T y 0 then Some 1%R
  else if Req_dec_T x 0 then (if Rlt_dec 0 y then Some 0%R else None)
  else if Req_dec_T y (IZR (Int_part y)) then Some (powerRZ x (Int_part y))
  else None.

Definition pow (u v : fval) : fval := x ← u; y ← v; pow_real x y.

End Cell.

Abbreviation fval := Cell.fval.

(** ** Two-dimensional arrays *)

(** A C-contiguous 2-D [numpy.ndarray]: its shape and its buffer in
    row-major order, cell [(i, c)] at offset [i * ncols + c]. *)
Record ndarray (A : Type) : Type := mk_ndarray {
  nrows : nat;
  ncols : nat;
  data : list A
}.
Arguments mk_ndarray {A} _ _ _.
Arguments nrows {A} _.
Arguments ncols {A} _.
Arguments data {A} _.

Definition wf_ndarray {A} (a : ndarray A) : Prop :=
  length (data a) = nrows a * ncols a.

Definition cell {A} (a : ndarray A) (i c : nat) : option A :=
  if bool_decide (i < nrows a ∧ c < ncols a)
  then data a !! (i * ncols a + c) else None.

Definition amap {A B} (f : A → B) (a : ndarray A) : ndarray B :=
  mk_ndarray (nrows a) (ncols a) (f <$> data a).

(** [y_pred.reshape(-1, num_class)] on a 1-D array: the row count is
    inferred; a length that is no multiple of [num_class] (or
    [num_class = 0]) raises [ValueError]. *)
Definition reshape {A} (flat : list A) (num_class : nat) : option (ndarray A) :=
  if bool_decide (num_class = 0) then None
  else if bool_decide (length flat `mod` num_class = 0)
       then Some (mk_ndarray (length flat `div` num_class) num_class flat)
       else None.

(** Column [c] of an array, top to bottom. *)
Definition column {A} (a : ndarray A) (c : nat) : list A :=
  omap (λ i, data a !! (i * ncols a + c)) (seq 0 (nrows a)).

(** [a.flatten('F')]: column-major order, column 0 first. *)
Definition flatten_F {A} (a : ndarray A) : list A :=
  c ← seq 0 (ncols a); column a c.

(** [np.eye(n)]: the n-by-n identity of floats. *)
Definition eye (n : nat) : ndarray fval :=
  mk_ndarray n n
    (i ← seq 0 n; (λ j, if bool_decide (i = j) then Some 1%R else Some 0%R) <$> seq 0 n).

(** Row [r] of an array. *)
Definition row {A} (a : ndarray A) (r : nat) : list A :=
  take (ncols a) (drop (r * ncols a) (data a)).

(** An index into an axis of length [n]: negative indices count from the
    end, anything outside [-n, n) raises [IndexError]. *)
Definition norm_index (n : nat) (z : Z) : option nat :=
  if bool_decide (0 ≤ z < Z.of_nat n)%Z then Some (Z.to_nat z)
  else if bool_decide (- Z.of_nat n ≤ z < 0)%Z then Some (Z.to_nat (z + Z.of_nat n))
  else None.

(** [a[idx]] for a 1-D integer array [idx]: the selected rows, stacked.
    (Where the result has no element, that is for an array without
    columns, NumPy before 2.0 only warns about an index out of range;
    for [np.eye(0)] the callbacks then raise one line later, at
    [reshape(-1, 0)].) *)
Definition take_rows {A} (a : ndarray A) (idx : list Z) : option (ndarray A) :=
  rs ← mapM (norm_index (nrows a)) idx;
  Some (mk_ndarray (length idx) (ncols a) (r ← rs; row a r)).

(** [.astype('int')] on a float: truncation toward zero. Labels are
    finite floats, hence rationals. *)
Definition astype_int (q : Q) : Z := Z.quot (Qnum q) (Zpos (Qden q)).

(** [np.eye(num_class)[y_true.astype('int')]] *)
Definition one_hot (num_class : nat) (label : list Q) : option (ndarray fval) :=
  take_rows (eye num_class) (astype_int <$> label).

(** ** NumPy values and broadcasting arithmetic *)

(** What a NumPy expression of the program evaluates to: a float scalar,
    a 2-D float array, or a raised exception. *)
Inductive npval : Type :=
  | NpScalar (v : fval)
  | NpArray (a : ndarray fval)
  | NpError.

Definition sc (r : R) : npval := NpScalar (Some r).
Coercion sc : R >-> npval.

(** Two axis lengths broadcast together when they are equal or one of
    them is 1. *)
Definition bshape (n1 n2 : nat) : option nat :=
  if bool_decide (n1 = n2) then Some n1
  else if bool_decide (n1 = 1) then Some n2
  else if bool_decide (n2 = 1) then Some n1
  else None.

(** [np.broadcast_to(a, (n, m))]: an axis of length 1 is repeated. *)
Definition broadcast_to (a : ndarray fval) (n m : nat) : ndarray fval :=
  mk_ndarray n m
    (i ← seq 0 n;
     (λ c, default None
             (data a !! ((if bool_decide (nrows a = 1) then 0 else i) * ncols a
                         + (if bool_decide (ncols a = 1) then 0 else c))))
       <$> seq 0 m).

Definition np_op1 (f : fval → fval) (u : npval) : npval :=
  match u with
  | NpScalar x => NpScalar (f x)
  | NpArray a => NpArray (amap f a)
  | NpError => NpError
  end.

Definition np_op2 (f : fval → fval → fval) (u v : npval) : npval :=
  match u, v with
  | NpScalar x, NpScalar y => NpScalar (f x y)
  | NpScalar x, NpArray b => NpArray (amap (f x) b)
  | NpArray a, NpScalar y => NpArray (amap (λ x, f x y) a)
  | NpArray a, NpArray b =>
      match bshape (nrows a) (nrows b), bshape (ncols a) (ncols b) with
      | Some n, Some m =>
          NpArray (mk_ndarray n m
                     (zip_with f (data (broadcast_to a n m))
                                 (data (broadcast_to b n m))))
      | _, _ => NpError
      end
  | _, _ => NpError
  end.

Definition np_add := np_op2 Cell.add.
Definition np_sub := np_op2 Cell.sub.
Definition np_mul := np_op2 Cell.mul.
Definition np_div := np_op2 Cell.div.
Definition np_pow := np_op2 Cell.pow.
Definition np_neg := np_op1 Cell.neg.
Definition np_exp := np_op1 Cell.exp.
Definition np_log := np_op1 Cell.log.

Declare Scope np_scope.
Delimit Scope np_scope with np.
Bind Scope np_scope with npval.
Notation "x + y" := (np_add x y) : np_scope.
Notation "x - y" := (np_sub x y) : np_scope.
Notation "x * y" := (np_mul x y) : np_scope.
Notation "x / y" := (np_div x y) : np_scope.
Notation "- x" := (np_neg x) : np_scope.
Notation "x ** y" := (np_pow x y) (at level 30, right associativity) : np_scope.

(** [a.flatten('F')] as a method of a value. *)
Definition np_flatten_F (v : npval) : option (list fval) :=
  match v with
  | NpArray a => Some (flatten_F a)
  | NpScalar s => Some [s]
  | NpError => None
  end.

Definition sum_cells (l : list fval) : fval := foldr Cell.add (Some 0%R) l.

(** [np.mean(v)]: sum over all cells divided by their number; the mean of
    an empty array is nan. *)
Definition np_mean (v : npval) : option fval :=
  match v with
  | NpArray a => Some (Cell.div (sum_cells (data a)) (Some (INR (length (data a)))))
  | NpScalar s => Some s
  | NpError => None
  end.

(** ** The program *)

Section Program.
Local Open Scope R_scope.
Local Open Scope np_scope.

(** [def sigmoid(x): return 1./(1. +  np.exp(-x))] *)
Definition sigmoid (x : npval) : npval := 1 / (1 + np_exp (- x)).

(** The inner function [fl] of [focal_loss_lgb], closed over
    [a, g = alpha, gamma]. *)
Definition fl (a g : R) (x t : npval) : npval :=
  let p := 1 / (1 + np_exp (- x)) in
  - (a * t + (1 - a) * (1 - t))
  * ((1 - (t * p + (1 - t) * (1 - p))) ** g)
  * (t * np_log p + (1 - t) * np_log (1 - p)).

(** Modelled from the spec: [scipy.misc.derivative] is imported from the
    SciPy library and is not among the sources of this repository. The
    spec names it a centered finite-difference scheme with a step of
    1e-6; the call leaves [order] at its default of three points, whose
    weights for a derivative of order [n] are these ([n >= 3] needs more
    points and raises [ValueError]). *)
Definition central_weights (n : nat) : option (list R) :=
  match n with
  | 0%nat => Some [0; 1; 0]%R
  | 1%nat => Some [-1 / 2; 0 / 2; 1 / 2]%R
  | 2%nat => Some [1; -2; 1]%R
  | _ => None
  end.

(** Modelled from the spec: [derivative(func, x0, n=n, dx=dx)], the
    centered scheme over the three points [x0 - dx], [x0], [x0 + dx],
    accumulated as the SciPy routine does:
    [val = 0.0; ho = order >> 1;
     for k in range(order): val += weights[k]*func(x0+(k-ho)*dx);
     return val / prod((dx,)*n)]. *)
Definition derivative (func : npval → npval) (x0 : npval) (n : nat) (dx : R) : npval :=
  match central_weights n with
  | None => NpError
  | Some weights =>
      let ho := 1%Z in
      let val :=
        foldl (λ (val : npval) '(k, w),
                 val + sc w * func (x0 + sc (IZR (Z.of_nat k - ho) * dx)%R))
              (sc 0) (zip (seq 0 3) weights) in
      val / sc (dx ^ n)%R
  end.

(** [focal_loss_lgb(y_pred, dtrain, alpha, gamma, num_class)], with
    [label = dtrain.label]: the body up to its locals [grad] and
    [hess], the two N-by-C arrays. *)
Definition grad_hess (y_pred : list R) (label : list Q)
    (alpha gamma : R) (num_class : nat) : option (npval * npval) :=
  let '(a, g) := (alpha, gamma) in
  y_true ← one_hot num_class label;
  y_pred ← reshape (Some <$> y_pred) num_class;
  let partial_fl := λ x, fl a g x (NpArray y_true) in
  let grad := derivative partial_fl (NpArray y_pred) 1 1e-6 in
  let hess := derivative partial_fl (NpArray y_pred) 2 1e-6 in
  Some (grad, hess).

(** [return grad.flatten('F'), hess.flatten('F')] *)
Definition focal_loss_lgb (y_pred : list R) (label : list Q)
    (alpha gamma : R) (num_class : nat) : option (list fval * list fval) :=
  '(grad, hess) ← grad_hess y_pred label alpha gamma num_class;
  grad_F ← np_flatten_F grad;
  hess_F ← np_flatten_F hess;
  Some (grad_F, hess_F).

(** The locals [p] and [loss] of [focal_loss_lgb_eval_error], as a
    function of its locals [y_pred] and [y_true]. *)
Definition eval_loss (a g : R) (y_pred y_true : npval) : npval :=
  let p := 1 / (1 + np_exp (- y_pred)) in
  let loss :=
    - (a * y_true + (1 - a) * (1 - y_true))
    * ((1 - (y_true * p + (1 - y_true) * (1 - p))) ** g)
    * (y_true * np_log p + (1 - y_true) * np_log (1 - p)) in
  loss.

(** [focal_loss_lgb_eval_error(y_pred, dtrain, alpha, gamma, num_class)] *)
Definition focal_loss_lgb_eval_error (y_pred : list R) (label : list Q)
    (alpha gamma : R) (num_class : nat) : option (string * fval * bool) :=
  let '(a, g) := (alpha, gamma) in
  y_true ← one_hot num_class label;
  y_pred ← reshape (Some <$> y_pred) num_class;
  let loss := eval_loss a g (NpArray y_pred) (NpArray y_true) in
  m ← np_mean loss;
  Some ("focal_loss"%string, m, false).

End Program.

(** ** The loss kernel as the specification words it *)

Section LossKernel.
Local Open Scope R_scope.

Definition logistic (x : R) : R := 1 / (1 + exp (- x)).

Definition weight (alpha t : R) : R := alpha * t + (1 - alpha) * (1 - t).

Definition modulation (gamma p t : R) : R :=
  Rpower (1 - (t * p + (1 - t) * (1 - p))) gamma.

Definition cross_entropy (p t : R) : R := t * ln p + (1 - t) * ln (1 - p).

Definition loss_kernel (alpha gamma x t : R) : R :=
  let p := logistic x in
  - weight alpha t * modulation gamma p t * cross_entropy p t.

(** Binary cross-entropy with logits. *)
Definition bce_with_logits (x t : R) : R :=
  - (t * ln (logistic x) + (1 - t) * ln (1 - logistic x)).

(** Centered finite differences of first and second order. *)
Definition central_diff1 (f : R → R) (x dx : R) : R :=
  (f (x + dx) - f (x - dx)) / (2 * dx).

Definition central_diff2 (f : R → R) (x dx : R) : R :=
  (f (x + dx) - 2 * f x + f (x - dx)) / dx ^ 2.

End LossKernel.

(** The value of an expression that evaluated to a scalar. *)
Definition scalar_of (v : npval) : fval :=
  match v with NpScalar s => s | _ => None end.

(** The kernel [fl] on one cell. *)
Definition fl_cell (a g : R) (x t : fval) : fval :=
  scalar_of (fl a g (NpScalar x) (NpScalar t)).

(** The array of shape [(n, m)] whose buffer holds [f k] at offset [k]. *)
Definition tabulate {A} (n m : nat) (f : nat → A) : ndarray A :=
  mk_ndarray n m (f <$> seq 0 (n * m)).

(** The class a label selects, and the one-hot component it gives class
    [c]. *)
Definition label_class (l : Q) : nat := Z.to_nat (astype_int l).

Definition indicator (l : Q) (c : nat) : R :=
  if bool_decide (label_class l = c) then 1%R else 0%R.

(** A label is valid for [C] classes when its truncation lies in [0, C). *)
Definition valid_label (C : nat) (l : Q) : bool :=
  bool_decide (0 ≤ astype_int l < Z.of_nat C)%Z.

Definition valid_labels (C : nat) (label : list Q) : bool :=
  forallb (valid_label C) label.

(** The raw score at offset [k] of the flat prediction vector, and the
    one-hot target of the cell that offset [k] of an N-by-C row-major
    buffer holds: observation [k / C], class [k mod C]. *)
Definition score (y_pred : list R) (k : nat) : R := default 0%R (y_pred !! k).

Definition target (C : nat) (label : list Q) (k : nat) : R :=
  indicator (default 0%Q (label !! (k `div` C))) (k `mod` C).

(** Arithmetic mean of a list of reals. *)
Definition mean (l : list R) : R := (foldr Rplus 0 l / INR (length l))%R.

(** ** The demonstration cells of the notebook *)

(** [a[idx]] for a 2-D integer array [idx]: a 3-D array, here the list of
    its 2-D slices along axis 0, one stack of selected rows per row of
    [idx]. Any index out of range raises [IndexError]. *)
Definition take_rows_2d {A} (a : ndarray A) (idx : ndarray Z) : option (list (ndarray A)) :=
  mapM (λ r, take_rows a (row idx r)) (seq 0 (nrows idx)).

(** [y_true_oh = np.eye(10)[y_true][0]], where
    [y_true = np.random.choice(11, (1,2))] is a 1-by-2 array of integers
    drawn from [0, 11). *)
Definition y_true_oh (y_true : ndarray Z) : option (ndarray fval) :=
  slices ← take_rows_2d (eye 10) y_true; head slices.

Section Demo.
Local Open Scope R_scope.
Local Open Scope np_scope.

(** The cell commented [# BCEWithLogitsLoss]:
    [( -( y_true_oh * np.log(sigmoid(y_pred))
          + (1-y_true_oh) * np.log(1-sigmoid(y_pred)) ) ).mean()] *)
Definition BCEWithLogitsLoss (y_true_oh y_pred : npval) : option fval :=
  np_mean (- (y_true_oh * np_log (sigmoid y_pred)
              + (1 - y_true_oh) * np_log (1 - sigmoid y_pred))).

End Demo.

(** ** Predicates on inputs *)

(** The truncated label is an index NumPy accepts for an axis of length
    [C]: it lies in [-C, C). *)
Definition index_in_range (C : nat) (l : Q) : bool :=
  bool_decide (- Z.of_nat C ≤ astype_int l < Z.of_nat C)%Z.

(** The label in [0, C) that an accepted label stands for. *)
Definition wrap_label (C : nat) (l : Q) : Q :=
  inject_Z (astype_int l `mod` Z.of_nat C).

(** The inputs on which no operation of the callbacks raises: every
    label is an accepted index, the scores split into rows of [C], and
    the row counts of labels and scores broadcast together. *)
Definition acceptable (C : nat) (label : list Q) (y_pred : list R) : bool :=
  forallb (index_in_range C) label
  && bool_decide (0 < C ∧ length y_pred `mod` C = 0)
  && bool_decide (is_Some (bshape (length label) (length y_pred `div` C))).

(** ** Binary64 cells

    NumPy computes every cell in IEEE 754 binary64: each operation
    returns the exact result rounded to the nearest representable
    number, ties to the even significand, and a result of magnitude
    [2^1024] or more is an infinity. The definitions below are that
    arithmetic on one cell; [sigmoid64] and [fl64] are [sigmoid] and
    [fl] read in it. *)

Section Rounding.
Local Open Scope R_scope.

Definition pow2 (z : Z) : R := powerRZ 2 z.

(** The integer nearest to [r], the even one of the two when [r] lies
    halfway. *)
Definition nearest_even (r : R) : Z :=
  let f := Int_part r in
  let d := r - IZR f in
  if Rlt_dec d (1 / 2) then f
  else if Rlt_dec (1 / 2) d then (f + 1)%Z
  else if Z.even f then f else (f + 1)%Z.

(** The binary exponent of [x > 0], no less than that of the subnormal
    numbers. *)
Definition exponent (x : R) : Z := Z.max (Int_part (ln x / ln 2)) (-1022).

(** [x > 0] rounded to 53 significant bits: a multiple of
    [2^(exponent x - 52)]. *)
Definition rnd_pos (x : R) : R :=
  IZR (nearest_even (x / pow2 (exponent x - 52))) * pow2 (exponent x - 52).

(** Rounding to nearest with an unbounded exponent range above. *)
Definition rnd (x : R) : R :=
  if Rlt_dec 0 x then rnd_pos x
  else if Rlt_dec x 0 then - rnd_pos (- x)
  else 0.

End Rounding.

(** A binary64 value: [F64 r] is the finite number [r], and [F64 0] is
    [+0.0]; [NZero64] is [-0.0]; [Inf64 false] and [Inf64 true] are
    [inf] and [-inf]; [NaN64] is nan. *)
Inductive f64 : Type :=
  | F64 (r : R)
  | NZero64
  | Inf64 (negative : bool)
  | NaN64.

Coercion F64 : R >-> f64.

Definition negative (r : R) : bool := if Rlt_dec r 0 then true else false.

(** A value as its sign bit and magnitude class. *)
Inductive class64 : Type :=
  | Finite (negative : bool) (r : R)
  | Infinite (negative : bool)
  | NotANumber.

Definition classify (x : f64) : class64 :=
  match x with
  | F64 r => Finite (negative r) r
  | NZero64 => Finite true 0
  | Inf64 s => Infinite s
  | NaN64 => NotANumber
  end.

(** The real a finite value denotes; [None] for inf and nan. *)
Definition finite64 (x : f64) : option R :=
  match classify x with Finite _ r => Some r | _ => None end.

Definition zero64 (s : bool) : f64 := if s then NZero64 else F64 0.

(** The value returned for the exact result [x]; [s] is the sign of the
    zero returned when [x] rounds to zero. *)
Definition round64 (s : bool) (x : R) : f64 :=
  let y := rnd x in
  if Req_dec_T y 0 then zero64 s
  else if Rlt_dec (Rabs y) (pow2 1024) then F64 y
  else Inf64 (negative x).

(** Unary minus flips the sign bit. *)
Definition neg64 (x : f64) : f64 :=
  match x with
  | F64 r => if Req_dec_T r 0 then NZero64 else F64 (- r)
  | NZero64 => F64 0
  | Inf64 s => Inf64 (negb s)
  | NaN64 => NaN64
  end.

(** [x + y]: [inf + -inf] is nan; an exact zero sum is [+0.0] unless
    both terms are [-0.0]. *)
Definition add64 (x y : f64) : f64 :=
  match classify x, classify y with
  | NotANumber, _ | _, NotANumber => NaN64
  | Infinite s, Infinite s' => if Bool.eqb s s' then Inf64 s else NaN64
  | Infinite s, Finite _ _ | Finite _ _, Infinite s => Inf64 s
  | Finite s a, Finite s' b => round64 (s && s') (a + b)
  end.

Definition sub64 (x y : f64) : f64 := add64 x (neg64 y).

(** [x * y]: [0 * inf] is nan; the sign is the exclusive or of the
    signs. *)
Definition mul64 (x y : f64) : f64 :=
  match classify x, classify y with
  | NotANumber, _ | _, NotANumber => NaN64
  | Infinite s, Infinite s' => Inf64 (xorb s s')
  | Infinite s, Finite s' r | Finite s' r, Infinite s =>
      if Req_dec_T r 0 then NaN64 else Inf64 (xorb s s')
  | Finite s a, Finite s' b => round64 (xorb s s') (a * b)
  end.

(** [x / y] on arrays, where a zero divisor only warns: [0 / 0] and
    [inf / inf] are nan, [x / 0] is an infinity, [x / inf] a zero. *)
Definition div64 (x y : f64) : f64 :=
  match classify x, classify y with
  | NotANumber, _ | _, NotANumber => NaN64
  | Infinite _, Infinite _ => NaN64
  | Infinite s, Finite s' _ => Inf64 (xorb s s')
  | Finite s _, Infinite s' => zero64 (xorb s s')
  | Finite s a, Finite s' b =>
      if Req_dec_T b 0
      then (if Req_dec_T a 0 then NaN64 else Inf64 (xorb s s'))
      else round64 (xorb s s') (a / b)
  end.

(** [np.exp], taken as correctly rounded (NumPy's is within one unit in
    the last place of it): it overflows to [inf] and underflows to
    [+0.0]. *)
Definition exp64 (x : f64) : f64 :=
  match classify x with
  | Finite _ r => round64 false (exp r)
  | Infinite s => if s then F64 0 else Inf64 false
  | NotANumber => NaN64
  end.

(** [np.log], taken as correctly rounded: [-inf] at either zero and nan
    below, with a warning only. *)
Definition log64 (x : f64) : f64 :=
  match classify x with
  | Finite _ r =>
      if Rlt_dec 0 r then round64 false (ln r)
      else if Req_dec_T r 0 then Inf64 true
      else NaN64
  | Infinite s => if s then NaN64 else Inf64 false
  | NotANumber => NaN64
  end.

Definition integral (g : R) : bool :=
  if Req_dec_T g (IZR (Int_part g)) then true else false.

Definition odd_integral (g : R) : bool := integral g && Z.odd (Int_part g).

(** [x ** g] for a finite exponent [g], as C's [pow], taken as
    correctly rounded: 1 for [g = 0] whatever [x]; on a zero base a zero
    for [g > 0] and an infinity for [g < 0]; a negative base needs an
    integral exponent and is nan otherwise; the result is negative when
    the base is and [g] is an odd integer. *)
Definition pow64 (x : f64) (g : R) : f64 :=
  if Req_dec_T g 0 then F64 1
  else
    match classify x with
    | Finite s b =>
        if Rlt_dec 0 b then round64 false (Rpower b g)
        else if Req_dec_T b 0 then
          (if Rlt_dec 0 g then zero64 (s && odd_integral g)
           else Inf64 (s && odd_integral g))
        else if integral g then round64 (odd_integral g) (powerRZ b (Int_part g))
        else NaN64
    | Infinite s =>
        if Rlt_dec 0 g then Inf64 (s && odd_integral g)
        else zero64 (s && odd_integral g)
    | NotANumber => NaN64
    end.

Declare Scope f64_scope.
Delimit Scope f64_scope with f64.
Bind Scope f64_scope with f64.
Notation "x + y" := (add64 x y) : f64_scope.
Notation "x - y" := (sub64 x y) : f64_scope.
Notation "x * y" := (mul64 x y) : f64_scope.
Notation "x / y" := (div64 x y) : f64_scope.
Notation "- x" := (neg64 x) : f64_scope.
Notation "x ** y" := (pow64 x y) (at level 30, right associativity) : f64_scope.

(** [x <= y] on binary64 values: false as soon as one side is nan. *)
Definition le64 (x y : f64) : Prop :=
  match classify x, classify y with
  | Finite _ a, Finite _ b => (a <= b)%R
  | Finite _ _, Infinite s => s = false
  | Infinite s, Finite _ _ => s = true
  | Infinite s, Infinite s' => s = true ∨ s' = false
  | _, _ => False
  end.

Section Program64.
Local Open Scope R_scope.
Local Open Scope f64_scope.

(** [def sigmoid(x): return 1./(1. +  np.exp(-x))] on one cell. *)
Definition sigmoid64 (x : f64) : f64 := 1 / (1 + exp64 (- x)).

(** The inner function [fl] of [focal_loss_lgb] on one cell, the
    hyperparameters [a] and [g] being finite floats. *)
Definition fl64 (a g : R) (x t : f64) : f64 :=
  let p := 1 / (1 + exp64 (- x)) in
  - (a * t + (1 - a) * (1 - t))
  * ((1 - (t * p + (1 - t) * (1 - p))) ** g)
  * (t * log64 p + (1 - t) * log64 (1 - p)).

End Program64.

Section Values64.
Local Open Scope R_scope.

(** The value of [b ** g] for a finite base [b >= 0] and [g >= 0]. *)
Definition pow_value (b g : R) : R :=
  if Req_dec_T g 0 then 1
  else if Rlt_dec 0 b then rnd (Rpower b g)
  else 0.

(** The factors of [fl] and its value where they are finite, as
    functions of the rounded probability [p]: the expressions of
    [weight], [modulation], [cross_entropy] and [loss_kernel], every
    operation rounded as [fl64] applies it. *)
Definition weight64 (a t : R) : R :=
  rnd (rnd (a * t) + rnd (rnd (1 - a) * rnd (1 - t))).

Definition modulation64 (g p t : R) : R :=
  pow_value (rnd (1 - rnd (rnd (t * p) + rnd (rnd (1 - t) * rnd (1 - p))))) g.

Definition cross_entropy64 (p t : R) : R :=
  rnd (rnd (t * rnd (ln p)) + rnd (rnd (1 - t) * rnd (ln (rnd (1 - p))))).

Definition loss64 (a g p t : R) : R :=
  rnd (rnd (- weight64 a t * modulation64 g p t) * cross_entropy64 p t).

End Values64.

(** ** Predicted classes *)

(** [np.argmax] of one row of finite values: the first position of the
    maximum. [argmax_from best_i best i l] scans [l], whose head has
    position [i], with the running maximum [best] at position [best_i];
    an empty row raises [ValueError]. *)
Fixpoint argmax_from (best_i : nat) (best : R) (i : nat) (l : list R) : nat :=
  match l with
  | [] => best_i
  | v :: l' =>
      if Rlt_dec best v then argmax_from i v (S i) l'
      else argmax_from best_i best (S i) l'
  end.

Definition argmax (l : list R) : option nat :=
  match l with
  | [] => None
  | v :: l' => Some (argmax_from 0 v 1 l')
  end.

(** [np.argmax(a, axis=1)] on an array of finite values: one position
    per row; an axis of length 0 raises [ValueError]. *)
Definition np_argmax_axis1 (a : ndarray R) : option (list nat) :=
  if bool_decide (ncols a = 0) then None
  else mapM (λ r, argmax (row a r)) (seq 0 (nrows a)).

(** [np.argmax(sigmoid(model.predict(X_val)), axis=1)], as a function of
    [scores = model.predict(X_val)], the N-by-3 array of finite raw
    scores of the trained model (the model itself is LightGBM's): the
    sigmoid of every cell in binary64, then the position of the largest
    value of each row. The sigmoid of a finite score is finite, so
    [np.argmax] meets no nan. *)
Definition predicted_classes (scores : ndarray R) : option (list nat) :=
  p ← mapM (λ x : R, finite64 (sigmoid64 (F64 x))) (data scores);
  np_argmax_axis1 (mk_ndarray (nrows scores) (ncols scores) p).

(** The finite value of the sigmoid of a finite score. *)
Definition sigmoid_value (x : R) : R :=
  default 0%R (finite64 (sigmoid64 (F64 x))).

(** ** The embedding on small inputs *)

Example reshape_2x3 :
  reshape [10; 11; 12; 20; 21; 22] 3
  = Some (mk_ndarray 2 3 [10; 11; 12; 20; 21; 22]).
Proof. reflexivity. Qed.

Example reshape_ragged : reshape [1; 2; 3; 4] 3 = None.
Proof. reflexivity. Qed.

Example flatten_F_2x3 :
  flatten_F (mk_ndarray 2 3 [10; 11; 12; 20; 21; 22]) = [10; 20; 11; 21; 12; 22].
Proof. reflexivity. Qed.

Example one_hot_3 :
  one_hot 3 [2 # 1; 0 # 1; 3 # 2]%Q
  = Some (mk_ndarray 3 3 [Some 0; Some 0; Some 1;
                          Some 1; Some 0; Some 0;
                          Some 0; Some 1; Some 0]%R).
Proof. reflexivity. Qed.

Example one_hot_negative_wraps :
  one_hot 3 [(-1) # 1]%Q = Some (mk_ndarray 1 3 [Some 0; Some 0; Some 1]%R).
Proof. reflexivity. Qed.

Example one_hot_out_of_range : one_hot 3 [3 # 1]%Q = None.
Proof. reflexivity. Qed.

Example broadcast_row :
  np_add (NpArray (mk_ndarray 1 2 [Some 1; Some 2]%R))
         (NpArray (mk_ndarray 2 2 [Some 10; Some 20; Some 30; None]%R))
  = NpArray (mk_ndarray 2 2 [Some (1 + 10); Some (2 + 20); Some (1 + 30); None]%R).
Proof. reflexivity. Qed.

Example broadcast_mismatch :
  np_add (NpArray (mk_ndarray 3 1 [None; None; None]))
         (NpArray (mk_ndarray 2 1 [None; None]))
  = NpError.
Proof. reflexivity. Qed.

(** ** Array layout *)

Section Layout.
Context {A : Type}.
Implicit Types (n m i c k : nat).

Lemma divmod_offset i c m : c < m → (i * m + c) `div` m = i ∧ (i * m + c) `mod` m = c.
Proof.
  intros Hc. split.
  - rewrite Nat.div_add_l by lia. rewrite Nat.div_small by lia. lia.
  - rewrite Nat.add_comm, Nat.Div0.mod_add. by apply Nat.mod_small.
Qed.

Lemma seq_fmap_ext {B} (f g : nat → B) j n :
  (∀ k, j ≤ k < j + n → f k = g k) → f <$> seq j n = g <$> seq j n.
Proof.
  intros H. apply Forall_fmap_ext_1, Forall_forall.
  intros k Hk%elem_of_seq. by apply H.
Qed.

(** Rows written one after the other are the row-major buffer. *)
Lemma bind_seq_rows (g : nat → nat → A) n m :
  (i ← seq 0 n; g i <$> seq 0 m) = (λ k, g (k `div` m) (k `mod` m)) <$> seq 0 (n * m).
Proof.
  induction n as [|n IH]; [done|].
  rewrite seq_S, bind_app, IH. simpl. rewrite app_nil_r.
  replace (m + n * m) with (n * m + m) by lia.
  rewrite seq_app, fmap_app. f_equal. simpl.
  rewrite <- (Nat.add_0_r (n * m)) at 1.
  rewrite <- fmap_add_seq, <- list_fmap_compose.
  apply seq_fmap_ext. intros c Hc. simpl.
  destruct (divmod_offset n c m) as [-> ->]; [lia|done].
Qed.

Lemma lookup_tabulate (f : nat → A) n m k :
  k < n * m → data (tabulate n m f) !! k = Some (f k).
Proof.
  intros Hk. unfold tabulate. simpl.
  rewrite list_lookup_fmap, lookup_seq_lt by done. done.
Qed.

Lemma cell_tabulate (f : nat → A) n m i c :
  i < n → c < m → cell (tabulate n m f) i c = Some (f (i * m + c)).
Proof.
  intros Hi Hc. unfold cell. simpl.
  rewrite bool_decide_eq_true_2 by done.
  rewrite list_lookup_fmap, lookup_seq_lt by nia. done.
Qed.

Lemma wf_tabulate (f : nat → A) n m : wf_ndarray (tabulate n m f).
Proof. unfold wf_ndarray. simpl. by rewrite length_fmap, length_seq. Qed.

Lemma omap_total {B C} (f : B → option C) (g : B → C) (l : list B) :
  Forall (λ x, f x = Some (g x)) l → omap f l = g <$> l.
Proof. induction 1 as [|x l Hx _ IH]; csimpl; [done|]. by rewrite Hx, IH. Qed.

Lemma column_tabulate (f : nat → A) n m c :
  c < m → column (tabulate n m f) c = (λ i, f (i * m + c)) <$> seq 0 n.
Proof.
  intros Hc. unfold column. apply omap_total, Forall_forall.
  intros i Hi%elem_of_seq. apply lookup_tabulate. nia.
Qed.

Lemma bind_ext_Forall {B C} (f g : B → list C) (l : list B) :
  Forall (λ x, f x = g x) l → l ≫= f = l ≫= g.
Proof. induction 1 as [|x l Hx _ IH]; [done|]. by rewrite !bind_cons, Hx, IH. Qed.

(** Flattening in column-major order lists the columns in turn. *)
Lemma flatten_F_tabulate (f : nat → A) n m :
  flatten_F (tabulate n m f)
  = (λ k, f ((k `mod` n) * m + k `div` n)) <$> seq 0 (m * n).
Proof.
  unfold flatten_F. rewrite <- (bind_seq_rows (λ c i, f (i * m + c))).
  apply bind_ext_Forall, Forall_forall. intros c Hc%elem_of_seq.
  apply column_tabulate. simpl in *. lia.
Qed.

Lemma length_flatten_F (f : nat → A) n m :
  length (flatten_F (tabulate n m f)) = n * m.
Proof. rewrite flatten_F_tabulate, length_fmap, length_seq. lia. Qed.

Lemma lookup_flatten_F (f : nat → A) n m i c :
  i < n → c < m →
  flatten_F (tabulate n m f) !! (c * n + i) = Some (f (i * m + c)).
Proof.
  intros Hi Hc. rewrite flatten_F_tabulate.
  rewrite list_lookup_fmap, lookup_seq_lt by nia. simpl.
  destruct (divmod_offset c i n) as [-> ->]; done.
Qed.

(** Every well-formed array is the tabulation of its buffer. *)
Lemma reshape_tabulate (flat : list A) (d : A) N C :
  0 < C → length flat = N * C →
  reshape flat C = Some (tabulate N C (λ k, default d (flat !! k))).
Proof.
  intros HC Hlen. unfold reshape.
  rewrite bool_decide_eq_false_2 by lia.
  rewrite Hlen, Nat.Div0.mod_mul, Nat.div_mul by lia.
  rewrite bool_decide_eq_true_2 by done. unfold tabulate. do 2 f_equal.
  apply list_eq. intros k. rewrite list_lookup_fmap.
  destruct (decide (k < N * C)) as [Hk|Hk].
  - rewrite lookup_seq_lt by done. simpl.
    destruct (lookup_lt_is_Some_2 flat k) as [x ->]; [lia|done].
  - rewrite lookup_seq_ge by lia. simpl. apply lookup_ge_None_2. lia.
Qed.

Lemma bind_list_rows {B} (g : B → nat → A) (d : B) (l : list B) m :
  (x ← l; g x <$> seq 0 m)
  = (λ k, g (default d (l !! (k `div` m))) (k `mod` m)) <$> seq 0 (length l * m).
Proof.
  induction l as [|x l IH] using rev_ind; [done|].
  rewrite bind_app, IH, length_app. simpl. rewrite app_nil_r.
  replace ((length l + 1) * m) with (length l * m + m) by lia.
  rewrite seq_app, fmap_app. f_equal.
  - apply seq_fmap_ext. intros k Hk.
    assert (k `div` m < length l) by (apply Nat.Div0.div_lt_upper_bound; lia).
    by rewrite lookup_app_l.
  - simpl. rewrite <- (Nat.add_0_r (length l * m)) at 1.
    rewrite <- fmap_add_seq, <- list_fmap_compose.
    apply seq_fmap_ext. intros c Hc. simpl.
    destruct (divmod_offset (length l) c m) as [-> ->]; [lia|].
    by rewrite list_lookup_middle.
Qed.

Lemma row_tabulate (f : nat → A) n m r :
  r < n → row (tabulate n m f) r = (λ c, f (r * m + c)) <$> seq 0 m.
Proof.
  intros Hr. unfold row. simpl.
  rewrite <- fmap_drop, <- fmap_take, drop_seq, take_seq.
  replace (m `min` (n * m - r * m)) with m by nia.
  rewrite <- (Nat.add_0_r (0 + r * m)), <- fmap_add_seq, <- list_fmap_compose.
  apply seq_fmap_ext. intros c Hc. simpl. done.
Qed.
End Layout.

Lemma eye_tabulate n :
  eye n = tabulate n n (λ k, if bool_decide (k `div` n = k `mod` n) then Some 1%R else Some 0%R).
Proof.
  unfold eye, tabulate. f_equal.
  apply (bind_seq_rows (λ i j, if bool_decide (i = j) then Some 1%R else Some 0%R)).
Qed.

Lemma valid_labels_Forall C label :
  valid_labels C label = true → Forall (λ l, (0 ≤ astype_int l < Z.of_nat C)%Z) label.
Proof.
  unfold valid_labels. rewrite forallb_forall, Forall_forall.
  intros H l Hl. apply list_elem_of_In, H in Hl.
  by apply bool_decide_eq_true in Hl.
Qed.

Lemma norm_index_valid C label :
  valid_labels C label = true →
  mapM (norm_index C) (astype_int <$> label) = Some (label_class <$> label).
Proof.
  intros H%valid_labels_Forall.
  apply mapM_Some, Forall2_fmap, Forall_Forall2_diag.
  eapply Forall_impl; [done|]. intros l Hl. simpl.
  unfold norm_index. by rewrite bool_decide_eq_true_2.
Qed.

Lemma one_hot_tabulate C label :
  valid_labels C label = true →
  one_hot C label
  = Some (tabulate (length label) C
            (λ k, Some (indicator (default 0%Q (label !! (k `div` C))) (k `mod` C)))).
Proof.
  intros Hv. unfold one_hot, take_rows. simpl.
  rewrite norm_index_valid by done. simpl.
  rewrite length_fmap. unfold tabulate. do 2 f_equal.
  rewrite list_fmap_bind.
  rewrite <- (bind_list_rows (λ l c, Some (indicator l c)) 0%Q).
  apply bind_ext_Forall.
  eapply Forall_impl; [by apply valid_labels_Forall|].
  intros l Hl. simpl in *. rewrite eye_tabulate.
  rewrite row_tabulate by (unfold label_class; lia).
  apply seq_fmap_ext. intros c Hc. simpl.
  destruct (divmod_offset (label_class l) c C) as [-> ->]; [lia|].
  unfold indicator. by case_bool_decide.
Qed.

Section Pointwise.
Implicit Types (f g : nat → fval) (n m : nat).

Lemma bshape_refl n : bshape n n = Some n.
Proof. unfold bshape. by rewrite bool_decide_eq_true_2. Qed.

Lemma broadcast_to_tabulate f n m :
  broadcast_to (tabulate n m f) n m = tabulate n m f.
Proof.
  unfold broadcast_to.
  rewrite (bind_seq_rows (λ i c, default None (data (tabulate n m f) !!
    ((if bool_decide (nrows (tabulate n m f) = 1) then 0 else i) * ncols (tabulate n m f)
     + (if bool_decide (ncols (tabulate n m f) = 1) then 0 else c))))).
  transitivity (mk_ndarray n m (f <$> seq 0 (n * m))); [|done]. f_equal.
  apply seq_fmap_ext. intros k Hk. simpl nrows. simpl ncols.
  assert (Hd : k `div` m < n) by (apply Nat.Div0.div_lt_upper_bound; lia).
  assert (Hm : k `mod` m < m) by (apply Nat.mod_upper_bound; lia).
  assert (Hi : (if bool_decide (n = 1) then 0 else k `div` m) = k `div` m)
    by (case_bool_decide; lia).
  assert (Hc : (if bool_decide (m = 1) then 0 else k `mod` m) = k `mod` m)
    by (destruct (bool_decide_reflect (m = 1)) as [->|]; [by rewrite Nat.mod_1_r|done]).
  rewrite Hi, Hc.
  replace (k `div` m * m + k `mod` m) with k
    by (rewrite (Nat.div_mod_eq k m) at 1; lia).
  rewrite lookup_tabulate by lia. done.
Qed.

Lemma np_op1_tabulate (h : fval → fval) f n m :
  np_op1 h (NpArray (tabulate n m f)) = NpArray (tabulate n m (λ k, h (f k))).
Proof. unfold np_op1, amap, tabulate. simpl. by rewrite <- list_fmap_compose. Qed.

Lemma np_op2_scalar_tabulate (h : fval → fval → fval) (s : fval) f n m :
  np_op2 h (NpScalar s) (NpArray (tabulate n m f))
  = NpArray (tabulate n m (λ k, h s (f k))).
Proof. unfold np_op2, amap, tabulate. simpl. by rewrite <- list_fmap_compose. Qed.

Lemma np_op2_tabulate_scalar (h : fval → fval → fval) (s : fval) f n m :
  np_op2 h (NpArray (tabulate n m f)) (NpScalar s)
  = NpArray (tabulate n m (λ k, h (f k) s)).
Proof. unfold np_op2, amap, tabulate. simpl. by rewrite <- list_fmap_compose. Qed.

Lemma np_op2_tabulate (h : fval → fval → fval) f g n m :
  np_op2 h (NpArray (tabulate n m f)) (NpArray (tabulate n m g))
  = NpArray (tabulate n m (λ k, h (f k) (g k))).
Proof.
  unfold np_op2. simpl nrows. simpl ncols. rewrite !bshape_refl.
  rewrite !broadcast_to_tabulate. unfold tabulate. simpl.
  by rewrite zip_with_fmap_l, zip_with_fmap_r, zip_with_diag.
Qed.

Lemma np_op2_scalar (h : fval → fval → fval) (s s' : fval) :
  np_op2 h (NpScalar s) (NpScalar s') = NpScalar (h s s').
Proof. done. Qed.

Lemma np_op1_scalar (h : fval → fval) (s : fval) :
  np_op1 h (NpScalar s) = NpScalar (h s).
Proof. done. Qed.
End Pointwise.

Ltac np_pointwise :=
  unfold np_add, np_sub, np_mul, np_div, np_pow, np_neg, np_exp, np_log, sc;
  repeat first
    [ rewrite np_op1_tabulate | rewrite np_op2_tabulate
    | rewrite np_op2_scalar_tabulate | rewrite np_op2_tabulate_scalar
    | rewrite np_op2_scalar | rewrite np_op1_scalar ].

Lemma fl_tabulate a g (x t : nat → fval) n m :
  fl a g (NpArray (tabulate n m x)) (NpArray (tabulate n m t))
  = NpArray (tabulate n m (λ k, fl_cell a g (x k) (t k))).
Proof. unfold fl. np_pointwise. reflexivity. Qed.

Section Kernel.
Local Open Scope R_scope.
Implicit Types (a g x y t : R).

Lemma logistic_denominator x : 1 + exp (- x) ≠ 0.
Proof. pose proof (exp_pos (- x)). lra. Qed.

Lemma logistic_bounds x : 0 < logistic x < 1.
Proof.
  unfold logistic. pose proof (exp_pos (- x)) as He.
  assert (Hi : 0 < / (1 + exp (- x))) by (apply Rinv_0_lt_compat; lra).
  assert (Hr : (1 + exp (- x)) * / (1 + exp (- x)) = 1) by (apply Rinv_r; lra).
  unfold Rdiv. nra.
Qed.

Lemma logistic_increasing x y : x < y → logistic x < logistic y.
Proof.
  intros Hxy. unfold logistic.
  assert (exp (- y) < exp (- x)) by (apply exp_increasing; lra).
  pose proof (exp_pos (- y)).
  unfold Rdiv. rewrite !Rmult_1_l.
  apply Rinv_lt_contravar; [nra|lra].
Qed.

Lemma logistic_monotone x y : x <= y → logistic x <= logistic y.
Proof.
  intros [H| ->]; [left; by apply logistic_increasing|right; done].
Qed.

Lemma logistic_opp x : logistic (- x) = 1 - logistic x.
Proof.
  unfold logistic. rewrite Ropp_involutive, exp_Ropp.
  pose proof (exp_pos x). field. split; lra.
Qed.

Lemma cell_logistic x :
  Cell.div (Some 1) (Cell.add (Some 1) (Cell.exp (Cell.neg (Some x))))
  = Some (logistic x).
Proof.
  simpl. destruct (Req_dec_T _ _) as [E|_]; [|done].
  by apply logistic_denominator in E.
Qed.

Lemma sigmoid_scalar x : sigmoid (sc x) = sc (logistic x).
Proof. unfold sigmoid. np_pointwise. by rewrite cell_logistic. Qed.

Lemma log_real_pos x : 0 < x → Cell.log_real x = Some (ln x).
Proof. intros. unfold Cell.log_real. by destruct (Rlt_dec 0 x). Qed.

Lemma pow_real_pos x y : 0 < x → Cell.pow_real x y = Some (Rpower x y).
Proof. intros. unfold Cell.pow_real. by destruct (Rlt_dec 0 x). Qed.

Lemma pow_real_0 x : Cell.pow_real x 0 = Some 1.
Proof.
  unfold Cell.pow_real. destruct (Rlt_dec 0 x).
  - unfold Rpower. by rewrite Rmult_0_l, exp_0.
  - by destruct (Req_dec_T 0 0).
Qed.

(** The kernel on one finite cell, with its partial operations named. *)
Lemma fl_cell_finite a g x t :
  fl_cell a g (Some x) (Some t)
  = (let p := logistic x in
     m ← Cell.pow_real (1 - (t * p + (1 - t) * (1 - p))) g;
     lp ← Cell.log_real p;
     lq ← Cell.log_real (1 - p);
     Some (- (a * t + (1 - a) * (1 - t)) * m * (t * lp + (1 - t) * lq))).
Proof.
  unfold fl_cell, fl. np_pointwise. rewrite cell_logistic. simpl.
  destruct (Cell.pow_real _ g) as [m|]; simpl; [|done].
  destruct (Cell.log_real (logistic x)) as [lp|]; simpl; [|done].
  by destruct (Cell.log_real (1 - logistic x)) as [lq|].
Qed.

Lemma fl_cell_one_hot a g x t :
  t = 0 ∨ t = 1 → fl_cell a g (Some x) (Some t) = Some (loss_kernel a g x t).
Proof.
  intros Ht. rewrite fl_cell_finite. simpl.
  pose proof (logistic_bounds x) as Hp.
  rewrite pow_real_pos by (destruct Ht as [-> | ->]; lra).
  rewrite !log_real_pos by lra. done.
Qed.
End Kernel.

Ltac np_cells :=
  unfold np_add, np_sub, np_mul, np_div, np_pow, np_neg, np_exp, np_log, sc;
  repeat first
    [ rewrite fl_tabulate
    | rewrite np_op1_tabulate | rewrite np_op2_tabulate
    | rewrite np_op2_scalar_tabulate | rewrite np_op2_tabulate_scalar
    | rewrite np_op2_scalar | rewrite np_op1_scalar ].

(** [derivative] on arrays is [derivative] on each cell. *)
Lemma derivative_tabulate a g (x t : nat → fval) n m ord dx :
  ord < 3 →
  derivative (λ X, fl a g X (NpArray (tabulate n m t))) (NpArray (tabulate n m x)) ord dx
  = NpArray (tabulate n m (λ k,
      scalar_of (derivative (λ X, fl a g X (NpScalar (t k))) (NpScalar (x k)) ord dx))).
Proof.
  intros Hord.
  destruct ord as [|[|[|ord]]]; [| | |lia];
    cbv beta iota zeta delta [derivative central_weights foldl zip_with seq];
    np_cells; reflexivity.
Qed.

Section Stencil.
Local Open Scope R_scope.
Implicit Types (a g x y t dx : R).

Lemma sc_add x y : np_add (sc x) (sc y) = sc (x + y).
Proof. done. Qed.

Lemma sc_mul x y : np_mul (sc x) (sc y) = sc (x * y).
Proof. done. Qed.

Lemma sc_div x y : y ≠ 0 → np_div (sc x) (sc y) = sc (x / y).
Proof.
  intros Hy. unfold np_div, sc. simpl. by destruct (Req_dec_T y 0).
Qed.

Lemma fl_scalar_one_hot a g x t :
  t = 0 ∨ t = 1 → fl a g (sc x) (sc t) = sc (loss_kernel a g x t).
Proof.
  intros Ht. unfold sc at 3. rewrite <- (fl_cell_one_hot a g x t Ht).
  unfold fl_cell, fl. by np_pointwise.
Qed.

Lemma derivative1_scalar a g x t dx :
  t = 0 ∨ t = 1 → dx ≠ 0 →
  derivative (λ X, fl a g X (sc t)) (sc x) 1 dx
  = sc (central_diff1 (λ u, loss_kernel a g u t) x dx).
Proof.
  intros Ht Hdx.
  cbv beta iota zeta delta [derivative central_weights foldl zip_with seq].
  rewrite !sc_add, !fl_scalar_one_hot by done.
  rewrite !sc_mul, !sc_add, sc_div by (simpl; lra).
  f_equal. unfold central_diff1.
  change (Z.of_nat 0 - 1)%Z with (-1)%Z.
  change (Z.of_nat 1 - 1)%Z with 0%Z.
  change (Z.of_nat 2 - 1)%Z with 1%Z.
  replace (x + -1 * dx) with (x - dx) by lra.
  replace (x + 1 * dx) with (x + dx) by lra.
  field. done.
Qed.

Lemma derivative2_scalar a g x t dx :
  t = 0 ∨ t = 1 → dx ≠ 0 →
  derivative (λ X, fl a g X (sc t)) (sc x) 2 dx
  = sc (central_diff2 (λ u, loss_kernel a g u t) x dx).
Proof.
  intros Ht Hdx.
  cbv beta iota zeta delta [derivative central_weights foldl zip_with seq].
  rewrite !sc_add, !fl_scalar_one_hot by done.
  rewrite !sc_mul, !sc_add, sc_div by (simpl; nra).
  f_equal. unfold central_diff2.
  change (Z.of_nat 0 - 1)%Z with (-1)%Z.
  change (Z.of_nat 1 - 1)%Z with 0%Z.
  change (Z.of_nat 2 - 1)%Z with 1%Z.
  replace (x + -1 * dx) with (x - dx) by lra.
  replace (x + 0 * dx) with x by lra.
  replace (x + 1 * dx) with (x + dx) by lra.
  field. done.
Qed.
End Stencil.


(** ** Bounds on [ln 2] *)

Section Ln2.
Local Open Scope R_scope.

Lemma exp_square_bound x b b' :
  0 <= b → b <= exp (x / 2) → b' <= b * b → b' <= exp x.
Proof.
  intros Hb Hle Hsq.
  replace x with (x / 2 + x / 2) by lra. rewrite exp_plus. nra.
Qed.

Lemma exp_tangent_bound y b : y ≠ 0 → b <= 1 + y → b <= exp y.
Proof. intros Hy Hb. pose proof (exp_ineq1 y Hy). lra. Qed.

Lemma exp_lower_2 : 2 < exp 0.6934.
Proof.
  apply Rlt_le_trans with 2.00038818478; [lra|].
  apply exp_square_bound with 1.41435079976; [lra| |lra].
  apply exp_square_bound with 1.18926481482; [lra| |lra].
  apply exp_square_bound with 1.09053418783; [lra| |lra].
  apply exp_square_bound with 1.04428644913; [lra| |lra].
  apply exp_square_bound with 1.02190334628; [lra| |lra].
  apply exp_square_bound with 1.01089235148; [lra| |lra].
  apply exp_square_bound with 1.00543142555; [lra| |lra].
  apply exp_square_bound with 1.00271203521; [lra| |lra].
  apply exp_square_bound with 1.00135509946; [lra| |lra].
  apply exp_square_bound with 1.00067732035; [lra| |lra].
  apply exp_square_bound with 1.00033860285; [lra| |lra].
  apply exp_square_bound with 1.0001692871; [lra| |lra].
  apply exp_tangent_bound; lra.
Qed.

Lemma exp_lower_half : 1 / 2 < exp (- 0.6930).
Proof.
  apply Rlt_le_trans with 0.50004425314; [lra|].
  apply exp_square_bound with 0.70713807219; [lra| |lra].
  apply exp_square_bound with 0.84091502079; [lra| |lra].
  apply exp_square_bound with 0.91701418789; [lra| |lra].
  apply exp_square_bound with 0.9576085776; [lra| |lra].
  apply exp_square_bound with 0.97857476853; [lra| |lra].
  apply exp_square_bound with 0.98922938115; [lra| |lra].
  apply exp_square_bound with 0.99460011118; [lra| |lra].
  apply exp_square_bound with 0.99729640087; [lra| |lra].
  apply exp_square_bound with 0.99864728552; [lra| |lra].
  apply exp_square_bound with 0.99932341388; [lra| |lra].
  apply exp_square_bound with 0.9996616497; [lra| |lra].
  apply exp_square_bound with 0.99983081054; [lra| |lra].
  apply exp_tangent_bound; lra.
Qed.

Lemma ln_2_bounds : 0.6930 < ln 2 < 0.6934.
Proof.
  split.
  - assert (H : ln (/ 2) < ln (exp (- 0.6930))).
    { apply ln_increasing; [lra|]. pose proof exp_lower_half. lra. }
    rewrite ln_exp, ln_Rinv in H by lra. lra.
  - assert (H : ln 2 < ln (exp 0.6934)).
    { apply ln_increasing; [lra|]. apply exp_lower_2. }
    by rewrite ln_exp in H.
Qed.

End Ln2.


(** ** The two callbacks on well-formed input *)

Lemma tabulate_ext {A} (f g : nat → A) n m :
  (∀ k, k < n * m → f k = g k) → tabulate n m f = tabulate n m g.
Proof.
  intros H. unfold tabulate. f_equal. apply seq_fmap_ext. intros k Hk. apply H. lia.
Qed.

Lemma ndarray_tabulate {A} (a : ndarray A) (d : A) :
  wf_ndarray a → a = tabulate (nrows a) (ncols a) (λ k, default d (data a !! k)).
Proof.
  intros Hwf. destruct a as [n m l]. unfold wf_ndarray in Hwf. simpl in *.
  unfold tabulate. f_equal. apply list_eq. intros k.
  rewrite list_lookup_fmap.
  destruct (decide (k < n * m)) as [Hk|Hk].
  - rewrite lookup_seq_lt by done. simpl.
    destruct (lookup_lt_is_Some_2 l k) as [x ->]; [lia|done].
  - rewrite lookup_seq_ge by lia. simpl. apply lookup_ge_None_2. lia.
Qed.

Lemma amap_tabulate {A B} (h : A → B) (f : nat → A) n m :
  amap h (tabulate n m f) = tabulate n m (λ k, h (f k)).
Proof. unfold amap, tabulate. simpl. by rewrite <- list_fmap_compose. Qed.

Lemma amap_wf {A B} (h : A → B) (a : ndarray A) (d : A) :
  wf_ndarray a →
  amap h a = tabulate (nrows a) (ncols a) (λ k, h (default d (data a !! k))).
Proof.
  intros Hwf. rewrite (ndarray_tabulate a d Hwf) at 1. apply amap_tabulate.
Qed.

Lemma cell_lookup {A} (a : ndarray A) i c x :
  cell a i c = Some x → data a !! (i * ncols a + c) = Some x ∧ i < nrows a ∧ c < ncols a.
Proof.
  unfold cell.
  destruct (bool_decide_reflect (i < nrows a ∧ c < ncols a)) as [[Hi Hc]|_]; [|done].
  intros H. by repeat split.
Qed.

Lemma indicator_cases l c : indicator l c = 0%R ∨ indicator l c = 1%R.
Proof. unfold indicator. case_bool_decide; auto. Qed.

Lemma target_cases C label k : target C label k = 0%R ∨ target C label k = 1%R.
Proof. apply indicator_cases. Qed.

Lemma score_lookup (y_pred : list R) k :
  k < length y_pred → default None ((Some <$> y_pred) !! k) = Some (score y_pred k).
Proof.
  intros Hk. unfold score. rewrite list_lookup_fmap.
  by destruct (lookup_lt_is_Some_2 y_pred k Hk) as [x ->].
Qed.

Lemma step_nonzero : (1e-6 ≠ 0)%R.
Proof. lra. Qed.

Lemma grad_hess_valid y_pred label a g N C :
  0 < C → length label = N → length y_pred = N * C →
  valid_labels C label = true →
  grad_hess y_pred label a g C
  = Some (NpArray (tabulate N C (λ k, Some
            (central_diff1 (λ u, loss_kernel a g u (target C label k))
                           (score y_pred k) 1e-6))),
          NpArray (tabulate N C (λ k, Some
            (central_diff2 (λ u, loss_kernel a g u (target C label k))
                           (score y_pred k) 1e-6)))).
Proof.
  intros HC HN Hlen Hv. unfold grad_hess.
  rewrite one_hot_tabulate by done. simpl.
  rewrite (reshape_tabulate _ None N C) by (by rewrite ?length_fmap). simpl.
  rewrite HN, !derivative_tabulate by lia.
  do 2 f_equal; f_equal; apply tabulate_ext; intros k Hk;
    rewrite score_lookup by lia; fold (target C label k);
    fold (sc (score y_pred k)); fold (sc (target C label k)).
  - by rewrite derivative1_scalar by (apply target_cases || apply step_nonzero).
  - by rewrite derivative2_scalar by (apply target_cases || apply step_nonzero).
Qed.

Lemma focal_loss_lgb_valid y_pred label a g N C :
  0 < C → length label = N → length y_pred = N * C →
  valid_labels C label = true →
  focal_loss_lgb y_pred label a g C
  = Some (flatten_F (tabulate N C (λ k, Some
            (central_diff1 (λ u, loss_kernel a g u (target C label k))
                           (score y_pred k) 1e-6))),
          flatten_F (tabulate N C (λ k, Some
            (central_diff2 (λ u, loss_kernel a g u (target C label k))
                           (score y_pred k) 1e-6)))).
Proof.
  intros HC HN Hlen Hv. unfold focal_loss_lgb.
  by rewrite (grad_hess_valid _ _ _ _ N C).
Qed.

Lemma sum_cells_Some (l : list R) : sum_cells (Some <$> l) = Some (foldr Rplus 0%R l).
Proof. induction l as [|x l IH]; [done|]. csimpl. by rewrite IH. Qed.

Lemma eval_loss_valid y_pred label a g N C :
  0 < C → length label = N → length y_pred = N * C →
  valid_labels C label = true →
  ∃ y_true y_pred',
    one_hot C label = Some y_true ∧
    reshape (Some <$> y_pred) C = Some y_pred' ∧
    eval_loss a g (NpArray y_pred') (NpArray y_true)
    = NpArray (tabulate N C (λ k, Some
        (loss_kernel a g (score y_pred k) (target C label k)))).
Proof.
  intros HC HN Hlen Hv. eexists _, _.
  split; [by apply one_hot_tabulate|].
  split; [apply (reshape_tabulate _ None N C); by rewrite ?length_fmap|].
  change eval_loss with fl. rewrite HN, fl_tabulate. f_equal.
  apply tabulate_ext. intros k Hk. rewrite score_lookup by lia.
  apply fl_cell_one_hot, target_cases.
Qed.


(** ** The loss kernel *)

Section KernelClaims.
Local Open Scope R_scope.

(** C1. The per-element loss computed by [fl], for a raw score [x] and a
    one-hot component [t] in {0, 1}, is
    [-(alpha*t + (1-alpha)*(1-t)) * (1 - (t*p + (1-t)*(1-p)))^gamma
      * (t*log p + (1-t)*log(1-p))] with [p = 1/(1+exp(-x))]; on arrays
    of one shape it is this value in every (observation, class) cell,
    each cell computed from its own score and target only. *)
Theorem fl_is_loss_kernel (a g : R) :
  (∀ x t, t = 0 ∨ t = 1 → fl a g (sc x) (sc t) = sc (loss_kernel a g x t)) ∧
  (∀ X T : ndarray R,
     wf_ndarray X → wf_ndarray T →
     nrows T = nrows X → ncols T = ncols X →
     Forall (λ t, t = 0 ∨ t = 1) (data T) →
     ∃ L, fl a g (NpArray (amap Some X)) (NpArray (amap Some T)) = NpArray L ∧
          nrows L = nrows X ∧ ncols L = ncols X ∧ wf_ndarray L ∧
          ∀ i c x t, cell X i c = Some x → cell T i c = Some t →
            cell L i c = Some (Some (loss_kernel a g x t))).
Proof.
  split; [apply fl_scalar_one_hot|].
  intros X T HX HT Hr Hc H01.
  rewrite (amap_wf Some X 0 HX), (amap_wf Some T 0 HT).
  rewrite Hr, Hc, fl_tabulate.
  eexists. split; [done|]. split; [done|]. split; [done|].
  split; [apply wf_tabulate|].
  intros i c x t [Hx [Hi Hci]]%cell_lookup [Ht _]%cell_lookup.
  rewrite cell_tabulate by done. rewrite Hc in Ht. rewrite Hx, Ht. simpl.
  do 2 f_equal. apply fl_cell_one_hot.
  rewrite Forall_forall in H01. apply H01. by eapply list_elem_of_lookup_2.
Qed.

Lemma fl_is_loss_kernel_witness :
  fl (1/4) 2 (sc 0) (sc 1) = sc (loss_kernel (1/4) 2 0 1) ∧
  ∃ L, fl (1/4) 2 (NpArray (amap Some (mk_ndarray 1 2 [0; 3])))
                  (NpArray (amap Some (mk_ndarray 1 2 [1; 0]))) = NpArray L ∧
       nrows L = 1%nat ∧ ncols L = 2%nat ∧ wf_ndarray L ∧
       ∀ i c x t, cell (mk_ndarray 1 2 [0; 3]) i c = Some x →
                  cell (mk_ndarray 1 2 [1; 0]) i c = Some t →
                  cell L i c = Some (Some (loss_kernel (1/4) 2 x t)).
Proof.
  split.
  - apply (proj1 (fl_is_loss_kernel (1/4) 2)). right. reflexivity.
  - apply (proj2 (fl_is_loss_kernel (1/4) 2)
             (mk_ndarray 1 2 [0; 3]) (mk_ndarray 1 2 [1; 0])).
    + reflexivity.
    + reflexivity.
    + reflexivity.
    + reflexivity.
    + constructor; [right; reflexivity|].
      constructor; [left; reflexivity|]. constructor.
Defined.

(** C5. The loss expression that [focal_loss_lgb_eval_error] computes
    inline through its locals [p] and [loss] has, for all [x], [t],
    [alpha] and [gamma] (scalars or arrays), the value of the inner
    function [fl] of [focal_loss_lgb] at the same arguments. *)
Theorem eval_loss_is_fl (a g : R) (x t : npval) :
  eval_loss a g x t = fl a g x t.
Proof. reflexivity. Qed.

Lemma fl_scalar a g (u v : fval) :
  fl a g (NpScalar u) (NpScalar v) = NpScalar (fl_cell a g u v).
Proof. reflexivity. Qed.

Lemma logistic_0 : logistic 0 = 1 / 2.
Proof. unfold logistic. rewrite Ropp_0, exp_0. lra. Qed.

Lemma ln_monotone u v : 0 < u → u <= v → ln u <= ln v.
Proof.
  intros Hu [H| ->]; [left; by apply ln_increasing|right; done].
Qed.

Lemma ln_neg u : 0 < u → u < 1 → ln u < 0.
Proof. intros H0 H1. rewrite <- ln_1. by apply ln_increasing. Qed.

Lemma loss_kernel_1 a g x :
  loss_kernel a g x 1 = a * Rpower (1 - logistic x) g * - ln (logistic x).
Proof.
  unfold loss_kernel, weight, modulation, cross_entropy. simpl.
  replace (1 - (1 * logistic x + (1 - 1) * (1 - logistic x)))
    with (1 - logistic x) by lra.
  lra.
Qed.

Lemma loss_kernel_0 a g x :
  loss_kernel a g x 0 = (1 - a) * Rpower (logistic x) g * - ln (1 - logistic x).
Proof.
  unfold loss_kernel, weight, modulation, cross_entropy. simpl.
  replace (1 - (0 * logistic x + (1 - 0) * (1 - logistic x)))
    with (logistic x) by lra.
  lra.
Qed.

(** A product of a non-negative weight and two non-negative factors is
    monotone in the factors. *)
Lemma weighted_product_le w m m' e e' :
  0 <= w → 0 <= m <= m' → 0 <= e <= e' → w * m * e <= w * m' * e'.
Proof.
  intros Hw [Hm Hmm] [He Hee].
  assert (m * e <= m' * e') by nra.
  rewrite !Rmult_assoc. by apply Rmult_le_compat_l.
Qed.

(** C6. With [gamma = 0] and [alpha = 0.5] the per-element loss is, for
    every [x] and [t], 0.5 times the binary cross-entropy with logits
    [-(t*log(sigmoid x) + (1-t)*log(1 - sigmoid x))]; at [x = 0], [t = 1]
    it is [0.5 * ln 2], which is 0.3466 to four decimal places. *)
Theorem focal_loss_reduces_to_bce :
  (∀ x t, fl 0.5 0 (sc x) (sc t) = sc (0.5 * bce_with_logits x t)) ∧
  fl 0.5 0 (sc 0) (sc 1) = sc (0.5 * ln 2) ∧
  0.3465 < 0.5 * ln 2 < 0.3467.
Proof.
  assert (Hall : ∀ x t, fl 0.5 0 (sc x) (sc t) = sc (0.5 * bce_with_logits x t)).
  { intros x t. unfold sc. rewrite fl_scalar, fl_cell_finite. simpl.
    pose proof (logistic_bounds x).
    rewrite pow_real_0, !log_real_pos by lra. simpl.
    do 2 f_equal. unfold bce_with_logits. lra. }
  split; [done|]. split.
  - rewrite Hall. f_equal. unfold bce_with_logits.
    rewrite logistic_0.
    replace (1 / 2) with (/ 2) by lra. rewrite ln_Rinv by lra. lra.
  - pose proof ln_2_bounds. lra.
Qed.

(** In exact arithmetic the kernel is monotone in the score. *)
Lemma loss_kernel_1_antitone (a g x y : R) :
  0 <= a → 0 <= g → x <= y → loss_kernel a g y 1 <= loss_kernel a g x 1.
Proof.
  intros Ha Hg Hxy.
  pose proof (logistic_bounds x). pose proof (logistic_bounds y).
  pose proof (logistic_monotone x y Hxy).
  rewrite !loss_kernel_1. apply weighted_product_le; [done| |].
  - split; [left; apply exp_pos|]. apply Rle_Rpower_l; lra.
  - pose proof (ln_neg (logistic y)).
    pose proof (ln_monotone (logistic x) (logistic y)). lra.
Qed.

Lemma loss_kernel_0_monotone (a g x y : R) :
  a <= 1 → 0 <= g → x <= y → loss_kernel a g x 0 <= loss_kernel a g y 0.
Proof.
  intros Ha Hg Hxy.
  pose proof (logistic_bounds x). pose proof (logistic_bounds y).
  pose proof (logistic_monotone x y Hxy).
  rewrite !loss_kernel_0. apply weighted_product_le; [lra| |].
  - split; [left; apply exp_pos|]. apply Rle_Rpower_l; lra.
  - pose proof (ln_neg (1 - logistic x)).
    pose proof (ln_monotone (1 - logistic y) (1 - logistic x)). lra.
Qed.

End KernelClaims.

(** ** One-hot labels *)

Lemma indicator_sum l j n :
  foldr Rplus 0%R (indicator l <$> seq j n)
  = if bool_decide (j ≤ label_class l < j + n) then 1%R else 0%R.
Proof.
  revert j. induction n as [|n IH]; intros j.
  - simpl. rewrite bool_decide_eq_false_2 by lia. done.
  - simpl. rewrite IH. unfold indicator.
    repeat case_bool_decide; try lia; lra.
Qed.

Lemma row_sum_one C l :
  label_class l < C →
  sum_cells ((λ c, Some (indicator l c)) <$> seq 0 C) = Some 1%R.
Proof.
  intros Hl. rewrite (list_fmap_compose (indicator l) Some), sum_cells_Some.
  rewrite indicator_sum, bool_decide_eq_true_2 by lia. done.
Qed.

(** C9. For labels whose truncations lie in [0, C), the one-hot
    expansion that both callbacks compute is an N-by-C array; each row
    holds a 1 at the truncated label and 0 in every other column, so each
    row sums to exactly 1. *)
Theorem one_hot_rows (C : nat) (label : list Q) :
  valid_labels C label = true →
  ∃ T, one_hot C label = Some T ∧
       nrows T = length label ∧ ncols T = C ∧ wf_ndarray T ∧
       ∀ i l, label !! i = Some l →
         label_class l < C ∧
         cell T i (label_class l) = Some (Some 1%R) ∧
         (∀ c, c < C → c ≠ label_class l → cell T i c = Some (Some 0%R)) ∧
         sum_cells (row T i) = Some 1%R.
Proof.
  intros Hv. eexists. split; [by apply one_hot_tabulate|].
  split; [done|]. split; [done|]. split; [apply wf_tabulate|].
  intros i l Hi.
  assert (HiN : i < length label) by (by eapply lookup_lt_Some).
  assert (Hl : label_class l < C).
  { apply valid_labels_Forall in Hv. rewrite Forall_forall in Hv.
    specialize (Hv l (list_elem_of_lookup_2 _ _ _ Hi)).
    unfold label_class. lia. }
  assert (Hcell : ∀ c, c < C →
            Some (indicator (default 0%Q (label !! ((i * C + c) `div` C)))
                            ((i * C + c) `mod` C)) = Some (indicator l c)).
  { intros c Hc. destruct (divmod_offset i c C Hc) as [-> ->]. by rewrite Hi. }
  split; [done|]. split; [|split].
  - rewrite cell_tabulate, Hcell by done.
    unfold indicator. by rewrite bool_decide_eq_true_2.
  - intros c Hc Hne. rewrite cell_tabulate, Hcell by done.
    unfold indicator. by rewrite bool_decide_eq_false_2.
  - rewrite row_tabulate by done. rewrite <- (row_sum_one C l Hl). f_equal.
    apply seq_fmap_ext. intros c Hc. apply Hcell. lia.
Qed.

Lemma one_hot_rows_witness :
  ∃ T, one_hot 3 [2 # 1; 0 # 1; 3 # 2]%Q = Some T ∧
       nrows T = 3 ∧ ncols T = 3 ∧ wf_ndarray T ∧
       ∀ i l, [2 # 1; 0 # 1; 3 # 2]%Q !! i = Some l →
         label_class l < 3 ∧
         cell T i (label_class l) = Some (Some 1%R) ∧
         (∀ c, c < 3 → c ≠ label_class l → cell T i c = Some (Some 0%R)) ∧
         sum_cells (row T i) = Some 1%R.
Proof. apply (one_hot_rows 3 [2 # 1; 0 # 1; 3 # 2]%Q). reflexivity. Defined.

(** ** The objective: gradient and Hessian *)

(** C2. For raw scores of shape (N, C), [focal_loss_lgb] returns a
    gradient and a Hessian of exactly N*C elements each, the N-by-C
    arrays [grad] and [hess] flattened in column-major order: the N
    values of class 0 first, then those of class 1, and so on, the value
    of observation [i] and class [c] at offset [c*N + i], unchanged. *)
Theorem focal_loss_lgb_column_major
    (y_pred : list R) (label : list Q) (a g : R) (N C : nat) :
  0 < C → length label = N → length y_pred = N * C →
  valid_labels C label = true →
  ∃ G H grad hess,
    grad_hess y_pred label a g C = Some (NpArray G, NpArray H) ∧
    (nrows G = N ∧ ncols G = C ∧ nrows H = N ∧ ncols H = C) ∧
    focal_loss_lgb y_pred label a g C = Some (grad, hess) ∧
    length grad = N * C ∧ length hess = N * C ∧
    grad = (c ← seq 0 C; column G c) ∧
    hess = (c ← seq 0 C; column H c) ∧
    (∀ c, c < C → length (column G c) = N ∧ length (column H c) = N) ∧
    (∀ i c, i < N → c < C →
       is_Some (cell G i c) ∧ is_Some (cell H i c) ∧
       grad !! (c * N + i) = cell G i c ∧
       hess !! (c * N + i) = cell H i c).
Proof.
  intros HC HN Hlen Hv. do 4 eexists.
  split; [by apply (grad_hess_valid _ _ _ _ N C)|].
  split; [done|].
  split; [by apply (focal_loss_lgb_valid _ _ _ _ N C)|].
  rewrite !length_flatten_F.
  do 4 (split; [done|]). split.
  - intros c Hc. by rewrite !column_tabulate, !length_fmap, !length_seq.
  - intros i c Hi Hc. rewrite !lookup_flatten_F, !cell_tabulate by done.
    by repeat split.
Qed.

Lemma focal_loss_lgb_column_major_witness :
  ∃ G H grad hess,
    grad_hess [0; 1; 2; 3; 4; 5]%R [2 # 1; 0 # 1]%Q (1/4) 2 3
      = Some (NpArray G, NpArray H) ∧
    (nrows G = 2 ∧ ncols G = 3 ∧ nrows H = 2 ∧ ncols H = 3) ∧
    focal_loss_lgb [0; 1; 2; 3; 4; 5]%R [2 # 1; 0 # 1]%Q (1/4) 2 3
      = Some (grad, hess) ∧
    length grad = 2 * 3 ∧ length hess = 2 * 3 ∧
    grad = (c ← seq 0 3; column G c) ∧
    hess = (c ← seq 0 3; column H c) ∧
    (∀ c, c < 3 → length (column G c) = 2 ∧ length (column H c) = 2) ∧
    (∀ i c, i < 2 → c < 3 →
       is_Some (cell G i c) ∧ is_Some (cell H i c) ∧
       grad !! (c * 2 + i) = cell G i c ∧
       hess !! (c * 2 + i) = cell H i c).
Proof.
  apply (focal_loss_lgb_column_major
           [0; 1; 2; 3; 4; 5]%R [2 # 1; 0 # 1]%Q (1/4) 2 2 3).
  - lia.
  - reflexivity.
  - reflexivity.
  - reflexivity.
Defined.

(** C3. For every observation [i] and class [c], the gradient that
    [focal_loss_lgb] returns is the centered finite difference
    [(f(x+dx) - f(x-dx)) / (2*dx)], and the Hessian the centered second
    difference [(f(x+dx) - 2*f(x) + f(x-dx)) / dx^2], of the per-element
    loss [f] in that element's raw score [x], its label component and the
    hyperparameters held fixed, with [dx = 1e-6]. *)
Theorem focal_loss_lgb_finite_differences
    (y_pred : list R) (label : list Q) (a g : R) (N C : nat) :
  0 < C → length label = N → length y_pred = N * C →
  valid_labels C label = true →
  ∃ grad hess,
    focal_loss_lgb y_pred label a g C = Some (grad, hess) ∧
    ∀ i c, i < N → c < C →
      ∃ x l, y_pred !! (i * C + c) = Some x ∧ label !! i = Some l ∧
        let f := λ u, loss_kernel a g u (indicator l c) in
        grad !! (c * N + i)
          = Some (Some ((f (x + 1e-6) - f (x - 1e-6)) / (2 * 1e-6))%R) ∧
        hess !! (c * N + i)
          = Some (Some ((f (x + 1e-6) - 2 * f x + f (x - 1e-6)) / 1e-6 ^ 2)%R).
Proof.
  intros HC HN Hlen Hv. do 2 eexists.
  split; [by apply (focal_loss_lgb_valid _ _ _ _ N C)|].
  intros i c Hi Hc.
  destruct (lookup_lt_is_Some_2 y_pred (i * C + c)) as [x Hx]; [nia|].
  destruct (lookup_lt_is_Some_2 label i) as [l Hl]; [lia|].
  exists x, l. split; [done|]. split; [done|].
  rewrite !lookup_flatten_F by done.
  unfold score, target. destruct (divmod_offset i c C Hc) as [-> ->].
  rewrite Hx, Hl. simpl. done.
Qed.

Lemma focal_loss_lgb_finite_differences_witness :
  ∃ grad hess,
    focal_loss_lgb [0; 1; 2; 3; 4; 5]%R [2 # 1; 0 # 1]%Q (1/4) 2 3
      = Some (grad, hess) ∧
    ∀ i c, i < 2 → c < 3 →
      ∃ x l, [0; 1; 2; 3; 4; 5]%R !! (i * 3 + c) = Some x ∧
             [2 # 1; 0 # 1]%Q !! i = Some l ∧
        let f := λ u, loss_kernel (1/4) 2 u (indicator l c) in
        grad !! (c * 2 + i)
          = Some (Some ((f (x + 1e-6) - f (x - 1e-6)) / (2 * 1e-6))%R) ∧
        hess !! (c * 2 + i)
          = Some (Some ((f (x + 1e-6) - 2 * f x + f (x - 1e-6)) / 1e-6 ^ 2)%R).
Proof.
  apply (focal_loss_lgb_finite_differences
           [0; 1; 2; 3; 4; 5]%R [2 # 1; 0 # 1]%Q (1/4) 2 2 3).
  - lia.
  - reflexivity.
  - reflexivity.
  - reflexivity.
Defined.

(** C10. For a flat prediction vector of length N*C with N > 1 and
    C > 1, [focal_loss_lgb] reads input element [k] as the score of
    observation [k / C] and class [k mod C] (row-major), and emits the
    gradient and Hessian of that element at output offset
    [(k mod C) * N + k / C] (class-major); some element is emitted at an
    offset other than the one it was read from. *)
Theorem focal_loss_lgb_orderings_differ
    (y_pred : list R) (label : list Q) (a g : R) (N C : nat) :
  1 < N → 1 < C → length label = N → length y_pred = N * C →
  valid_labels C label = true →
  ∃ X grad hess,
    reshape (Some <$> y_pred) C = Some X ∧
    focal_loss_lgb y_pred label a g C = Some (grad, hess) ∧
    (∀ k x, y_pred !! k = Some x →
       k `div` C < N ∧ k `mod` C < C ∧
       cell X (k `div` C) (k `mod` C) = Some (Some x) ∧
       ∃ l, label !! (k `div` C) = Some l ∧
         let f := λ u, loss_kernel a g u (indicator l (k `mod` C)) in
         grad !! ((k `mod` C) * N + k `div` C)
           = Some (Some (central_diff1 f x 1e-6)) ∧
         hess !! ((k `mod` C) * N + k `div` C)
           = Some (Some (central_diff2 f x 1e-6))) ∧
    (∃ k, k < N * C ∧ (k `mod` C) * N + k `div` C ≠ k).
Proof.
  intros HN1 HC1 HN Hlen Hv. do 3 eexists.
  split; [apply (reshape_tabulate _ None N C); [lia|by rewrite length_fmap]|].
  split; [apply (focal_loss_lgb_valid _ _ _ _ N C); [lia|done..]|].
  split.
  - intros k x Hx.
    assert (Hk : k < N * C) by (rewrite <- Hlen; by eapply lookup_lt_Some).
    assert (Hd : k `div` C < N) by (apply Nat.Div0.div_lt_upper_bound; lia).
    assert (Hm : k `mod` C < C) by (apply Nat.mod_upper_bound; lia).
    assert (Ek : k `div` C * C + k `mod` C = k)
      by (rewrite (Nat.div_mod_eq k C) at 3; lia).
    split; [done|]. split; [done|]. split.
    + rewrite cell_tabulate, Ek by done.
      by rewrite list_lookup_fmap, Hx.
    + destruct (lookup_lt_is_Some_2 label (k `div` C)) as [l Hl]; [lia|].
      exists l. split; [done|].
      rewrite !lookup_flatten_F by done. rewrite Ek.
      unfold score, target. by rewrite Hx, Hl.
  - exists 1. rewrite Nat.mod_small, Nat.div_small by lia. nia.
Qed.

Lemma focal_loss_lgb_orderings_differ_witness :
  ∃ X grad hess,
    reshape (Some <$> [0; 1; 2; 3; 4; 5]%R) 3 = Some X ∧
    focal_loss_lgb [0; 1; 2; 3; 4; 5]%R [2 # 1; 0 # 1]%Q (1/4) 2 3
      = Some (grad, hess) ∧
    (∀ k x, [0; 1; 2; 3; 4; 5]%R !! k = Some x →
       k `div` 3 < 2 ∧ k `mod` 3 < 3 ∧
       cell X (k `div` 3) (k `mod` 3) = Some (Some x) ∧
       ∃ l, [2 # 1; 0 # 1]%Q !! (k `div` 3) = Some l ∧
         let f := λ u, loss_kernel (1/4) 2 u (indicator l (k `mod` 3)) in
         grad !! ((k `mod` 3) * 2 + k `div` 3)
           = Some (Some (central_diff1 f x 1e-6)) ∧
         hess !! ((k `mod` 3) * 2 + k `div` 3)
           = Some (Some (central_diff2 f x 1e-6))) ∧
    (∃ k, k < 2 * 3 ∧ (k `mod` 3) * 2 + k `div` 3 ≠ k).
Proof.
  apply (focal_loss_lgb_orderings_differ
           [0; 1; 2; 3; 4; 5]%R [2 # 1; 0 # 1]%Q (1/4) 2 2 3).
  - lia.
  - lia.
  - reflexivity.
  - reflexivity.
  - reflexivity.
Defined.

(** ** The evaluation metric *)

Lemma np_mean_tabulate (f : nat → R) n m :
  0 < n * m →
  np_mean (NpArray (tabulate n m (λ k, Some (f k))))
  = Some (Some (mean (f <$> seq 0 (n * m)))).
Proof.
  intros Hnm. unfold np_mean, tabulate. simpl.
  rewrite (list_fmap_compose f Some), sum_cells_Some.
  rewrite !length_fmap, length_seq. simpl.
  destruct (Req_dec_T (INR (n * m)) 0) as [E|_].
  - apply (INR_eq _ 0) in E. lia.
  - unfold mean. by rewrite length_fmap, length_seq.
Qed.

(** C4. For predictions of N*C scores and N labels with valid class
    indices, [focal_loss_lgb_eval_error] returns the triple of the name
    ['focal_loss'], the arithmetic mean of the per-element focal loss
    over all N*C cells of the one-hot-expanded array, and the flag
    [False] (on empty input the mean is that of no cells, nan); whenever
    it returns at all, the name is ['focal_loss'] and the flag is
    [False]. *)
Theorem eval_error_triple :
  (∀ (y_pred : list R) (label : list Q) (a g : R) (N C : nat),
     0 < N → 0 < C → length label = N → length y_pred = N * C →
     valid_labels C label = true →
     focal_loss_lgb_eval_error y_pred label a g C
     = Some ("focal_loss"%string,
             Some (mean ((λ k, loss_kernel a g (score y_pred k) (target C label k))
                           <$> seq 0 (N * C))),
             false)) ∧
  (∀ (a g : R) (C : nat), 0 < C →
     focal_loss_lgb_eval_error [] [] a g C = Some ("focal_loss"%string, None, false)) ∧
  (∀ (y_pred : list R) (label : list Q) (a g : R) (C : nat) name value flag,
     focal_loss_lgb_eval_error y_pred label a g C = Some (name, value, flag) →
     name = "focal_loss"%string ∧ flag = false).
Proof.
  split; [|split].
  - intros y_pred label a g N C HN HC Hl Hlen Hv.
    destruct (eval_loss_valid y_pred label a g N C) as (T & X & HT & HX & Hloss);
      [done..|].
    unfold focal_loss_lgb_eval_error. rewrite HT, HX. simpl. rewrite Hloss.
    rewrite np_mean_tabulate by nia. reflexivity.
  - intros a g C HC.
    destruct (eval_loss_valid [] [] a g 0 C) as (T & X & HT & HX & Hloss);
      [done..|].
    unfold focal_loss_lgb_eval_error. rewrite HT, HX. simpl. rewrite Hloss.
    unfold np_mean, tabulate. simpl.
    destruct (Req_dec_T 0 0) as [_|E]; [reflexivity|by destruct E].
  - intros y_pred label a g C name value flag.
    unfold focal_loss_lgb_eval_error.
    destruct (one_hot C label) as [T|]; simpl; [|done].
    destruct (reshape _ C) as [X|]; simpl; [|done].
    destruct (np_mean _) as [m|]; simpl; [|done].
    intros [= <- _ <-]. done.
Qed.

Lemma eval_error_triple_witness :
  focal_loss_lgb_eval_error [0; 1; 2; 3; 4; 5]%R [2 # 1; 0 # 1]%Q (1/4) 2 3
  = Some ("focal_loss"%string,
          Some (mean ((λ k, loss_kernel (1/4) 2
                              (score [0; 1; 2; 3; 4; 5]%R k)
                              (target 3 [2 # 1; 0 # 1]%Q k))
                        <$> seq 0 (2 * 3))),
          false).
Proof.
  apply (proj1 eval_error_triple
           [0; 1; 2; 3; 4; 5]%R [2 # 1; 0 # 1]%Q (1/4)%R 2%R 2 3).
  - lia.
  - lia.
  - reflexivity.
  - reflexivity.
  - reflexivity.
Defined.

(** * The kernel in binary64 *)

(** ** Rounding to nearest *)

Section RoundingFacts.
Local Open Scope R_scope.

Lemma pow2_pos z : 0 < pow2 z.
Proof. apply powerRZ_lt. lra. Qed.

Lemma pow2_add a b : pow2 (a + b) = pow2 a * pow2 b.
Proof. apply powerRZ_add. lra. Qed.

Lemma pow2_0 : pow2 0 = 1.
Proof. reflexivity. Qed.

Lemma pow2_S z : pow2 (z + 1) = 2 * pow2 z.
Proof. rewrite pow2_add. unfold pow2 at 2. simpl. lra. Qed.

Lemma pow2_ge_1 z : (0 <= z)%Z → 1 <= pow2 z.
Proof.
  intros Hz. unfold pow2. rewrite <- (Z2Nat.id z Hz), <- pow_powerRZ.
  apply pow_R1_Rle. lra.
Qed.

Lemma pow2_le a b : (a <= b)%Z → pow2 a <= pow2 b.
Proof.
  intros Hab. replace b with (a + (b - a))%Z by lia. rewrite pow2_add.
  pose proof (pow2_pos a). pose proof (pow2_ge_1 (b - a) ltac:(lia)). nra.
Qed.

Lemma pow2_lt a b : (a < b)%Z → pow2 a < pow2 b.
Proof.
  intros Hab. apply Rlt_le_trans with (pow2 (a + 1)); [|apply pow2_le; lia].
  rewrite pow2_S. pose proof (pow2_pos a). lra.
Qed.

Lemma ln_2_pos : 0 < ln 2.
Proof. rewrite <- ln_1. apply ln_increasing; lra. Qed.

Lemma pow2_exp z : pow2 z = exp (IZR z * ln 2).
Proof. unfold pow2. rewrite powerRZ_Rpower by lra. reflexivity. Qed.

(** The floor of the binary logarithm brackets a positive number between
    two consecutive powers of two. *)
Lemma log2_bracket x :
  0 < x →
  pow2 (Int_part (ln x / ln 2)) <= x < pow2 (Int_part (ln x / ln 2) + 1).
Proof.
  intros Hx. pose proof ln_2_pos as H2.
  destruct (base_Int_part (ln x / ln 2)) as [Hlo Hhi].
  set (e := Int_part (ln x / ln 2)) in *.
  assert (Hq : ln x / ln 2 * ln 2 = ln x) by (field; lra).
  assert (H : exp (IZR e * ln 2) <= exp (ln x) < exp ((IZR e + 1) * ln 2)).
  { split.
    - destruct (Rle_lt_or_eq_dec _ _ Hlo) as [Hl|He].
      + left. apply exp_increasing. nra.
      + right. f_equal. nra.
    - apply exp_increasing. nra. }
  rewrite exp_ln in H by done. by rewrite !pow2_exp, plus_IZR.
Qed.

Lemma log2_unique x k :
  pow2 k <= x < pow2 (k + 1) → Int_part (ln x / ln 2) = k.
Proof.
  intros [Hlo Hhi]. pose proof ln_2_pos as H2.
  assert (Hx : 0 < x) by (pose proof (pow2_pos k); lra).
  symmetry. apply Int_part_spec.
  rewrite !pow2_exp, plus_IZR in *. rewrite <- (exp_ln x Hx) in Hlo, Hhi.
  assert (H1 : IZR k * ln 2 <= ln x).
  { destruct Hlo as [Hl|He]; [left; by apply exp_lt_inv|right; by apply exp_inv]. }
  assert (H3 : ln x < (IZR k + 1) * ln 2) by (by apply exp_lt_inv).
  assert (Hq : ln x / ln 2 * ln 2 = ln x) by (field; lra).
  split; nra.
Qed.

Lemma Int_part_mono r s : r <= s → (Int_part r <= Int_part s)%Z.
Proof.
  intros Hrs. destruct (base_Int_part r), (base_Int_part s).
  assert (IZR (Int_part r) < IZR (Int_part s + 1)) by (rewrite plus_IZR; lra).
  apply lt_IZR in H3. lia.
Qed.

Lemma Int_part_IZR z : Int_part (IZR z) = z.
Proof. symmetry. apply Int_part_spec. lra. Qed.

Lemma nearest_even_IZR z : nearest_even (IZR z) = z.
Proof.
  unfold nearest_even. rewrite Int_part_IZR.
  destruct (Rlt_dec (IZR z - IZR z) (1 / 2)); [done|lra].
Qed.

Lemma nearest_even_floor r :
  (Int_part r <= nearest_even r <= Int_part r + 1)%Z.
Proof.
  unfold nearest_even.
  destruct (Rlt_dec _ _); [lia|]. destruct (Rlt_dec _ _); [lia|].
  destruct (Z.even _); lia.
Qed.

Lemma nearest_even_mono r s : r <= s → (nearest_even r <= nearest_even s)%Z.
Proof.
  intros Hrs. pose proof (Int_part_mono r s Hrs) as Hf.
  destruct (Z_lt_le_dec (Int_part r) (Int_part s)) as [Hlt|Hge].
  - pose proof (nearest_even_floor r). pose proof (nearest_even_floor s). lia.
  - assert (E : Int_part r = Int_part s) by lia.
    unfold nearest_even. rewrite E.
    set (f := Int_part s).
    destruct (Rlt_dec (r - IZR f) (1 / 2)), (Rlt_dec (s - IZR f) (1 / 2)),
             (Rlt_dec (1 / 2) (r - IZR f)), (Rlt_dec (1 / 2) (s - IZR f)),
             (Z.even f); try lia; lra.
Qed.

Lemma nearest_even_ge r z : IZR z <= r → (z <= nearest_even r)%Z.
Proof. intros H. rewrite <- (nearest_even_IZR z). by apply nearest_even_mono. Qed.

Lemma nearest_even_le r z : r <= IZR z → (nearest_even r <= z)%Z.
Proof. intros H. rewrite <- (nearest_even_IZR z). by apply nearest_even_mono. Qed.


Lemma pow2_52 : pow2 52 = IZR (2 ^ 52).
Proof.
  unfold pow2. change (powerRZ 2 52) with (2 ^ Pos.to_nat 52).
  rewrite pow_IZR. f_equal.
Qed.

Lemma pow2_53 : pow2 53 = IZR (2 ^ 53).
Proof.
  unfold pow2. change (powerRZ 2 53) with (2 ^ Pos.to_nat 53).
  rewrite pow_IZR. f_equal.
Qed.

Lemma exponent_ge x : (-1022 <= exponent x)%Z.
Proof. unfold exponent. lia. Qed.

Lemma exponent_upper x : 0 < x → x < pow2 (exponent x + 1).
Proof.
  intros Hx. destruct (log2_bracket x Hx) as [_ H].
  eapply Rlt_le_trans; [exact H|]. apply pow2_le. unfold exponent. lia.
Qed.

Lemma exponent_lower x :
  0 < x → (-1022 < exponent x)%Z → pow2 (exponent x) <= x.
Proof.
  intros Hx He. destruct (log2_bracket x Hx) as [H _].
  replace (exponent x) with (Int_part (ln x / ln 2)); [done|].
  unfold exponent in *. lia.
Qed.

Lemma exponent_mono x y : 0 < x → x <= y → (exponent x <= exponent y)%Z.
Proof.
  intros Hx Hxy. unfold exponent.
  assert (Int_part (ln x / ln 2) <= Int_part (ln y / ln 2))%Z; [|lia].
  apply Int_part_mono. pose proof ln_2_pos.
  assert (ln x <= ln y).
  { destruct Hxy as [Hlt| ->]; [left; apply ln_increasing; lra|lra]. }
  unfold Rdiv. apply Rmult_le_compat_r; [|done].
  left. by apply Rinv_0_lt_compat.
Qed.

Lemma exponent_normal x k :
  (-1022 <= k)%Z → pow2 k <= x < pow2 (k + 1) → exponent x = k.
Proof. intros Hk Hx. unfold exponent. rewrite (log2_unique x k Hx). lia. Qed.

(** Quotients by a power of two. *)
Lemma div_pow2_le x z k : IZR z * pow2 k <= x → IZR z <= x / pow2 k.
Proof.
  intros H. pose proof (pow2_pos k) as Hk.
  apply Rmult_le_reg_r with (pow2 k); [done|].
  unfold Rdiv. rewrite Rmult_assoc, Rinv_l by lra. lra.
Qed.

Lemma div_pow2_ge x z k : x <= IZR z * pow2 k → x / pow2 k <= IZR z.
Proof.
  intros H. pose proof (pow2_pos k) as Hk.
  apply Rmult_le_reg_r with (pow2 k); [done|].
  unfold Rdiv. rewrite Rmult_assoc, Rinv_l by lra. lra.
Qed.

Lemma rnd_pos_nonneg x : 0 < x → 0 <= rnd_pos x.
Proof.
  intros Hx. unfold rnd_pos. pose proof (pow2_pos (exponent x - 52)) as Hu.
  apply Rmult_le_pos; [|lra]. apply IZR_le, nearest_even_ge.
  apply div_pow2_le. lra.
Qed.

Lemma rnd_pos_upper x : 0 < x → rnd_pos x <= pow2 (exponent x + 1).
Proof.
  intros Hx. unfold rnd_pos. pose proof (pow2_pos (exponent x - 52)) as Hu.
  replace (exponent x + 1)%Z with (53 + (exponent x - 52))%Z by lia.
  rewrite pow2_add, pow2_53. apply Rmult_le_compat_r; [lra|].
  apply IZR_le, nearest_even_le, div_pow2_ge.
  rewrite <- pow2_53, <- pow2_add.
  replace (53 + (exponent x - 52))%Z with (exponent x + 1)%Z by lia.
  left. by apply exponent_upper.
Qed.

Lemma rnd_pos_lower x :
  0 < x → pow2 (exponent x) <= x → pow2 (exponent x) <= rnd_pos x.
Proof.
  intros Hx Hlo. unfold rnd_pos. pose proof (pow2_pos (exponent x - 52)) as Hu.
  replace (exponent x) with (52 + (exponent x - 52))%Z at 1 by lia.
  rewrite pow2_add, pow2_52. apply Rmult_le_compat_r; [lra|].
  apply IZR_le, nearest_even_ge, div_pow2_le.
  rewrite <- pow2_52, <- pow2_add.
  by replace (52 + (exponent x - 52))%Z with (exponent x) by lia.
Qed.

Lemma rnd_pos_mono x y : 0 < x → x <= y → rnd_pos x <= rnd_pos y.
Proof.
  intros Hx Hxy. assert (Hy : 0 < y) by lra.
  pose proof (exponent_mono x y Hx Hxy) as He.
  destruct (Z_lt_le_dec (exponent x) (exponent y)) as [Hlt|Hge].
  - apply Rle_trans with (pow2 (exponent x + 1)); [by apply rnd_pos_upper|].
    apply Rle_trans with (pow2 (exponent y)); [apply pow2_le; lia|].
    pose proof (exponent_ge x).
    apply rnd_pos_lower; [done|]. apply exponent_lower; [done|lia].
  - assert (E : exponent x = exponent y) by lia.
    unfold rnd_pos. rewrite E. pose proof (pow2_pos (exponent y - 52)) as Hu.
    apply Rmult_le_compat_r; [lra|]. apply IZR_le, nearest_even_mono.
    unfold Rdiv. apply Rmult_le_compat_r; [|done].
    left. by apply Rinv_0_lt_compat.
Qed.

(** A normalised significand times a power of two is not changed. *)
Lemma rnd_pos_exact m k :
  (2 ^ 52 <= m < 2 ^ 53)%Z → (-1074 <= k)%Z →
  rnd_pos (IZR m * pow2 k) = IZR m * pow2 k.
Proof.
  intros Hm Hk. pose proof (pow2_pos k) as Hp.
  assert (Hlo : IZR (2 ^ 52) <= IZR m) by (apply IZR_le; lia).
  assert (Hhi : IZR m < IZR (2 ^ 53)) by (apply IZR_lt; lia).
  assert (H52 : 0 < IZR (2 ^ 52)) by (rewrite <- pow2_52; apply pow2_pos).
  assert (He : exponent (IZR m * pow2 k) = (k + 52)%Z).
  { apply exponent_normal; [lia|].
    replace (k + 52 + 1)%Z with (53 + k)%Z by lia.
    replace (k + 52)%Z with (52 + k)%Z by lia.
    rewrite !pow2_add, pow2_52, pow2_53. split; nra. }
  unfold rnd_pos. rewrite He. replace (k + 52 - 52)%Z with k by lia.
  replace (IZR m * pow2 k / pow2 k) with (IZR m) by (field; lra).
  by rewrite nearest_even_IZR.
Qed.

Lemma rnd_0 : rnd 0 = 0.
Proof. unfold rnd. destruct (Rlt_dec 0 0); [lra|]. done. Qed.

Lemma rnd_pos_eq x : 0 < x → rnd x = rnd_pos x.
Proof. intros Hx. unfold rnd. by destruct (Rlt_dec 0 x). Qed.

Lemma rnd_opp x : rnd (- x) = - rnd x.
Proof.
  unfold rnd.
  destruct (Rlt_dec 0 x), (Rlt_dec x 0), (Rlt_dec 0 (- x)), (Rlt_dec (- x) 0);
    try lra.
  by rewrite Ropp_involutive.
Qed.

Lemma rnd_nonneg x : 0 <= x → 0 <= rnd x.
Proof.
  intros [Hx| <-]; [|rewrite rnd_0; lra].
  rewrite rnd_pos_eq by done. by apply rnd_pos_nonneg.
Qed.

Lemma rnd_mono x y : x <= y → rnd x <= rnd y.
Proof.
  intros Hxy.
  destruct (Rlt_dec 0 x) as [Hx|Hx].
  - rewrite !rnd_pos_eq by lra. by apply rnd_pos_mono.
  - destruct (Rlt_dec 0 y) as [Hy|Hy].
    + apply Rle_trans with 0; [|apply rnd_nonneg; lra].
      pose proof (rnd_nonneg (- x) ltac:(lra)). rewrite rnd_opp in H. lra.
    + pose proof (rnd_opp x). pose proof (rnd_opp y).
      destruct (Req_dec y 0) as [->|Hy0].
      * rewrite rnd_0. pose proof (rnd_nonneg (- x) ltac:(lra)). lra.
      * assert (rnd (- y) <= rnd (- x)); [|lra].
        rewrite !rnd_pos_eq by lra. apply rnd_pos_mono; lra.
Qed.

Lemma rnd_exact m k :
  (2 ^ 52 <= m < 2 ^ 53)%Z → (-1074 <= k)%Z →
  rnd (IZR m * pow2 k) = IZR m * pow2 k.
Proof.
  intros Hm Hk. rewrite rnd_pos_eq; [by apply rnd_pos_exact|].
  apply Rmult_lt_0_compat; [apply IZR_lt; lia|apply pow2_pos].
Qed.

(** Powers of two in the normal range are not changed. *)
Lemma rnd_pow2 k : (-1022 <= k)%Z → rnd (pow2 k) = pow2 k.
Proof.
  intros Hk. replace (pow2 k) with (IZR (2 ^ 52) * pow2 (k - 52)).
  - apply rnd_exact; lia.
  - rewrite <- pow2_52, <- pow2_add. f_equal. lia.
Qed.

Lemma rnd_1 : rnd 1 = 1.
Proof. rewrite <- pow2_0. apply rnd_pow2. lia. Qed.

End RoundingFacts.

(** ** Operations on finite and non-finite operands *)

Section Cells64.
Local Open Scope R_scope.
Implicit Types (x y : f64) (a b v : R) (s : bool).

Lemma finite64_zero64 s : finite64 (zero64 s) = Some 0.
Proof. by destruct s. Qed.

Lemma finite64_round64 s v :
  Rabs (rnd v) < pow2 1024 → finite64 (round64 s v) = Some (rnd v).
Proof.
  intros Hv. unfold round64.
  destruct (Req_dec_T (rnd v) 0) as [->|_]; [apply finite64_zero64|].
  by destruct (Rlt_dec (Rabs (rnd v)) (pow2 1024)).
Qed.

Lemma round64_inv s v a : finite64 (round64 s v) = Some a → a = rnd v.
Proof.
  unfold round64.
  destruct (Req_dec_T (rnd v) 0) as [->|_].
  - rewrite finite64_zero64. congruence.
  - destruct (Rlt_dec (Rabs (rnd v)) (pow2 1024)); cbn; congruence.
Qed.

Lemma classify_finite x a : finite64 x = Some a → ∃ s, classify x = Finite s a.
Proof.
  unfold finite64. destruct (classify x) as [s r| |]; [|done..].
  intros [= ->]. by exists s.
Qed.

(** Finite operands. *)
Lemma neg64_finite x a : finite64 x = Some a → finite64 (neg64 x) = Some (- a).
Proof.
  destruct x as [r| | |]; cbn; try done.
  - intros [= ->]. destruct (Req_dec_T a 0) as [->|]; cbn; [|done].
    f_equal. lra.
  - intros [= <-]. f_equal. lra.
Qed.

Lemma add64_finite x y a b :
  finite64 x = Some a → finite64 y = Some b →
  Rabs (rnd (a + b)) < pow2 1024 →
  finite64 (add64 x y) = Some (rnd (a + b)).
Proof.
  intros [s Hx]%classify_finite [s' Hy]%classify_finite Hv.
  unfold add64. rewrite Hx, Hy. by apply finite64_round64.
Qed.

Lemma sub64_finite x y a b :
  finite64 x = Some a → finite64 y = Some b →
  Rabs (rnd (a - b)) < pow2 1024 →
  finite64 (sub64 x y) = Some (rnd (a - b)).
Proof.
  intros Hx Hy Hv. unfold sub64.
  apply (add64_finite x (neg64 y) a (- b)); [done|by apply neg64_finite|done].
Qed.

Lemma mul64_finite x y a b :
  finite64 x = Some a → finite64 y = Some b →
  Rabs (rnd (a * b)) < pow2 1024 →
  finite64 (mul64 x y) = Some (rnd (a * b)).
Proof.
  intros [s Hx]%classify_finite [s' Hy]%classify_finite Hv.
  unfold mul64. rewrite Hx, Hy. by apply finite64_round64.
Qed.

Lemma log64_finite x a :
  finite64 x = Some a → 0 < a → Rabs (rnd (ln a)) < pow2 1024 →
  finite64 (log64 x) = Some (rnd (ln a)).
Proof.
  intros [s Hx]%classify_finite Ha Hv. unfold log64. rewrite Hx.
  destruct (Rlt_dec 0 a); [|done]. by apply finite64_round64.
Qed.

(** Finite results. *)
Lemma add64_inv x y v :
  finite64 (add64 x y) = Some v →
  ∃ a b, finite64 x = Some a ∧ finite64 y = Some b ∧ v = rnd (a + b).
Proof.
  unfold add64, finite64 at 2 3.
  destruct (classify x) as [s a|s|], (classify y) as [s' b|s'|]; try done.
  - intros H%round64_inv. by exists a, b.
  - by destruct (Bool.eqb s s').
Qed.

Lemma neg64_inv x v :
  finite64 (neg64 x) = Some v → ∃ a, finite64 x = Some a ∧ v = - a.
Proof.
  destruct x as [r| | |]; cbn; try done.
  - destruct (Req_dec_T r 0) as [->|]; cbn; intros [= <-]; eexists; split; try done.
    lra.
  - intros [= <-]. exists 0. split; [done|lra].
Qed.

Lemma sub64_inv x y v :
  finite64 (sub64 x y) = Some v →
  ∃ a b, finite64 x = Some a ∧ finite64 y = Some b ∧ v = rnd (a - b).
Proof.
  intros (a & b' & Hx & Hy & ->)%add64_inv.
  destruct (finite64 y) as [b|] eqn:Hb.
  - rewrite (neg64_finite y b Hb) in Hy. injection Hy as <-. by exists a, b.
  - destruct y; try done.
Qed.

Lemma mul64_inv x y v :
  finite64 (mul64 x y) = Some v →
  ∃ a b, finite64 x = Some a ∧ finite64 y = Some b ∧ v = rnd (a * b).
Proof.
  unfold mul64, finite64 at 2 3.
  destruct (classify x) as [s a|s|], (classify y) as [s' b|s'|]; try done.
  - intros H%round64_inv. by exists a, b.
  - by destruct (Req_dec_T a 0).
  - by destruct (Req_dec_T b 0).
Qed.

Lemma log64_inv x v :
  finite64 (log64 x) = Some v →
  ∃ a, finite64 x = Some a ∧ 0 < a ∧ v = rnd (ln a).
Proof.
  unfold log64, finite64 at 2.
  destruct (classify x) as [s a|s|]; try done.
  - destruct (Rlt_dec 0 a).
    + intros H%round64_inv. by exists a.
    + by destruct (Req_dec_T a 0).
  - by destruct s.
Qed.

End Cells64.

(** ** Bounds on rounded results *)

Section Bounds64.
Local Open Scope R_scope.
Implicit Types (x y v : R) (k : Z).

Lemma Rabs_bounds x b : Rabs x <= b → - b <= x <= b.
Proof. unfold Rabs. destruct (Rcase_abs x); lra. Qed.

Lemma pow2_opp k : pow2 (- k) = / pow2 k.
Proof.
  pose proof (pow2_pos k). apply Rmult_eq_reg_r with (pow2 k); [|lra].
  rewrite <- pow2_add, Rinv_l by lra.
  replace (- k + k)%Z with 0%Z by lia. apply pow2_0.
Qed.

Lemma rnd_le_pow2 x k : (-1022 <= k)%Z → x <= pow2 k → rnd x <= pow2 k.
Proof. intros Hk Hx. rewrite <- (rnd_pow2 k Hk). by apply rnd_mono. Qed.

Lemma rnd_ge_pow2 x k : (-1022 <= k)%Z → pow2 k <= x → pow2 k <= rnd x.
Proof. intros Hk Hx. rewrite <- (rnd_pow2 k Hk). by apply rnd_mono. Qed.

Lemma rnd_abs_le x k : (-1022 <= k)%Z → Rabs x <= pow2 k → Rabs (rnd x) <= pow2 k.
Proof.
  intros Hk Hx. apply Rabs_le. apply Rabs_bounds in Hx as [Hlo Hhi]. split.
  - rewrite <- (rnd_pow2 k Hk), <- rnd_opp. by apply rnd_mono.
  - by apply rnd_le_pow2.
Qed.

(** A result of magnitude at most [2 ^ k], [k < 1024], does not overflow. *)
Lemma rnd_no_overflow x k :
  (-1022 <= k < 1024)%Z → Rabs x <= pow2 k → Rabs (rnd x) < pow2 1024.
Proof.
  intros Hk Hx. apply Rle_lt_trans with (pow2 k); [apply rnd_abs_le; [lia|done]|].
  apply pow2_lt. lia.
Qed.

Lemma rnd_nonpos x : x <= 0 → rnd x <= 0.
Proof. intros Hx. rewrite <- rnd_0. by apply rnd_mono. Qed.

Lemma rnd_le_1 x : x <= 1 → rnd x <= 1.
Proof. intros Hx. rewrite <- rnd_1. by apply rnd_mono. Qed.

Lemma rnd_ge_1 x : 1 <= x → 1 <= rnd x.
Proof. intros Hx. rewrite <- rnd_1. by apply rnd_mono. Qed.

Lemma rnd_unit x : 0 <= x <= 1 → 0 <= rnd x <= 1.
Proof. intros [H0 H1]. split; [by apply rnd_nonneg|by apply rnd_le_1]. Qed.

Lemma nearest_even_below_half z d :
  0 <= d < 1 / 2 → nearest_even (IZR z + d) = z.
Proof.
  intros Hd. unfold nearest_even.
  assert (E : Int_part (IZR z + d) = z).
  { symmetry. apply Int_part_spec. lra. }
  rewrite E. destruct (Rlt_dec _ _); [done|lra].
Qed.

(** Just above 1 the result is 1. *)
Lemma rnd_above_1 v : 0 <= v < pow2 (-53) → rnd (1 + v) = 1.
Proof.
  intros [H0 Hv].
  assert (H53 : pow2 (-53) = / IZR (2 ^ 53)).
  { rewrite <- pow2_53. apply (pow2_opp 53). }
  assert (H52 : pow2 (-52) = / IZR (2 ^ 52)).
  { rewrite <- pow2_52. apply (pow2_opp 52). }
  assert (He : exponent (1 + v) = 0%Z).
  { apply exponent_normal; [lia|]. rewrite pow2_S, pow2_0.
    pose proof (pow2_lt (-53) 0 ltac:(lia)) as Hlt. rewrite pow2_0 in Hlt. lra. }
  rewrite rnd_pos_eq by lra. unfold rnd_pos. rewrite He.
  change (0 - 52)%Z with (-52)%Z.
  assert (Hq : (1 + v) / pow2 (-52) = IZR (2 ^ 52) + v * IZR (2 ^ 52)).
  { rewrite H52. field. apply not_eq_sym, Rlt_not_eq, IZR_lt. lia. }
  assert (Hd : 0 <= v * IZR (2 ^ 52) < 1 / 2).
  { assert (0 < IZR (2 ^ 52)) by (apply IZR_lt; lia).
    split; [nra|]. rewrite H53 in Hv.
    assert (IZR (2 ^ 53) = 2 * IZR (2 ^ 52)).
    { rewrite <- mult_IZR. f_equal. }
    rewrite H1 in Hv.
    apply Rmult_lt_reg_r with (/ IZR (2 ^ 52)); [by apply Rinv_0_lt_compat|].
    rewrite Rmult_assoc, Rinv_r by lra.
    rewrite Rinv_mult in Hv. lra. }
  rewrite Hq.
  assert (Hn : nearest_even (IZR (2 ^ 52) + v * IZR (2 ^ 52)) = (2 ^ 52)%Z).
  { apply nearest_even_below_half; lra. }
  rewrite Hn, H52. field. apply not_eq_sym, Rlt_not_eq, IZR_lt. lia.
Qed.

(** Powers of two against the exponential. *)
Lemma exp_le_pow2 x k : x <= IZR k * 0.6930 → 0 <= IZR k → exp x <= pow2 k.
Proof.
  intros Hx Hk. rewrite pow2_exp. pose proof ln_2_bounds.
  destruct (Rle_lt_or_eq_dec x (IZR k * ln 2)) as [Hlt| ->];
    [nra|left; by apply exp_increasing|lra].
Qed.

Lemma exp_le_pow2_neg x k : x <= IZR k * 0.6934 → IZR k <= 0 → exp x <= pow2 k.
Proof.
  intros Hx Hk. rewrite pow2_exp. pose proof ln_2_bounds.
  destruct (Rle_lt_or_eq_dec x (IZR k * ln 2)) as [Hlt| ->];
    [nra|left; by apply exp_increasing|lra].
Qed.

Lemma pow2_le_exp x k : IZR k * 0.6934 <= x → 0 <= IZR k → pow2 k <= exp x.
Proof.
  intros Hx Hk. rewrite pow2_exp. pose proof ln_2_bounds.
  destruct (Rle_lt_or_eq_dec (IZR k * ln 2) x) as [Hlt| <-];
    [nra|left; by apply exp_increasing|lra].
Qed.

Lemma pow2_le_exp_neg x k : IZR k * 0.6930 <= x → IZR k <= 0 → pow2 k <= exp x.
Proof.
  intros Hx Hk. rewrite pow2_exp. pose proof ln_2_bounds.
  destruct (Rle_lt_or_eq_dec (IZR k * ln 2) x) as [Hlt| <-];
    [nra|left; by apply exp_increasing|lra].
Qed.

End Bounds64.

(** ** The sigmoid of one cell *)

Ltac hide_pow2 :=
  repeat match goal with
  | |- context [pow2 ?k] =>
      let p := fresh "p" in set (p := pow2 k) in *; clearbody p
  | H : context [pow2 ?k] |- _ =>
      let p := fresh "p" in set (p := pow2 k) in *; clearbody p
  end.

Section Sigmoid64.
Local Open Scope R_scope.
Implicit Types (r p v : R).

Lemma negative_nonneg v : 0 <= v → negative v = false.
Proof. intros Hv. unfold negative. destruct (Rlt_dec v 0); [lra|done]. Qed.

Lemma round64_F64 v : Rabs (rnd v) < pow2 1024 → round64 false v = F64 (rnd v).
Proof.
  intros Hv. unfold round64.
  destruct (Req_dec_T (rnd v) 0) as [->|_]; [done|].
  by destruct (Rlt_dec (Rabs (rnd v)) (pow2 1024)).
Qed.

Lemma round64_overflow s v :
  0 <= v → ¬ Rabs (rnd v) < pow2 1024 → round64 s v = Inf64 false.
Proof.
  intros H0 Hv. unfold round64.
  destruct (Req_dec_T (rnd v) 0) as [E|_].
  - exfalso. apply Hv. rewrite E, Rabs_R0. apply pow2_pos.
  - destruct (Rlt_dec (Rabs (rnd v)) (pow2 1024)); [done|].
    by rewrite negative_nonneg.
Qed.

Lemma exp64_neg64 r : exp64 (neg64 (F64 r)) = round64 false (exp (- r)).
Proof.
  destruct (classify_finite (neg64 (F64 r)) (- r)) as [s Hs].
  { by apply neg64_finite. }
  unfold exp64. by rewrite Hs.
Qed.

Lemma negative_1 : negative 1 = false.
Proof. apply negative_nonneg. lra. Qed.

Lemma one_plus v : 0 <= v → add64 (F64 1) (F64 v) = round64 false (1 + v).
Proof.
  intros Hv. unfold add64, classify. by rewrite negative_1, negative_nonneg.
Qed.

Lemma one_plus_inf : add64 (F64 1) (Inf64 false) = Inf64 false.
Proof. done. Qed.

Lemma one_over d : 0 < d → div64 (F64 1) (F64 d) = round64 false (1 / d).
Proof.
  intros Hd. unfold div64, classify.
  rewrite negative_1, negative_nonneg by lra.
  destruct (Req_dec_T d 0); [lra|done].
Qed.

Lemma one_over_inf : div64 (F64 1) (Inf64 false) = F64 0.
Proof. unfold div64, classify. by rewrite negative_1. Qed.

Lemma rnd_exp_nonneg v : 0 <= rnd (exp v).
Proof. apply rnd_nonneg. left. apply exp_pos. Qed.

Lemma denominator_ge_1 v : 1 <= rnd (1 + rnd (exp v)).
Proof. apply rnd_ge_1. pose proof (rnd_exp_nonneg v). lra. Qed.

Lemma inverse_unit d : 1 <= d → 0 <= 1 / d <= 1.
Proof.
  intros Hd. unfold Rdiv. rewrite Rmult_1_l. split.
  - left. apply Rinv_0_lt_compat. lra.
  - rewrite <- Rinv_1. apply Rinv_le_contravar; lra.
Qed.

Lemma quotient_unit d : 1 <= d → 0 <= rnd (1 / d) <= 1.
Proof. intros Hd. by apply rnd_unit, inverse_unit. Qed.

(** The result when neither [np.exp] nor the sum overflows. *)
Lemma sigmoid64_finite r :
  Rabs (rnd (exp (- r))) < pow2 1024 →
  Rabs (rnd (1 + rnd (exp (- r)))) < pow2 1024 →
  sigmoid64 (F64 r) = F64 (rnd (1 / rnd (1 + rnd (exp (- r))))).
Proof.
  intros HE HD. unfold sigmoid64.
  pose proof (rnd_exp_nonneg (- r)) as HE0.
  pose proof (denominator_ge_1 (- r)) as HD1.
  rewrite exp64_neg64, round64_F64, one_plus, round64_F64 by done.
  rewrite one_over by lra.
  apply round64_F64. apply rnd_no_overflow with 0%Z; [lia|].
  rewrite pow2_0. apply Rabs_le. pose proof (inverse_unit _ HD1). lra.
Qed.

(** The result when [np.exp] or the sum overflows to [inf]. *)
Lemma sigmoid64_overflow r :
  ¬ (Rabs (rnd (exp (- r))) < pow2 1024
     ∧ Rabs (rnd (1 + rnd (exp (- r)))) < pow2 1024) →
  sigmoid64 (F64 r) = F64 0.
Proof.
  intros Hov. unfold sigmoid64.
  pose proof (rnd_exp_nonneg (- r)) as HE0.
  rewrite exp64_neg64.
  destruct (Rlt_dec (Rabs (rnd (exp (- r)))) (pow2 1024)) as [HE|HE].
  - rewrite round64_F64, one_plus by done.
    rewrite round64_overflow; [|lra|tauto]. apply one_over_inf.
  - rewrite round64_overflow; [|left; apply exp_pos|done].
    rewrite one_plus_inf. apply one_over_inf.
Qed.

Lemma sigmoid64_range r : ∃ p, sigmoid64 (F64 r) = F64 p ∧ 0 <= p <= 1.
Proof.
  destruct (Rlt_dec (Rabs (rnd (exp (- r)))) (pow2 1024)) as [HE|HE];
    [destruct (Rlt_dec (Rabs (rnd (1 + rnd (exp (- r))))) (pow2 1024)) as [HD|HD]|].
  - eexists. split; [by apply sigmoid64_finite|].
    apply quotient_unit, denominator_ge_1.
  - exists 0. split; [apply sigmoid64_overflow; tauto|lra].
  - exists 0. split; [apply sigmoid64_overflow; tauto|lra].
Qed.

Lemma sigmoid64_mono r1 r2 p1 p2 :
  r1 <= r2 →
  sigmoid64 (F64 r1) = F64 p1 → sigmoid64 (F64 r2) = F64 p2 → p1 <= p2.
Proof.
  intros Hr H1 H2.
  set (E1 := rnd (exp (- r1))). set (E2 := rnd (exp (- r2))).
  set (D1 := rnd (1 + E1)). set (D2 := rnd (1 + E2)).
  assert (HE : 0 <= E2 <= E1).
  { split; [apply rnd_exp_nonneg|]. apply rnd_mono.
    destruct (Req_dec r1 r2) as [->|]; [lra|]. left. apply exp_increasing. lra. }
  assert (HD : 1 <= D2 <= D1).
  { split; [apply denominator_ge_1|]. apply rnd_mono. lra. }
  destruct (sigmoid64_range r2) as (p2' & Hp2 & Hp2').
  assert (p2' = p2) as -> by congruence.
  destruct (Rlt_dec (Rabs E1) (pow2 1024)) as [HE1|HE1];
    [destruct (Rlt_dec (Rabs D1) (pow2 1024)) as [HD1|HD1]|].
  - rewrite sigmoid64_finite in H1 by done. fold E1 D1 in H1.
    rewrite Rabs_pos_eq in HE1, HD1 by lra.
    rewrite sigmoid64_finite in H2 by (rewrite Rabs_pos_eq; fold E2; fold D2; lra).
    fold E2 D2 in H2. injection H1 as <-. injection H2 as <-.
    apply rnd_mono. unfold Rdiv. rewrite !Rmult_1_l.
    apply Rinv_le_contravar; lra.
  - rewrite sigmoid64_overflow in H1 by tauto. injection H1 as <-. lra.
  - rewrite sigmoid64_overflow in H1 by tauto. injection H1 as <-. lra.
Qed.

Lemma rnd_1_plus_ulp : rnd (1 + pow2 (-52)) = 1 + pow2 (-52).
Proof.
  replace (1 + pow2 (-52)) with (IZR (2 ^ 52 + 1) * pow2 (-52)).
  - apply rnd_exact; lia.
  - rewrite plus_IZR, <- pow2_52, Rmult_plus_distr_r, <- pow2_add.
    change (52 + -52)%Z with 0%Z. rewrite pow2_0. lra.
Qed.

Lemma rnd_1_minus_half_ulp : rnd (1 - pow2 (-53)) = 1 - pow2 (-53).
Proof.
  replace (1 - pow2 (-53)) with (IZR (2 ^ 53 - 1) * pow2 (-53)).
  - apply rnd_exact; lia.
  - rewrite minus_IZR, <- pow2_53, Rmult_minus_distr_r, <- pow2_add.
    change (53 + -53)%Z with 0%Z. rewrite pow2_0. lra.
Qed.

(** Between -700 and 36 no step overflows, and the result stays away
    from both 0 and 1. *)
Lemma sigmoid64_interior r :
  -700 <= r <= 36 →
  ∃ p, sigmoid64 (F64 r) = F64 p ∧ pow2 (-1022) <= p <= 1 - pow2 (-53).
Proof.
  intros Hr.
  set (E := rnd (exp (- r))). set (D := rnd (1 + E)).
  assert (HE : pow2 (-52) <= E <= pow2 1021).
  { split.
    - apply rnd_ge_pow2; [lia|]. apply pow2_le_exp_neg; lra.
    - apply rnd_le_pow2; [lia|]. apply exp_le_pow2; lra. }
  pose proof (pow2_pos (-52)) as H52.
  assert (HD : 1 + pow2 (-52) <= D <= pow2 1022).
  { split.
    - rewrite <- rnd_1_plus_ulp. apply rnd_mono. lra.
    - apply rnd_le_pow2; [lia|]. change 1022%Z with (1021 + 1)%Z.
      rewrite pow2_S. pose proof (pow2_ge_1 1021 ltac:(lia)). lra. }
  exists (rnd (1 / D)). split.
  - apply sigmoid64_finite; fold E; fold D; rewrite Rabs_pos_eq by lra.
    + apply Rle_lt_trans with (pow2 1021); [lra|]. apply pow2_lt. lia.
    + apply Rle_lt_trans with (pow2 1022); [lra|]. apply pow2_lt. lia.
  - split.
    + apply rnd_ge_pow2; [lia|]. change (pow2 (-1022)) with (pow2 (Z.opp 1022)). rewrite pow2_opp.
      unfold Rdiv. rewrite Rmult_1_l. apply Rinv_le_contravar; lra.
    + rewrite <- rnd_1_minus_half_ulp. apply rnd_mono.
      assert (H53 : pow2 (-52) = 2 * pow2 (-53)).
      { change (-52)%Z with (-53 + 1)%Z. apply pow2_S. }
      pose proof (pow2_pos (-53)) as Hp.
      pose proof (pow2_lt (-53) (-1) ltac:(lia)) as Hq.
      assert (Hh : pow2 (-1) = 1 / 2).
      { change (pow2 (-1)) with (pow2 (Z.opp 1)). rewrite pow2_opp.
        change (pow2 1) with (pow2 (0 + 1)). rewrite pow2_S, pow2_0. lra. }
      apply Rmult_le_reg_r with D; [lra|]. unfold Rdiv.
      rewrite Rmult_assoc, Rinv_l by lra.
      assert ((1 - pow2 (-53)) * (1 + pow2 (-52)) <= (1 - pow2 (-53)) * D).
      { apply Rmult_le_compat_l; lra. }
      nra.
Qed.

(** From 40 on the sum [1 + exp(-x)] rounds to 1. *)
Lemma sigmoid64_one r : 40 <= r → sigmoid64 (F64 r) = F64 1.
Proof.
  intros Hr.
  assert (HE : 0 <= rnd (exp (- r)) <= pow2 (-57)).
  { split; [apply rnd_exp_nonneg|].
    apply rnd_le_pow2; [lia|]. apply exp_le_pow2_neg; lra. }
  pose proof (pow2_lt (-57) (-53) ltac:(lia)) as H57.
  pose proof (pow2_lt (-53) 0 ltac:(lia)) as H53. rewrite pow2_0 in H53.
  assert (HD : rnd (1 + rnd (exp (- r))) = 1) by (apply rnd_above_1; lra).
  pose proof (pow2_ge_1 1024 ltac:(lia)) as Hbig.
  rewrite sigmoid64_finite.
  - rewrite HD. f_equal. replace (1 / 1) with 1 by lra. apply rnd_1.
  - clear HD. hide_pow2. rewrite Rabs_pos_eq; lra.
  - rewrite HD, Rabs_R1. apply Rle_lt_trans with (pow2 0); [rewrite pow2_0; apply Rle_refl|].
    apply pow2_lt. lia.
Qed.

(** Below -711 [np.exp] overflows. *)
Lemma sigmoid64_zero r : r <= -711 → sigmoid64 (F64 r) = F64 0.
Proof.
  intros Hr. apply sigmoid64_overflow. intros [HE _].
  assert (pow2 1024 <= rnd (exp (- r))).
  { apply rnd_ge_pow2; [lia|]. apply pow2_le_exp; lra. }
  rewrite Rabs_pos_eq in HE; [lra|apply rnd_exp_nonneg].
Qed.

End Sigmoid64.

(** ** Accuracy of the sigmoid *)

Section Accuracy.
Local Open Scope R_scope.
Implicit Types (x y v r p : R).

Lemma nearest_even_error v : Rabs (IZR (nearest_even v) - v) <= 1 / 2.
Proof.
  unfold nearest_even. destruct (base_Int_part v) as [Hlo Hhi].
  destruct (Rlt_dec _ _) as [H1|H1]; [apply Rabs_le; lra|].
  destruct (Rlt_dec _ _) as [H2|H2]; [rewrite plus_IZR; apply Rabs_le; lra|].
  destruct (Z.even _); [|rewrite plus_IZR]; apply Rabs_le; lra.
Qed.

Lemma rnd_pos_error x :
  0 < x → Rabs (rnd_pos x - x) <= pow2 (exponent x - 53).
Proof.
  intros Hx. unfold rnd_pos.
  set (u := pow2 (exponent x - 52)).
  assert (Hu : 0 < u) by apply pow2_pos.
  assert (Hh : pow2 (exponent x - 53) = 1 / 2 * u).
  { unfold u. replace (exponent x - 52)%Z with (exponent x - 53 + 1)%Z by lia.
    rewrite pow2_S. lra. }
  pose proof (nearest_even_error (x / u)) as He.
  replace (IZR (nearest_even (x / u)) * u - x)
    with ((IZR (nearest_even (x / u)) - x / u) * u) by (field; lra).
  rewrite Rabs_mult, (Rabs_pos_eq u), Hh by lra.
  apply Rmult_le_compat_r; lra.
Qed.

(** The relative error of one rounding is at most [2^-53], and its
    absolute error at most [2^-1075] below the normal range. *)
Lemma rnd_error x :
  0 <= x → Rabs (rnd x - x) <= pow2 (-53) * Rmax x (pow2 (-1022)).
Proof.
  intros [Hx| <-].
  - rewrite rnd_pos_eq by done.
    apply Rle_trans with (pow2 (exponent x - 53)); [by apply rnd_pos_error|].
    replace (exponent x - 53)%Z with (-53 + exponent x)%Z by lia.
    rewrite pow2_add. apply Rmult_le_compat_l; [left; apply pow2_pos|].
    destruct (Z_lt_le_dec (-1022) (exponent x)) as [He|He].
    + apply Rle_trans with x; [by apply exponent_lower|apply Rmax_l].
    + pose proof (exponent_ge x). replace (exponent x) with (-1022)%Z by lia.
      apply Rmax_r.
  - rewrite rnd_0, Rminus_diag, Rabs_R0.
    apply Rmult_le_pos; [left; apply pow2_pos|].
    apply Rle_trans with (pow2 (-1022)); [left; apply pow2_pos|apply Rmax_r].
Qed.

Lemma rnd_error_unit x : 0 <= x <= 1 → Rabs (rnd x - x) <= pow2 (-53).
Proof.
  intros Hx. apply Rle_trans with (pow2 (-53) * Rmax x (pow2 (-1022)));
    [apply rnd_error; lra|].
  rewrite <- (Rmult_1_r (pow2 (-53))) at 2.
  apply Rmult_le_compat_l; [left; apply pow2_pos|].
  apply Rmax_lub; [lra|]. rewrite <- pow2_0. apply pow2_le. lia.
Qed.

Lemma inverse_error a b d :
  1 <= a → 1 <= b → Rabs (a - b) <= d * b → Rabs (1 / a - 1 / b) <= d.
Proof.
  intros Ha Hb Hd.
  assert (Hd0 : 0 <= d).
  { pose proof (Rabs_pos (a - b)). nra. }
  replace (1 / a - 1 / b) with ((b - a) * / (a * b)) by (field; lra).
  assert (Hab : 0 < / (a * b)) by (apply Rinv_0_lt_compat; nra).
  rewrite Rabs_mult, (Rabs_pos_eq (/ (a * b))), Rabs_minus_sym by lra.
  apply Rle_trans with (d * b * / (a * b)).
  - apply Rmult_le_compat_r; lra.
  - replace (d * b * / (a * b)) with (d * / a) by (field; lra).
    rewrite <- (Rmult_1_r d) at 2. apply Rmult_le_compat_l; [done|].
    rewrite <- Rinv_1. apply Rinv_le_contravar; lra.
Qed.

(** The rounded sigmoid is within three roundings of the exact one. *)
Lemma sigmoid64_accurate r p :
  sigmoid64 (F64 r) = F64 p → Rabs (p - logistic r) <= 3 * pow2 (-53).
Proof.
  intros Hp. unfold logistic.
  set (e := exp (- r)). set (E := rnd e). set (D := rnd (1 + E)).
  assert (He : 0 < e) by apply exp_pos.
  assert (HE : 0 <= E) by apply rnd_exp_nonneg.
  assert (HD : 1 <= D) by apply denominator_ge_1.
  pose proof (pow2_pos (-53)) as Hu.
  destruct (Rlt_dec (Rabs E) (pow2 1024)) as [HE1|HE1];
    [destruct (Rlt_dec (Rabs D) (pow2 1024)) as [HD1|HD1]|].
  - rewrite sigmoid64_finite in Hp by done. fold e E D in Hp.
    injection Hp as <-.
    assert (H1 : Rabs (1 / (1 + E) - 1 / (1 + e)) <= pow2 (-53)).
    { apply inverse_error; [lra..|].
      replace (1 + E - (1 + e)) with (E - e) by lra.
      apply Rle_trans with (pow2 (-53) * Rmax e (pow2 (-1022)));
        [apply rnd_error; lra|].
      apply Rmult_le_compat_l; [lra|]. apply Rmax_lub; [lra|].
      pose proof (pow2_le (-1022) 0 ltac:(lia)) as H0. rewrite pow2_0 in H0. lra. }
    assert (H2 : Rabs (1 / D - 1 / (1 + E)) <= pow2 (-53)).
    { apply inverse_error; [lra..|].
      apply Rle_trans with (pow2 (-53) * Rmax (1 + E) (pow2 (-1022)));
        [apply rnd_error; lra|].
      apply Rmult_le_compat_l; [lra|]. apply Rmax_lub; [lra|].
      pose proof (pow2_le (-1022) 0 ltac:(lia)) as H0. rewrite pow2_0 in H0. lra. }
    assert (H3 : Rabs (rnd (1 / D) - 1 / D) <= pow2 (-53)).
    { apply rnd_error_unit. by apply inverse_unit. }
    apply Rabs_bounds in H1, H2, H3. apply Rabs_le. lra.
  - assert (Hbig : pow2 1021 <= e).
    { destruct (Rle_lt_dec (pow2 1021) e) as [|Hlt]; [done|]. exfalso.
      assert (E <= pow2 1021) by (apply rnd_le_pow2; [lia|lra]).
      assert (D <= pow2 1022).
      { apply rnd_le_pow2; [lia|]. change 1022%Z with (1021 + 1)%Z.
        rewrite pow2_S. pose proof (pow2_ge_1 1021 ltac:(lia)). lra. }
      pose proof (pow2_lt 1022 1024 ltac:(lia)).
      rewrite Rabs_pos_eq in HD1 by lra. lra. }
    rewrite sigmoid64_overflow in Hp by tauto. injection Hp as <-.
    pose proof (pow2_ge_1 1021 ltac:(lia)) as H1.
    assert (0 <= 1 / (1 + e) <= pow2 (-53)).
    { split; [apply inverse_unit; lra|].
      apply Rle_trans with (1 / pow2 1021).
      - unfold Rdiv. rewrite !Rmult_1_l. apply Rinv_le_contravar; lra.
      - unfold Rdiv. rewrite Rmult_1_l, <- pow2_opp. apply pow2_le. lia. }
    apply Rabs_le. lra.
  - assert (Hbig : pow2 1021 <= e).
    { destruct (Rle_lt_dec (pow2 1021) e) as [|Hlt]; [done|]. exfalso.
      assert (E <= pow2 1021) by (apply rnd_le_pow2; [lia|lra]).
      pose proof (pow2_lt 1021 1024 ltac:(lia)).
      rewrite Rabs_pos_eq in HE1 by lra. lra. }
    rewrite sigmoid64_overflow in Hp by tauto. injection Hp as <-.
    pose proof (pow2_ge_1 1021 ltac:(lia)) as H1.
    assert (0 <= 1 / (1 + e) <= pow2 (-53)).
    { split; [apply inverse_unit; lra|].
      apply Rle_trans with (1 / pow2 1021).
      - unfold Rdiv. rewrite !Rmult_1_l. apply Rinv_le_contravar; lra.
      - unfold Rdiv. rewrite Rmult_1_l, <- pow2_opp. apply pow2_le. lia. }
    apply Rabs_le. lra.
Qed.

(** [sigmoid(-x)] against [1 - sigmoid(x)], the subtraction rounded. *)
Lemma sigmoid64_symmetry r p q d :
  sigmoid64 (F64 r) = F64 p → sigmoid64 (F64 (- r)) = F64 q →
  finite64 (sub64 (F64 1) (F64 p)) = Some d →
  Rabs (q - d) <= pow2 (-50).
Proof.
  intros Hp Hq Hd.
  apply sub64_inv in Hd as (? & ? & [= <-] & [= <-] & ->).
  destruct (sigmoid64_range r) as (p' & Hp' & H01).
  assert (p' = p) as -> by congruence.
  pose proof (sigmoid64_accurate r p Hp) as H1.
  pose proof (sigmoid64_accurate (- r) q Hq) as H2.
  rewrite logistic_opp in H2.
  pose proof (rnd_error_unit (1 - p) ltac:(lra)) as H3.
  assert (H50 : pow2 (-50) = 8 * pow2 (-53)).
  { replace (-50)%Z with (3 + -53)%Z by lia. rewrite pow2_add.
    f_equal. unfold pow2. simpl. lra. }
  pose proof (pow2_pos (-53)).
  apply Rabs_bounds in H1, H2, H3. apply Rabs_le. lra.
Qed.

End Accuracy.

(** ** The loss of one cell *)

Section Loss64.
Local Open Scope R_scope.
Implicit Types (a g r p t v : R) (x y : f64).

Lemma add64_nan_l y : add64 NaN64 y = NaN64.
Proof. done. Qed.

Lemma add64_nan_r x : add64 x NaN64 = NaN64.
Proof. unfold add64. by destruct (classify x). Qed.

Lemma mul64_nan_r x : mul64 x NaN64 = NaN64.
Proof. unfold mul64. by destruct (classify x). Qed.

Lemma add64_F64 a b :
  add64 (F64 a) (F64 b) = round64 (negative a && negative b) (a + b).
Proof. done. Qed.

Lemma one_minus_one : sub64 (F64 1) (F64 1) = F64 0.
Proof.
  unfold sub64, neg64. destruct (Req_dec_T 1 0) as [|_]; [lra|].
  rewrite add64_F64, negative_1.
  replace (1 + Ropp 1) with 0 by lra. unfold round64. rewrite rnd_0.
  by destruct (Req_dec_T 0 0).
Qed.

Lemma log64_zero : log64 (F64 0) = Inf64 true.
Proof.
  unfold log64, classify. destruct (Rlt_dec 0 0); [lra|].
  by destruct (Req_dec_T 0 0).
Qed.

Lemma zero_times_inf s : mul64 (F64 0) (Inf64 s) = NaN64.
Proof. unfold mul64, classify. by destruct (Req_dec_T 0 0). Qed.

(** At a saturated probability the cross-entropy factor is
    [0 * log(0)], which is nan, and nan goes through every product. *)
Lemma fl64_nan_high a g r : 40 <= r → fl64 a g (F64 r) (F64 1) = NaN64.
Proof.
  intros Hr. unfold fl64. cbv zeta.
  change (div64 (F64 1) (add64 (F64 1) (exp64 (neg64 (F64 r)))))
    with (sigmoid64 (F64 r)).
  rewrite (sigmoid64_one r Hr), one_minus_one, log64_zero, zero_times_inf.
  by rewrite add64_nan_r, mul64_nan_r.
Qed.

Lemma fl64_nan_low a g r : r <= -711 → fl64 a g (F64 r) (F64 0) = NaN64.
Proof.
  intros Hr. unfold fl64. cbv zeta.
  change (div64 (F64 1) (add64 (F64 1) (exp64 (neg64 (F64 r)))))
    with (sigmoid64 (F64 r)).
  rewrite (sigmoid64_zero r Hr), log64_zero, zero_times_inf.
  by rewrite add64_nan_l, mul64_nan_r.
Qed.

Lemma le64_nan_l y : ¬ le64 NaN64 y.
Proof. unfold le64. cbn. tauto. Qed.

End Loss64.

Section LossValue.
Local Open Scope R_scope.
Local Open Scope f64_scope.
Implicit Types (a g r p t v b c l : R) (x y : f64).

Lemma pow2_12 : pow2 12 = 4096.
Proof. unfold pow2. simpl. lra. Qed.

(** Results of magnitude at most 4096 are far from overflow. *)
Lemma small_no_overflow v : (-4096 <= v <= 4096)%R → Rabs (rnd v) < pow2 1024.
Proof.
  intros Hv. apply rnd_no_overflow with 12%Z; [lia|].
  rewrite pow2_12. by apply Rabs_le.
Qed.

Lemma finite64_F64 v : finite64 (F64 v) = Some v.
Proof. done. Qed.

(** The weight [a*t + (1-a)*(1-t)]. *)
Lemma weight64_bounds a t :
  (0 <= a <= 1 → 0 <= t <= 1 → 0 <= weight64 a t <= 2)%R.
Proof.
  intros Ha Ht. unfold weight64.
  assert (H1 : (0 <= rnd (a * t) <= 1)%R) by (apply rnd_unit; nra).
  assert (H2 : (0 <= rnd (1 - a) <= 1)%R) by (apply rnd_unit; lra).
  assert (H3 : (0 <= rnd (1 - t) <= 1)%R) by (apply rnd_unit; lra).
  assert (H4 : (0 <= rnd (rnd (1 - a) * rnd (1 - t)) <= 1)%R) by (apply rnd_unit; nra).
  split; [apply rnd_nonneg; lra|].
  replace 2%R with (pow2 1) by (unfold pow2; simpl; lra).
  apply rnd_le_pow2; [lia|]. unfold pow2. simpl. lra.
Qed.

Lemma weight64_finite a t :
  (0 <= a <= 1)%R → (0 <= t <= 1)%R →
  finite64 (a * t + (1 - a) * (1 - t)) = Some (weight64 a t).
Proof.
  intros Ha Ht.
  assert (H1 : (0 <= rnd (a * t) <= 1)%R) by (apply rnd_unit; nra).
  assert (H2 : (0 <= rnd (1 - a) <= 1)%R) by (apply rnd_unit; lra).
  assert (H3 : (0 <= rnd (1 - t) <= 1)%R) by (apply rnd_unit; lra).
  assert (H4 : (0 <= rnd (rnd (1 - a) * rnd (1 - t)) <= 1)%R) by (apply rnd_unit; nra).
  unfold weight64.
  apply add64_finite; [apply mul64_finite|apply mul64_finite|];
    try apply sub64_finite; try apply finite64_F64;
    apply small_no_overflow; nra.
Qed.

Lemma exp_monotone u v : (u <= v → exp u <= exp v)%R.
Proof.
  intros [H| ->]; [left; by apply exp_increasing|right; done].
Qed.

Lemma ln_nonpos u : (0 < u <= 1 → ln u <= 0)%R.
Proof. intros Hu. rewrite <- ln_1. apply ln_monotone; lra. Qed.

Lemma Rpower_unit b g : (0 < b <= 1 → 0 <= g → 0 < Rpower b g <= 1)%R.
Proof.
  intros Hb Hg. unfold Rpower. split; [apply exp_pos|].
  rewrite <- exp_0. apply exp_monotone. pose proof (ln_nonpos b Hb). nra.
Qed.

Lemma pow_value_unit b g : (0 <= b <= 1 → 0 <= g → 0 <= pow_value b g <= 1)%R.
Proof.
  intros Hb Hg. unfold pow_value.
  destruct (Req_dec_T g 0); [lra|]. destruct (Rlt_dec 0 b); [|lra].
  apply rnd_unit. pose proof (Rpower_unit b g). lra.
Qed.

Lemma pow_value_mono b b' g :
  (0 <= b <= b' → 0 <= g → pow_value b g <= pow_value b' g)%R.
Proof.
  intros Hb Hg. unfold pow_value.
  destruct (Req_dec_T g 0); [lra|].
  destruct (Rlt_dec 0 b), (Rlt_dec 0 b'); try lra.
  - apply rnd_mono, Rle_Rpower_l; lra.
  - apply rnd_nonneg. left. apply exp_pos.
Qed.

Lemma pow64_finite x b g :
  finite64 x = Some b → (0 <= b <= 1)%R → (0 <= g)%R →
  finite64 (x ** g) = Some (pow_value b g).
Proof.
  intros [s Hx]%classify_finite Hb Hg. unfold pow64, pow_value.
  destruct (Req_dec_T g 0); [done|]. rewrite Hx.
  destruct (Rlt_dec 0 b).
  - apply finite64_round64, small_no_overflow.
    pose proof (Rpower_unit b g). lra.
  - destruct (Req_dec_T b 0); [|lra]. destruct (Rlt_dec 0 g); [|lra].
    apply finite64_zero64.
Qed.

(** The probability of the true class, [t*p + (1-t)*(1-p)]. *)
Lemma rnd_1_minus_1 : rnd (1 - 1) = 0%R.
Proof. replace (1 - 1)%R with 0%R by lra. apply rnd_0. Qed.

Lemma rnd_1_minus_0 : rnd (1 - 0) = 1%R.
Proof. replace (1 - 0)%R with 1%R by lra. apply rnd_1. Qed.

Lemma rnd_0_times v : rnd (0 * v) = 0%R.
Proof. rewrite Rmult_0_l. apply rnd_0. Qed.

Lemma true_class_unit p t :
  t = 0%R ∨ t = 1%R → (0 <= p <= 1)%R →
  (0 <= rnd (rnd (t * p) + rnd (rnd (1 - t) * rnd (1 - p))) <= 1)%R.
Proof.
  intros Ht Hp.
  assert (Hq : (0 <= rnd (1 - p) <= 1)%R) by (apply rnd_unit; lra).
  destruct Ht as [-> | ->].
  - rewrite rnd_0_times, rnd_1_minus_0.
    assert (0 <= rnd (1 * rnd (1 - p)) <= 1)%R by (apply rnd_unit; lra).
    apply rnd_unit. lra.
  - rewrite rnd_1_minus_1, rnd_0_times.
    assert (0 <= rnd (1 * p) <= 1)%R by (apply rnd_unit; lra).
    apply rnd_unit. lra.
Qed.

Lemma modulation64_bounds g p t :
  t = 0%R ∨ t = 1%R → (0 <= p <= 1)%R → (0 <= g)%R →
  (0 <= modulation64 g p t <= 1)%R.
Proof.
  intros Ht Hp Hg. unfold modulation64.
  pose proof (true_class_unit p t Ht Hp).
  apply pow_value_unit; [|done]. apply rnd_unit. lra.
Qed.

Lemma modulation64_finite g p t :
  t = 0%R ∨ t = 1%R → (0 <= p <= 1)%R → (0 <= g)%R →
  finite64 ((1 - (t * p + (1 - t) * (1 - p))) ** g) = Some (modulation64 g p t).
Proof.
  intros Ht Hp Hg. unfold modulation64.
  pose proof (true_class_unit p t Ht Hp) as Hpt.
  assert (H01 : (0 <= t <= 1)%R) by (destruct Ht; lra).
  assert (H1 : (0 <= rnd (t * p) <= 1)%R) by (apply rnd_unit; nra).
  assert (H2 : (0 <= rnd (1 - p) <= 1)%R) by (apply rnd_unit; lra).
  assert (H3 : (0 <= rnd (1 - t) <= 1)%R) by (apply rnd_unit; lra).
  assert (H4 : (0 <= rnd (rnd (1 - t) * rnd (1 - p)) <= 1)%R) by (apply rnd_unit; nra).
  apply pow64_finite; [|apply rnd_unit; lra|done].
  apply sub64_finite; [done| |apply small_no_overflow; lra].
  apply add64_finite; [apply mul64_finite|apply mul64_finite|];
    try apply sub64_finite; try apply finite64_F64;
    apply small_no_overflow; nra.
Qed.

End LossValue.

Section LossMonotone.
Local Open Scope R_scope.
Implicit Types (a g r p t v b c l : R) (x y : f64).

(** Two factors that are both at most 0. *)
Lemma product_nonpos_le u u' v v' :
  u <= u' <= 0 → v <= v' <= 0 → u' * v' <= u * v.
Proof. intros Hu Hv. nra. Qed.

Lemma loss64_antitone_1 a g p p' :
  0 <= a <= 1 → 0 <= g → 0 < p → p <= p' → p' <= 1 →
  loss64 a g p' 1 <= loss64 a g p 1.
Proof.
  intros Ha Hg H0 Hpp H1.
  pose proof (weight64_bounds a 1 Ha ltac:(lra)) as Hw.
  unfold loss64, modulation64, cross_entropy64.
  rewrite rnd_1_minus_1, !rnd_0_times.
  set (w := weight64 a 1) in *.
  assert (Hpt : ∀ q, 0 <= q <= 1 → 0 <= rnd (rnd (1 * q) + 0) <= 1).
  { intros q Hq. apply rnd_unit.
    assert (0 <= rnd (1 * q) <= 1) by (apply rnd_unit; lra). lra. }
  assert (Hb : ∀ q, 0 <= q <= 1 → 0 <= rnd (1 - rnd (rnd (1 * q) + 0)) <= 1).
  { intros q Hq. pose proof (Hpt q Hq). apply rnd_unit. lra. }
  assert (Hbb : rnd (1 - rnd (rnd (1 * p') + 0)) <= rnd (1 - rnd (rnd (1 * p) + 0))).
  { apply rnd_mono.
    assert (rnd (rnd (1 * p) + 0) <= rnd (rnd (1 * p') + 0)); [|lra].
    apply rnd_mono.
    assert (rnd (1 * p) <= rnd (1 * p')); [|lra]. apply rnd_mono. lra. }
  assert (Hm : 0 <= pow_value (rnd (1 - rnd (rnd (1 * p') + 0))) g
               <= pow_value (rnd (1 - rnd (rnd (1 * p) + 0))) g).
  { split.
    - apply pow_value_unit; [apply Hb; lra|done].
    - apply pow_value_mono; [|done]. split; [apply Hb; lra|done]. }
  assert (Hc : ∀ q, 0 < q <= 1 → rnd (rnd (1 * rnd (ln q)) + 0) <= 0).
  { intros q Hq. apply rnd_nonpos.
    assert (rnd (1 * rnd (ln q)) <= 0); [|lra]. apply rnd_nonpos.
    assert (rnd (ln q) <= 0); [|lra]. apply rnd_nonpos. by apply ln_nonpos. }
  assert (Hcc : rnd (rnd (1 * rnd (ln p)) + 0) <= rnd (rnd (1 * rnd (ln p')) + 0)).
  { apply rnd_mono.
    assert (rnd (1 * rnd (ln p)) <= rnd (1 * rnd (ln p'))); [|lra].
    apply rnd_mono.
    assert (rnd (ln p) <= rnd (ln p')); [|lra]. apply rnd_mono. by apply ln_monotone. }
  apply rnd_mono, product_nonpos_le.
  - split; [apply rnd_mono; nra|apply rnd_nonpos; nra].
  - split; [done|apply Hc; lra].
Qed.

Lemma loss64_monotone_0 a g p p' :
  0 <= a <= 1 → 0 <= g → 0 <= p → p <= p' → 0 < rnd (1 - p') →
  loss64 a g p 0 <= loss64 a g p' 0.
Proof.
  intros Ha Hg H0 Hpp H1.
  pose proof (weight64_bounds a 0 Ha ltac:(lra)) as Hw.
  unfold loss64, modulation64, cross_entropy64.
  rewrite rnd_1_minus_0, !rnd_0_times.
  set (w := weight64 a 0) in *.
  set (q := rnd (1 - p)). set (q' := rnd (1 - p')) in *.
  assert (Hq : 0 < q' ∧ q' <= q ∧ q <= 1).
  { split; [done|]. split; [apply rnd_mono; lra|apply rnd_le_1; lra]. }
  assert (Hpt : ∀ u, 0 <= u <= 1 → 0 <= rnd (0 + rnd (1 * u)) <= 1).
  { intros u Hu. apply rnd_unit.
    assert (0 <= rnd (1 * u) <= 1) by (apply rnd_unit; lra). lra. }
  assert (Hb : ∀ u, 0 <= u <= 1 → 0 <= rnd (1 - rnd (0 + rnd (1 * u))) <= 1).
  { intros u Hu. pose proof (Hpt u Hu). apply rnd_unit. lra. }
  assert (Hbb : rnd (1 - rnd (0 + rnd (1 * q))) <= rnd (1 - rnd (0 + rnd (1 * q')))).
  { apply rnd_mono.
    assert (rnd (0 + rnd (1 * q')) <= rnd (0 + rnd (1 * q))); [|lra].
    apply rnd_mono.
    assert (rnd (1 * q') <= rnd (1 * q)); [|lra]. apply rnd_mono. lra. }
  assert (Hm : 0 <= pow_value (rnd (1 - rnd (0 + rnd (1 * q)))) g
               <= pow_value (rnd (1 - rnd (0 + rnd (1 * q')))) g).
  { split.
    - apply pow_value_unit; [apply Hb; lra|done].
    - apply pow_value_mono; [|done]. split; [apply Hb; lra|done]. }
  assert (Hc : ∀ u, 0 < u <= 1 → rnd (0 + rnd (1 * rnd (ln u))) <= 0).
  { intros u Hu. apply rnd_nonpos.
    assert (rnd (1 * rnd (ln u)) <= 0); [|lra]. apply rnd_nonpos.
    assert (rnd (ln u) <= 0); [|lra]. apply rnd_nonpos. by apply ln_nonpos. }
  assert (Hcc : rnd (0 + rnd (1 * rnd (ln q'))) <= rnd (0 + rnd (1 * rnd (ln q)))).
  { apply rnd_mono.
    assert (rnd (1 * rnd (ln q')) <= rnd (1 * rnd (ln q))); [|lra].
    apply rnd_mono.
    assert (rnd (ln q') <= rnd (ln q)); [|lra]. apply rnd_mono. apply ln_monotone; lra. }
  apply rnd_mono, product_nonpos_le.
  - split; [apply rnd_mono; nra|apply rnd_nonpos; nra].
  - split; [done|apply Hc; lra].
Qed.

End LossMonotone.

Section LossCells.
Local Open Scope R_scope.
Local Open Scope f64_scope.
Implicit Types (a g r p t v b c l : R) (x y : f64).

(** A finite cross-entropy factor needs both logarithms finite. *)
Lemma cross_entropy64_inv p t c :
  finite64 (t * log64 p + (1 - t) * log64 (1 - p)) = Some c →
  c = cross_entropy64 p t ∧ (0 < p)%R ∧ (0 < rnd (1 - p))%R.
Proof.
  intros (c1 & c2 & H1 & H2 & ->)%add64_inv.
  apply mul64_inv in H1 as (t1 & lp & Ht1 & Hlp & ->).
  apply log64_inv in Hlp as (p1 & Hp1 & Hpos & ->).
  apply mul64_inv in H2 as (t2 & lq & Ht2 & Hlq & ->).
  apply sub64_inv in Ht2 as (? & ? & [= <-] & [= <-] & ->).
  apply log64_inv in Hlq as (q & Hq & Hqpos & ->).
  apply sub64_inv in Hq as (? & ? & [= <-] & [= <-] & ->).
  injection Ht1 as <-. injection Hp1 as <-. done.
Qed.

(** The finite values of [fl]. *)
Lemma fl64_value a g r p t l :
  (0 <= a <= 1)%R → (0 <= g)%R → t = 0%R ∨ t = 1%R →
  sigmoid64 (F64 r) = F64 p →
  finite64 (fl64 a g (F64 r) (F64 t)) = Some l →
  l = loss64 a g p t ∧ (0 < p <= 1)%R ∧ (0 < rnd (1 - p))%R.
Proof.
  intros Ha Hg Ht Hp. unfold fl64. cbv zeta.
  change (div64 (F64 1) (add64 (F64 1) (exp64 (neg64 (F64 r)))))
    with (sigmoid64 (F64 r)).
  rewrite Hp.
  destruct (sigmoid64_range r) as (p' & Hp' & H01).
  assert (p' = p) as -> by congruence.
  assert (Ht01 : (0 <= t <= 1)%R) by (destruct Ht; lra).
  intros (u & c & Hu & Hc & ->)%mul64_inv.
  apply mul64_inv in Hu as (w & m & Hw & Hm & ->).
  apply neg64_inv in Hw as (w' & Hw & ->).
  rewrite weight64_finite in Hw by done. injection Hw as <-.
  rewrite modulation64_finite in Hm by done. injection Hm as <-.
  apply cross_entropy64_inv in Hc as (-> & H0 & Hq).
  split; [done|]. split; [lra|done].
Qed.

Lemma pow2_1 : pow2 1 = 2%R.
Proof. unfold pow2. simpl. lra. Qed.

Lemma pow2_10 : pow2 10 = 1024%R.
Proof. unfold pow2. simpl. lra. Qed.

Lemma pow2_11 : pow2 11 = 2048%R.
Proof. unfold pow2. simpl. lra. Qed.

Lemma rnd_within k B v :
  pow2 k = B → (-1022 <= k)%Z → (- B <= v <= B)%R → (- B <= rnd v <= B)%R.
Proof.
  intros <- Hk Hv. apply Rabs_bounds, rnd_abs_le; [done|]. by apply Rabs_le.
Qed.

Lemma ln_pow2 k : ln (pow2 k) = (IZR k * ln 2)%R.
Proof. by rewrite pow2_exp, ln_exp. Qed.

(** The logarithm of a probability that is a normal number. *)
Lemma ln_bounds v : (pow2 (-1022) <= v <= 1)%R → (-1024 <= ln v <= 0)%R.
Proof.
  intros Hv. pose proof (pow2_pos (-1022)) as H0.
  split; [|apply ln_nonpos; lra].
  apply Rle_trans with (ln (pow2 (-1022))); [|apply ln_monotone; lra].
  rewrite ln_pow2. pose proof ln_2_bounds. lra.
Qed.

Lemma rnd_ln_bounds v :
  (pow2 (-1022) <= v <= 1)%R → (-1024 <= rnd (ln v) <= 0)%R.
Proof.
  intros Hv. pose proof (ln_bounds v Hv).
  split; [|apply rnd_nonpos; lra].
  apply (rnd_within 10 1024); [apply pow2_10|lia|lra].
Qed.

Lemma cross_entropy64_finite p t :
  (0 <= t <= 1)%R → (pow2 (-1022) <= p <= 1 - pow2 (-53))%R →
  finite64 (t * log64 p + (1 - t) * log64 (1 - p)) = Some (cross_entropy64 p t)
  ∧ (-2048 <= cross_entropy64 p t <= 2048)%R.
Proof.
  intros Ht Hp.
  pose proof (pow2_pos (-1022)) as H0. pose proof (pow2_pos (-53)) as H53.
  assert (Hq : (pow2 (-1022) <= rnd (1 - p) <= 1)%R).
  { split; [|apply rnd_le_1; lra].
    apply Rle_trans with (pow2 (-53)); [apply pow2_le; lia|].
    apply rnd_ge_pow2; [lia|lra]. }
  pose proof (rnd_ln_bounds p ltac:(lra)) as Hlp.
  pose proof (rnd_ln_bounds (rnd (1 - p)) Hq) as Hlq.
  pose proof (ln_bounds p ltac:(lra)) as Hlp'.
  pose proof (ln_bounds (rnd (1 - p)) Hq) as Hlq'.
  assert (H3 : (0 <= rnd (1 - t) <= 1)%R) by (apply rnd_unit; lra).
  assert (Hc1 : (-1024 <= rnd (t * rnd (ln p)) <= 1024)%R).
  { apply (rnd_within 10 1024); [apply pow2_10|lia|nra]. }
  assert (Hc2 : (-1024 <= rnd (rnd (1 - t) * rnd (ln (rnd (1 - p)))) <= 1024)%R).
  { apply (rnd_within 10 1024); [apply pow2_10|lia|nra]. }
  unfold cross_entropy64. split.
  - apply add64_finite; [apply mul64_finite|apply mul64_finite|];
      try apply log64_finite; try apply sub64_finite; try apply finite64_F64;
      try apply small_no_overflow; try lra; nra.
  - apply (rnd_within 11 2048); [apply pow2_11|lia|lra].
Qed.

(** Away from saturation the loss is finite. *)
Lemma fl64_finite a g r p t :
  (0 <= a <= 1)%R → (0 <= g)%R → t = 0%R ∨ t = 1%R →
  sigmoid64 (F64 r) = F64 p → (pow2 (-1022) <= p <= 1 - pow2 (-53))%R →
  finite64 (fl64 a g (F64 r) (F64 t)) = Some (loss64 a g p t).
Proof.
  intros Ha Hg Ht Hp Hpp. unfold fl64. cbv zeta.
  change (div64 (F64 1) (add64 (F64 1) (exp64 (neg64 (F64 r)))))
    with (sigmoid64 (F64 r)).
  rewrite Hp.
  pose proof (pow2_pos (-1022)) as H0. pose proof (pow2_pos (-53)) as H53.
  assert (Ht01 : (0 <= t <= 1)%R) by (destruct Ht; lra).
  pose proof (weight64_bounds a t Ha Ht01) as Hw.
  pose proof (modulation64_bounds g p t Ht ltac:(lra) Hg) as Hm.
  destruct (cross_entropy64_finite p t Ht01 Hpp) as [Hc Hcb].
  assert (HA : (-2 <= rnd (- weight64 a t * modulation64 g p t) <= 2)%R).
  { apply (rnd_within 1 2); [apply pow2_1|lia|nra]. }
  unfold loss64.
  apply mul64_finite; [apply mul64_finite| |].
  - apply neg64_finite. by apply weight64_finite.
  - apply modulation64_finite; [done|lra|done].
  - apply small_no_overflow. nra.
  - done.
  - apply small_no_overflow. nra.
Qed.

End LossCells.

(** ** Range, monotonicity and saturation *)

Section Claims64.
Local Open Scope R_scope.

(** Saturation of the sigmoid: at 40 and at 50 it is exactly 1, at -800
    exactly 0, and at -40 it is not [1 - sigmoid(40)], which is 0. *)
Lemma sigmoid_saturates :
  sigmoid64 (F64 40) = F64 1 ∧
  sigmoid64 (F64 50) = F64 1 ∧
  sigmoid64 (F64 (-800)) = F64 0 ∧
  sigmoid64 (F64 (-40)) ≠ sub64 (F64 1) (sigmoid64 (F64 40)).
Proof.
  split; [apply sigmoid64_one; lra|].
  split; [apply sigmoid64_one; lra|].
  split; [apply sigmoid64_zero; lra|].
  rewrite (sigmoid64_one 40) by lra. rewrite one_minus_one.
  destruct (sigmoid64_interior (-40)) as (p & Hp & Hlo & _); [lra|].
  rewrite Hp. intros [= ->]. pose proof (pow2_pos (-1022)). lra.
Qed.

(** C8. In binary64 the sigmoid [1/(1+exp(-x))] of a finite [x], as
    [sigmoid] and as the local [p] of the kernel compute it, is a number
    of the closed interval from 0 to 1, strictly between 0 and 1 for
    [x] from -700 to 36; it is weakly increasing in [x]; it is within
    [3 * 2^-53] of the exact value, and [sigmoid(-x)] within [2^-50] of
    [1 - sigmoid(x)]. The exact function lies strictly between 0 and 1
    for every [x], is strictly increasing and satisfies
    [sigmoid(-x) = 1 - sigmoid(x)]. *)
Theorem sigmoid_range_monotone :
  (∀ x : f64, (F64 1 / (F64 1 + exp64 (- x)))%f64 = sigmoid64 x) ∧
  (∀ x, ∃ p, sigmoid64 (F64 x) = F64 p ∧ 0 <= p <= 1) ∧
  (∀ x p, -700 <= x <= 36 → sigmoid64 (F64 x) = F64 p → 0 < p < 1) ∧
  (∀ x y p q, x <= y →
     sigmoid64 (F64 x) = F64 p → sigmoid64 (F64 y) = F64 q → p <= q) ∧
  (∀ x p, sigmoid64 (F64 x) = F64 p → Rabs (p - logistic x) <= 3 * pow2 (-53)) ∧
  (∀ x p q d, sigmoid64 (F64 x) = F64 p → sigmoid64 (F64 (- x)) = F64 q →
     finite64 (sub64 (F64 1) (F64 p)) = Some d → Rabs (q - d) <= pow2 (-50)) ∧
  (∀ x, 0 < logistic x < 1) ∧
  (∀ x y, x < y → logistic x < logistic y) ∧
  (∀ x, logistic (- x) = 1 - logistic x).
Proof.
  split; [done|].
  split; [apply sigmoid64_range|].
  split; [|split; [apply sigmoid64_mono|]].
  - intros x p Hx Hp.
    destruct (sigmoid64_interior x Hx) as (p' & Hp' & Hlo & Hhi).
    assert (p' = p) as -> by congruence.
    pose proof (pow2_pos (-1022)). pose proof (pow2_pos (-53)). lra.
  - split; [apply sigmoid64_accurate|].
    split; [apply sigmoid64_symmetry|].
    split; [apply logistic_bounds|].
    split; [apply logistic_increasing|apply logistic_opp].
Qed.

Lemma sigmoid_range_monotone_witness :
  ∃ p q, sigmoid64 (F64 0) = F64 p ∧ sigmoid64 (F64 1) = F64 q ∧
         0 < p < 1 ∧ p <= q ∧ Rabs (p - logistic 0) <= 3 * pow2 (-53).
Proof.
  destruct sigmoid_range_monotone as (_ & Hrange & Hin & Hmono & Hacc & _).
  destruct (Hrange 0) as (p & Hp & _). destruct (Hrange 1) as (q & Hq & _).
  exists p, q. split; [done|]. split; [done|]. split; [|split].
  - apply (Hin 0 p); [lra|done].
  - apply (Hmono 0 1 p q); [lra|done..].
  - by apply Hacc.
Defined.

(** Saturation of the loss: at score 40 against target 1, and at score
    -800 against target 0, the loss is nan, which compares with no
    other loss. *)
Lemma loss_nan_at_saturation :
  fl64 (1/4) 2 (F64 40) (F64 1) = NaN64 ∧
  ¬ le64 (fl64 (1/4) 2 (F64 40) (F64 1)) (fl64 (1/4) 2 (F64 0) (F64 1)) ∧
  fl64 (1/4) 2 (F64 (-800)) (F64 0) = NaN64 ∧
  ¬ le64 (fl64 (1/4) 2 (F64 (-800)) (F64 0)) (fl64 (1/4) 2 (F64 0) (F64 0)).
Proof.
  rewrite fl64_nan_high by lra. rewrite fl64_nan_low by lra.
  split; [done|]. split; [apply le64_nan_l|]. split; [done|apply le64_nan_l].
Qed.

(** C7. For [alpha] in [0, 1] and [gamma >= 0], and scores [x <= y]:
    in binary64, whenever the losses at [x] and at [y] are both finite,
    the loss at [y] is lower or equal with [t = 1] and higher or equal
    with [t = 0]; for scores from -700 to 36 they are finite. (At a
    saturated score they need not be: the loss at score 40 against
    target 1 is nan.) In exact arithmetic the same order holds for all
    [x <= y]. *)
Theorem loss_monotone_where_finite (a g x y : R) :
  0 <= a <= 1 → 0 <= g → x <= y →
  (∀ lx ly, finite64 (fl64 a g (F64 x) (F64 1)) = Some lx →
            finite64 (fl64 a g (F64 y) (F64 1)) = Some ly → ly <= lx) ∧
  (∀ lx ly, finite64 (fl64 a g (F64 x) (F64 0)) = Some lx →
            finite64 (fl64 a g (F64 y) (F64 0)) = Some ly → lx <= ly) ∧
  (-700 <= x → y <= 36 →
   ∃ l1x l1y l0x l0y,
     finite64 (fl64 a g (F64 x) (F64 1)) = Some l1x ∧
     finite64 (fl64 a g (F64 y) (F64 1)) = Some l1y ∧ l1y <= l1x ∧
     finite64 (fl64 a g (F64 x) (F64 0)) = Some l0x ∧
     finite64 (fl64 a g (F64 y) (F64 0)) = Some l0y ∧ l0x <= l0y) ∧
  loss_kernel a g y 1 <= loss_kernel a g x 1 ∧
  loss_kernel a g x 0 <= loss_kernel a g y 0.
Proof.
  intros Ha Hg Hxy.
  destruct (sigmoid64_range x) as (p & Hp & Hp01).
  destruct (sigmoid64_range y) as (q & Hq & Hq01).
  pose proof (sigmoid64_mono x y p q Hxy Hp Hq) as Hpq.
  assert (H1 : ∀ lx ly, finite64 (fl64 a g (F64 x) (F64 1)) = Some lx →
            finite64 (fl64 a g (F64 y) (F64 1)) = Some ly → ly <= lx).
  { intros lx ly Hx Hy.
    apply (fl64_value a g x p 1) in Hx as (-> & Hpp & _); auto.
    apply (fl64_value a g y q 1) in Hy as (-> & Hqq & _); auto.
    apply loss64_antitone_1; lra. }
  assert (H0 : ∀ lx ly, finite64 (fl64 a g (F64 x) (F64 0)) = Some lx →
            finite64 (fl64 a g (F64 y) (F64 0)) = Some ly → lx <= ly).
  { intros lx ly Hx Hy.
    apply (fl64_value a g x p 0) in Hx as (-> & Hpp & _); auto.
    apply (fl64_value a g y q 0) in Hy as (-> & Hqq & Hq1); auto.
    apply loss64_monotone_0; lra. }
  split; [done|]. split; [done|]. split.
  - intros Hx Hy.
    destruct (sigmoid64_interior x ltac:(lra)) as (p' & Hp' & Hpi).
    destruct (sigmoid64_interior y ltac:(lra)) as (q' & Hq' & Hqi).
    assert (p' = p) as -> by congruence. assert (q' = q) as -> by congruence.
    pose proof (fl64_finite a g x p 1 Ha Hg ltac:(auto) Hp Hpi) as Hx1.
    pose proof (fl64_finite a g y q 1 Ha Hg ltac:(auto) Hq Hqi) as Hy1.
    pose proof (fl64_finite a g x p 0 Ha Hg ltac:(auto) Hp Hpi) as Hx0.
    pose proof (fl64_finite a g y q 0 Ha Hg ltac:(auto) Hq Hqi) as Hy0.
    do 4 eexists. split; [exact Hx1|]. split; [exact Hy1|].
    split; [by apply H1|]. split; [exact Hx0|]. split; [exact Hy0|by apply H0].
  - split; [apply loss_kernel_1_antitone|apply loss_kernel_0_monotone]; lra.
Qed.

Lemma loss_monotone_where_finite_witness :
  ∃ l1x l1y l0x l0y,
    finite64 (fl64 (1/4) 2 (F64 0) (F64 1)) = Some l1x ∧
    finite64 (fl64 (1/4) 2 (F64 1) (F64 1)) = Some l1y ∧ l1y <= l1x ∧
    finite64 (fl64 (1/4) 2 (F64 0) (F64 0)) = Some l0x ∧
    finite64 (fl64 (1/4) 2 (F64 1) (F64 0)) = Some l0y ∧ l0x <= l0y.
Proof.
  apply (loss_monotone_where_finite (1/4) 2 0 1); lra.
Defined.

End Claims64.

(** * Further properties of the callbacks and of the demonstration cells *)

(** ** Rejected and accepted inputs *)

Lemma norm_index_None C l :
  index_in_range C l = false → norm_index C (astype_int l) = None.
Proof.
  unfold index_in_range, norm_index. intros H%bool_decide_eq_false.
  rewrite !bool_decide_eq_false_2 by lia. done.
Qed.

Lemma one_hot_None C label i l :
  label !! i = Some l → index_in_range C l = false → one_hot C label = None.
Proof.
  intros Hi Hl. unfold one_hot, take_rows. simpl.
  assert (mapM (norm_index C) (astype_int <$> label) = None) as ->; [|done].
  apply mapM_None, Exists_exists. exists (astype_int l). split.
  - apply list_elem_of_fmap. exists l. split; [done|].
    by eapply list_elem_of_lookup_2.
  - by apply norm_index_None.
Qed.

(** X1. A label whose truncation lies outside [-C, C) makes both callbacks
    raise (the [IndexError] of [np.eye(num_class)[...]]), whatever the
    scores are. *)
Theorem label_out_of_range_raises
    (y_pred : list R) (label : list Q) (a g : R) (C i : nat) (l : Q) :
  label !! i = Some l → index_in_range C l = false →
  focal_loss_lgb y_pred label a g C = None ∧
  focal_loss_lgb_eval_error y_pred label a g C = None.
Proof.
  intros Hi Hl. pose proof (one_hot_None C label i l Hi Hl) as E.
  unfold focal_loss_lgb, grad_hess, focal_loss_lgb_eval_error.
  rewrite E. done.
Qed.

Lemma label_out_of_range_raises_witness :
  focal_loss_lgb [0; 1; 2; 3; 4; 5]%R [1 # 1; 3 # 1]%Q (1/4) 2 3 = None ∧
  focal_loss_lgb_eval_error [0; 1; 2; 3; 4; 5]%R [1 # 1; 3 # 1]%Q (1/4) 2 3 = None.
Proof.
  apply (label_out_of_range_raises _ [1 # 1; 3 # 1]%Q _ _ 3 1 (3 # 1)%Q).
  - reflexivity.
  - reflexivity.
Defined.

Lemma astype_int_inject_Z z : astype_int (inject_Z z) = z.
Proof. unfold astype_int. simpl. apply Z.quot_1_r. Qed.

Lemma norm_index_wrap C l :
  index_in_range C l = true →
  norm_index C (astype_int l) = norm_index C (astype_int (wrap_label C l)) ∧
  valid_label C (wrap_label C l) = true.
Proof.
  unfold index_in_range, wrap_label, valid_label.
  intros H%bool_decide_eq_true. rewrite astype_int_inject_Z.
  assert (HC : (0 < Z.of_nat C)%Z) by lia.
  pose proof (Z.mod_pos_bound (astype_int l) (Z.of_nat C) HC) as Hm.
  split; [|by apply bool_decide_eq_true].
  unfold norm_index.
  destruct (decide (0 ≤ astype_int l)%Z) as [Hpos|Hneg].
  - by rewrite Z.mod_small by lia.
  - rewrite (bool_decide_eq_false_2 (0 ≤ astype_int l < _)%Z) by lia.
    rewrite (bool_decide_eq_true_2 (- _ ≤ astype_int l < 0)%Z) by lia.
    replace (astype_int l `mod` Z.of_nat C)%Z with (astype_int l + Z.of_nat C)%Z.
    + by rewrite bool_decide_eq_true_2 by lia.
    + apply Z.mod_unique with (-1)%Z; lia.
Qed.

Lemma one_hot_wrap C label :
  forallb (index_in_range C) label = true →
  one_hot C label = one_hot C (wrap_label C <$> label) ∧
  valid_labels C (wrap_label C <$> label) = true.
Proof.
  intros H. rewrite forallb_forall in H.
  assert (HF : Forall (λ l, index_in_range C l = true) label).
  { apply Forall_forall. intros l Hl. by apply H, list_elem_of_In. }
  clear H. split.
  - unfold one_hot, take_rows. rewrite !length_fmap.
    assert (mapM (norm_index (nrows (eye C))) (astype_int <$> label)
            = mapM (norm_index (nrows (eye C))) (astype_int <$> (wrap_label C <$> label)))
      as ->; [|done].
    simpl. apply Forall2_mapM_ext, Forall2_fmap, Forall2_fmap_r, Forall_Forall2_diag.
    eapply Forall_impl; [done|]. intros l Hl. simpl.
    by destruct (norm_index_wrap C l Hl) as [-> _].
  - unfold valid_labels. apply forallb_forall. intros l' Hl'.
    apply list_elem_of_In, list_elem_of_fmap in Hl' as (l & -> & Hl).
    rewrite Forall_forall in HF. by apply norm_index_wrap, HF.
Qed.

(** X2. Labels whose truncations lie in [-C, C) are all accepted: a
    negative or fractional label stands for the class
    [trunc(label) mod C], and both callbacks return exactly what they
    return on those wrapped labels. *)
Theorem negative_labels_wrap
    (y_pred : list R) (label : list Q) (a g : R) (C : nat) :
  forallb (index_in_range C) label = true →
  valid_labels C (wrap_label C <$> label) = true ∧
  one_hot C label = one_hot C (wrap_label C <$> label) ∧
  focal_loss_lgb y_pred label a g C
    = focal_loss_lgb y_pred (wrap_label C <$> label) a g C ∧
  focal_loss_lgb_eval_error y_pred label a g C
    = focal_loss_lgb_eval_error y_pred (wrap_label C <$> label) a g C.
Proof.
  intros H. destruct (one_hot_wrap C label H) as [E Hv].
  split; [done|]. split; [done|].
  unfold focal_loss_lgb, grad_hess, focal_loss_lgb_eval_error.
  by rewrite E.
Qed.

Lemma negative_labels_wrap_witness :
  valid_labels 3 (wrap_label 3 <$> [(-1) # 1; 5 # 2]%Q) = true ∧
  one_hot 3 [(-1) # 1; 5 # 2]%Q = one_hot 3 (wrap_label 3 <$> [(-1) # 1; 5 # 2]%Q) ∧
  focal_loss_lgb [0; 1; 2; 3; 4; 5]%R [(-1) # 1; 5 # 2]%Q (1/4) 2 3
    = focal_loss_lgb [0; 1; 2; 3; 4; 5]%R (wrap_label 3 <$> [(-1) # 1; 5 # 2]%Q) (1/4) 2 3 ∧
  focal_loss_lgb_eval_error [0; 1; 2; 3; 4; 5]%R [(-1) # 1; 5 # 2]%Q (1/4) 2 3
    = focal_loss_lgb_eval_error [0; 1; 2; 3; 4; 5]%R
        (wrap_label 3 <$> [(-1) # 1; 5 # 2]%Q) (1/4) 2 3.
Proof. apply negative_labels_wrap. reflexivity. Defined.

Lemma reshape_None {A} (flat : list A) C :
  C = 0 ∨ length flat `mod` C ≠ 0 → reshape flat C = None.
Proof.
  intros H. unfold reshape. case_bool_decide; [done|].
  rewrite bool_decide_eq_false_2; [done|]. by destruct H.
Qed.

(** X3. When [num_class] is 0 or the number of scores is no multiple of
    [num_class], both callbacks raise (the [ValueError] of
    [reshape(-1, num_class)]), whatever the labels are. *)
Theorem ragged_scores_raise
    (y_pred : list R) (label : list Q) (a g : R) (C : nat) :
  C = 0 ∨ length y_pred `mod` C ≠ 0 →
  focal_loss_lgb y_pred label a g C = None ∧
  focal_loss_lgb_eval_error y_pred label a g C = None.
Proof.
  intros H.
  unfold focal_loss_lgb, grad_hess, focal_loss_lgb_eval_error.
  destruct (one_hot C label) as [T|]; simpl; [|done].
  by rewrite !reshape_None by (by rewrite length_fmap).
Qed.

Lemma ragged_scores_raise_witness :
  focal_loss_lgb [0; 1; 2; 3]%R [1 # 1]%Q (1/4) 2 3 = None ∧
  focal_loss_lgb_eval_error [0; 1; 2; 3]%R [1 # 1]%Q (1/4) 2 3 = None.
Proof. apply ragged_scores_raise. right. simpl. lia. Defined.

(** ** Broadcasting between labels and scores *)

Section Broadcast.
Implicit Types (f g : nat → fval) (n m : nat).

Lemma bshape_1_l n : bshape 1 n = Some n.
Proof. unfold bshape. repeat case_bool_decide; by subst. Qed.

Lemma bshape_1_r n : bshape n 1 = Some n.
Proof. unfold bshape. repeat case_bool_decide; by subst. Qed.

Lemma bshape_None n m : n ≠ m → n ≠ 1 → m ≠ 1 → bshape n m = None.
Proof. intros. unfold bshape. by rewrite !bool_decide_eq_false_2. Qed.

(** A single row is repeated down the rows. *)
Lemma broadcast_to_row f n m :
  broadcast_to (tabulate 1 m f) n m = tabulate n m (λ k, f (k `mod` m)).
Proof.
  unfold broadcast_to.
  rewrite (bind_seq_rows (λ i c, default None (data (tabulate 1 m f) !!
    ((if bool_decide (nrows (tabulate 1 m f) = 1) then 0 else i) * ncols (tabulate 1 m f)
     + (if bool_decide (ncols (tabulate 1 m f) = 1) then 0 else c))))).
  transitivity (mk_ndarray n m ((λ k, f (k `mod` m)) <$> seq 0 (n * m))); [|done].
  f_equal. apply seq_fmap_ext. intros k Hk. simpl nrows. simpl ncols.
  rewrite bool_decide_eq_true_2 by done.
  assert (Hm : k `mod` m < m) by (apply Nat.mod_upper_bound; lia).
  assert (Hc : (if bool_decide (m = 1) then 0 else k `mod` m) = k `mod` m)
    by (destruct (bool_decide_reflect (m = 1)) as [->|]; [by rewrite Nat.mod_1_r|done]).
  rewrite Hc, lookup_tabulate by lia. done.
Qed.

Lemma np_op2_row_tabulate (h : fval → fval → fval) f g n m :
  np_op2 h (NpArray (tabulate 1 m f)) (NpArray (tabulate n m g))
  = NpArray (tabulate n m (λ k, h (f (k `mod` m)) (g k))).
Proof.
  unfold np_op2. simpl nrows. simpl ncols. rewrite bshape_1_l, bshape_refl.
  rewrite broadcast_to_row, broadcast_to_tabulate. unfold tabulate. simpl.
  by rewrite zip_with_fmap_l, zip_with_fmap_r, zip_with_diag.
Qed.

Lemma np_op2_tabulate_row (h : fval → fval → fval) f g n m :
  np_op2 h (NpArray (tabulate n m g)) (NpArray (tabulate 1 m f))
  = NpArray (tabulate n m (λ k, h (g k) (f (k `mod` m)))).
Proof.
  unfold np_op2. simpl nrows. simpl ncols. rewrite bshape_1_r, bshape_refl.
  rewrite broadcast_to_row, broadcast_to_tabulate. unfold tabulate. simpl.
  by rewrite zip_with_fmap_l, zip_with_fmap_r, zip_with_diag.
Qed.

End Broadcast.

Ltac np_broadcast :=
  unfold np_add, np_sub, np_mul, np_div, np_pow, np_neg, np_exp, np_log, sc;
  repeat first
    [ rewrite np_op1_tabulate | rewrite np_op2_tabulate
    | rewrite np_op2_row_tabulate | rewrite np_op2_tabulate_row
    | rewrite np_op2_scalar_tabulate | rewrite np_op2_tabulate_scalar
    | rewrite np_op2_scalar | rewrite np_op1_scalar ].

(** One row of targets against [n] rows of scores. *)
Lemma fl_row_targets a g (x t : nat → fval) n m :
  fl a g (NpArray (tabulate n m x)) (NpArray (tabulate 1 m t))
  = NpArray (tabulate n m (λ k, fl_cell a g (x k) (t (k `mod` m)))).
Proof. unfold fl. np_broadcast. reflexivity. Qed.

(** One row of scores against [n] rows of targets. *)
Lemma fl_row_scores a g (x t : nat → fval) n m :
  fl a g (NpArray (tabulate 1 m x)) (NpArray (tabulate n m t))
  = NpArray (tabulate n m (λ k, fl_cell a g (x (k `mod` m)) (t k))).
Proof. unfold fl. np_broadcast. reflexivity. Qed.

Ltac np_broadcast_cells :=
  unfold np_add, np_sub, np_mul, np_div, np_pow, np_neg, np_exp, np_log, sc;
  repeat first
    [ rewrite fl_tabulate | rewrite fl_row_targets | rewrite fl_row_scores
    | rewrite np_op1_tabulate | rewrite np_op2_tabulate
    | rewrite np_op2_scalar_tabulate | rewrite np_op2_tabulate_scalar
    | rewrite np_op2_scalar | rewrite np_op1_scalar ].

Lemma derivative_row_targets a g (x t : nat → fval) n m ord dx :
  ord < 3 →
  derivative (λ X, fl a g X (NpArray (tabulate 1 m t))) (NpArray (tabulate n m x)) ord dx
  = NpArray (tabulate n m (λ k,
      scalar_of (derivative (λ X, fl a g X (NpScalar (t (k `mod` m))))
                            (NpScalar (x k)) ord dx))).
Proof.
  intros Hord.
  destruct ord as [|[|[|ord]]]; [| | |lia];
    cbv beta iota zeta delta [derivative central_weights foldl zip_with seq];
    np_broadcast_cells; reflexivity.
Qed.

Lemma derivative_row_scores a g (x t : nat → fval) n m ord dx :
  ord < 3 →
  derivative (λ X, fl a g X (NpArray (tabulate n m t))) (NpArray (tabulate 1 m x)) ord dx
  = NpArray (tabulate n m (λ k,
      scalar_of (derivative (λ X, fl a g X (NpScalar (t k)))
                            (NpScalar (x (k `mod` m))) ord dx))).
Proof.
  intros Hord.
  destruct ord as [|[|[|ord]]]; [| | |lia];
    cbv beta iota zeta delta [derivative central_weights foldl zip_with seq];
    np_broadcast_cells; reflexivity.
Qed.

Lemma np_op2_error_r (h : fval → fval → fval) (u : npval) :
  np_op2 h u NpError = NpError.
Proof. by destruct u. Qed.

Lemma np_add_array_scalar (a : ndarray fval) (r : R) :
  np_add (NpArray a) (sc r) = NpArray (amap (λ x, Cell.add x (Some r)) a).
Proof. done. Qed.

Lemma fl_shape_error a g (X T : ndarray fval) :
  bshape (nrows T) (nrows X) = None → fl a g (NpArray X) (NpArray T) = NpError.
Proof.
  intros H. unfold fl, np_add, np_sub, np_mul, np_div, np_pow, np_neg, np_exp, np_log, sc.
  simpl. rewrite H. apply np_op2_error_r.
Qed.

Lemma derivative_shape_error a g (X T : ndarray fval) ord dx :
  bshape (nrows T) (nrows X) = None →
  derivative (λ x, fl a g x (NpArray T)) (NpArray X) ord dx = NpError.
Proof.
  intros H.
  destruct ord as [|[|[|ord]]]; [| | |done];
    cbv beta iota zeta delta [derivative central_weights foldl zip_with seq];
    rewrite !np_add_array_scalar, !fl_shape_error by exact H; done.
Qed.

Lemma grad_hess_single_label y_pred l a g M C :
  0 < C → valid_label C l = true → length y_pred = M * C →
  grad_hess y_pred [l] a g C
  = Some (NpArray (tabulate M C (λ k, Some
            (central_diff1 (λ u, loss_kernel a g u (indicator l (k `mod` C)))
                           (score y_pred k) 1e-6))),
          NpArray (tabulate M C (λ k, Some
            (central_diff2 (λ u, loss_kernel a g u (indicator l (k `mod` C)))
                           (score y_pred k) 1e-6)))).
Proof.
  intros HC Hl Hlen. unfold grad_hess.
  rewrite one_hot_tabulate by (unfold valid_labels; simpl; by rewrite Hl). simpl.
  rewrite (reshape_tabulate _ None M C) by (by rewrite ?length_fmap). simpl.
  rewrite !derivative_row_targets by lia.
  do 2 f_equal; f_equal; apply tabulate_ext; intros k Hk;
    rewrite score_lookup by lia;
    rewrite Nat.div_small, Nat.Div0.mod_mod by (apply Nat.mod_upper_bound; lia);
    change (default 0%Q ([l] !! 0)) with l;
    fold (sc (score y_pred k)); fold (sc (indicator l (k `mod` C))).
  - by rewrite derivative1_scalar by (apply indicator_cases || apply step_nonzero).
  - by rewrite derivative2_scalar by (apply indicator_cases || apply step_nonzero).
Qed.

Lemma grad_hess_single_row y_pred label a g N C :
  0 < C → length label = N → length y_pred = C →
  valid_labels C label = true →
  grad_hess y_pred label a g C
  = Some (NpArray (tabulate N C (λ k, Some
            (central_diff1 (λ u, loss_kernel a g u (target C label k))
                           (score y_pred (k `mod` C)) 1e-6))),
          NpArray (tabulate N C (λ k, Some
            (central_diff2 (λ u, loss_kernel a g u (target C label k))
                           (score y_pred (k `mod` C)) 1e-6)))).
Proof.
  intros HC HN Hlen Hv. unfold grad_hess.
  rewrite one_hot_tabulate by done. simpl.
  rewrite (reshape_tabulate _ None 1 C) by (rewrite ?length_fmap; lia). simpl.
  rewrite HN, !derivative_row_scores by lia.
  do 2 f_equal; f_equal; apply tabulate_ext; intros k Hk;
    (rewrite score_lookup by (rewrite Hlen; apply Nat.mod_upper_bound; lia));
    fold (target C label k);
    fold (sc (score y_pred (k `mod` C))); fold (sc (target C label k)).
  - by rewrite derivative1_scalar by (apply target_cases || apply step_nonzero).
  - by rewrite derivative2_scalar by (apply target_cases || apply step_nonzero).
Qed.

(** X4. With a single label and M rows of scores nothing is rejected: the
    one-hot row is broadcast, and [focal_loss_lgb] returns M*C gradients
    and Hessians, every row differentiated against that one label. *)
Theorem single_label_is_broadcast
    (y_pred : list R) (l : Q) (a g : R) (M C : nat) :
  0 < C → valid_label C l = true → length y_pred = M * C →
  ∃ grad hess,
    focal_loss_lgb y_pred [l] a g C = Some (grad, hess) ∧
    length grad = M * C ∧ length hess = M * C ∧
    ∀ i c, i < M → c < C →
      ∃ x, y_pred !! (i * C + c) = Some x ∧
        let f := λ u, loss_kernel a g u (indicator l c) in
        grad !! (c * M + i) = Some (Some (central_diff1 f x 1e-6)) ∧
        hess !! (c * M + i) = Some (Some (central_diff2 f x 1e-6)).
Proof.
  intros HC Hl Hlen. do 2 eexists.
  split.
  { unfold focal_loss_lgb. by rewrite (grad_hess_single_label _ _ _ _ M C). }
  rewrite !length_flatten_F. split; [done|]. split; [done|].
  intros i c Hi Hc.
  destruct (lookup_lt_is_Some_2 y_pred (i * C + c)) as [x Hx]; [nia|].
  exists x. split; [done|].
  rewrite !lookup_flatten_F by done.
  unfold score. destruct (divmod_offset i c C Hc) as [_ ->].
  by rewrite Hx.
Qed.

Lemma single_label_is_broadcast_witness :
  ∃ grad hess,
    focal_loss_lgb [0; 1; 2; 3; 4; 5]%R [2 # 1]%Q (1/4) 2 3 = Some (grad, hess) ∧
    length grad = 2 * 3 ∧ length hess = 2 * 3 ∧
    ∀ i c, i < 2 → c < 3 →
      ∃ x, [0; 1; 2; 3; 4; 5]%R !! (i * 3 + c) = Some x ∧
        let f := λ u, loss_kernel (1/4) 2 u (indicator (2 # 1)%Q c) in
        grad !! (c * 2 + i) = Some (Some (central_diff1 f x 1e-6)) ∧
        hess !! (c * 2 + i) = Some (Some (central_diff2 f x 1e-6)).
Proof.
  apply (single_label_is_broadcast [0; 1; 2; 3; 4; 5]%R (2 # 1)%Q (1/4) 2 2 3).
  - lia.
  - reflexivity.
  - reflexivity.
Defined.

(** X5. With a single row of C scores and N labels nothing is rejected:
    the row of scores is broadcast, and [focal_loss_lgb] returns N*C
    gradients and Hessians, more than it was given scores, the scores of
    the one row differentiated against each label in turn. *)
Theorem single_score_row_is_broadcast
    (y_pred : list R) (label : list Q) (a g : R) (N C : nat) :
  0 < C → length label = N → length y_pred = C →
  valid_labels C label = true →
  ∃ grad hess,
    focal_loss_lgb y_pred label a g C = Some (grad, hess) ∧
    length grad = N * C ∧ length hess = N * C ∧
    ∀ i c, i < N → c < C →
      ∃ x l, y_pred !! c = Some x ∧ label !! i = Some l ∧
        let f := λ u, loss_kernel a g u (indicator l c) in
        grad !! (c * N + i) = Some (Some (central_diff1 f x 1e-6)) ∧
        hess !! (c * N + i) = Some (Some (central_diff2 f x 1e-6)).
Proof.
  intros HC HN Hlen Hv. do 2 eexists.
  split.
  { unfold focal_loss_lgb. by rewrite (grad_hess_single_row _ _ _ _ N C). }
  rewrite !length_flatten_F. split; [done|]. split; [done|].
  intros i c Hi Hc.
  destruct (lookup_lt_is_Some_2 y_pred c) as [x Hx]; [lia|].
  destruct (lookup_lt_is_Some_2 label i) as [l Hl]; [lia|].
  exists x, l. split; [done|]. split; [done|].
  rewrite !lookup_flatten_F by done.
  unfold score, target. destruct (divmod_offset i c C Hc) as [-> ->].
  by rewrite Hx, Hl.
Qed.

Lemma single_score_row_is_broadcast_witness :
  ∃ grad hess,
    focal_loss_lgb [0; 1; 2]%R [2 # 1; 0 # 1]%Q (1/4) 2 3 = Some (grad, hess) ∧
    length grad = 2 * 3 ∧ length hess = 2 * 3 ∧
    ∀ i c, i < 2 → c < 3 →
      ∃ x l, [0; 1; 2]%R !! c = Some x ∧ [2 # 1; 0 # 1]%Q !! i = Some l ∧
        let f := λ u, loss_kernel (1/4) 2 u (indicator l c) in
        grad !! (c * 2 + i) = Some (Some (central_diff1 f x 1e-6)) ∧
        hess !! (c * 2 + i) = Some (Some (central_diff2 f x 1e-6)).
Proof.
  apply (single_score_row_is_broadcast [0; 1; 2]%R [2 # 1; 0 # 1]%Q (1/4) 2 2 3).
  - lia.
  - reflexivity.
  - reflexivity.
  - reflexivity.
Defined.

Lemma bind_Some {A B} (x : A) (f : A → option B) : Some x ≫= f = f x.
Proof. done. Qed.

Lemma callbacks_shape_error y_pred label a g C (T X : ndarray fval) :
  one_hot C label = Some T → reshape (Some <$> y_pred) C = Some X →
  bshape (nrows T) (nrows X) = None →
  focal_loss_lgb y_pred label a g C = None ∧
  focal_loss_lgb_eval_error y_pred label a g C = None.
Proof.
  intros HT HX Hb.
  unfold focal_loss_lgb, grad_hess, focal_loss_lgb_eval_error.
  assert (HX1 : @reshape fval (Some <$> y_pred) C = Some X) by exact HX.
  assert (HX2 : @reshape (option R) (Some <$> y_pred) C = Some X) by exact HX.
  rewrite HT, ?HX1, ?HX2, !bind_Some. cbv beta zeta.
  rewrite !derivative_shape_error by exact Hb.
  change eval_loss with fl. rewrite fl_shape_error by exact Hb. done.
Qed.

(** X6. With N valid labels and M rows of scores, N and M different and
    neither of them 1, both callbacks raise (the broadcasting
    [ValueError] inside the loss expression). *)
Theorem row_count_mismatch_raises
    (y_pred : list R) (label : list Q) (a g : R) (N M C : nat) :
  0 < C → length label = N → length y_pred = M * C →
  valid_labels C label = true →
  N ≠ M → N ≠ 1 → M ≠ 1 →
  focal_loss_lgb y_pred label a g C = None ∧
  focal_loss_lgb_eval_error y_pred label a g C = None.
Proof.
  intros HC HN Hlen Hv HNM HN1 HM1.
  eapply callbacks_shape_error.
  - by apply one_hot_tabulate.
  - apply (reshape_tabulate _ None M C); [done|by rewrite length_fmap].
  - simpl. rewrite HN. by apply bshape_None.
Qed.

Lemma row_count_mismatch_raises_witness :
  focal_loss_lgb [0; 1; 2; 3; 4; 5]%R [2 # 1; 0 # 1; 1 # 1]%Q (1/4) 2 3 = None ∧
  focal_loss_lgb_eval_error [0; 1; 2; 3; 4; 5]%R [2 # 1; 0 # 1; 1 # 1]%Q (1/4) 2 3 = None.
Proof.
  apply (row_count_mismatch_raises _ _ _ _ 3 2 3).
  - lia.
  - reflexivity.
  - reflexivity.
  - reflexivity.
  - lia.
  - lia.
  - lia.
Defined.

(** ** The inputs the callbacks accept *)

Lemma forallb_false_lookup {A} (f : A → bool) (l : list A) :
  forallb f l = false → ∃ i x, l !! i = Some x ∧ f x = false.
Proof.
  induction l as [|x l IH]; [done|]. simpl.
  destruct (f x) eqn:E; simpl.
  - intros (i & y & Hi & Hy)%IH. by exists (S i), y.
  - intros _. by exists 0, x.
Qed.

Lemma one_hot_accepted C label :
  forallb (index_in_range C) label = true →
  ∃ t, one_hot C label = Some (tabulate (length label) C t).
Proof.
  intros H. destruct (one_hot_wrap C label H) as [-> Hv].
  rewrite one_hot_tabulate by done. rewrite length_fmap. by eexists.
Qed.

Lemma callbacks_defined y_pred label a g C N M (t x : nat → fval) :
  one_hot C label = Some (tabulate N C t) →
  reshape (Some <$> y_pred) C = Some (tabulate M C x) →
  N = M ∨ N = 1 ∨ M = 1 →
  is_Some (focal_loss_lgb y_pred label a g C) ∧
  is_Some (focal_loss_lgb_eval_error y_pred label a g C).
Proof.
  intros HT HX Hshape.
  assert (HX1 : @reshape fval (Some <$> y_pred) C = Some (tabulate M C x)) by exact HX.
  assert (HX2 : @reshape (option R) (Some <$> y_pred) C = Some (tabulate M C x)) by exact HX.
  unfold focal_loss_lgb, grad_hess, focal_loss_lgb_eval_error.
  rewrite HT, ?HX1, ?HX2, !bind_Some. cbv beta zeta. change eval_loss with fl.
  destruct Hshape as [-> | [-> | ->]].
  - rewrite !derivative_tabulate, fl_tabulate by lia. by split.
  - rewrite !derivative_row_targets, fl_row_targets by lia. by split.
  - rewrite !derivative_row_scores, fl_row_scores by lia. by split.
Qed.

Lemma bshape_Some n m : is_Some (bshape n m) ↔ n = m ∨ n = 1 ∨ m = 1.
Proof.
  split.
  - intros Hs. unfold bshape in Hs.
    destruct (decide (n = m)); [by left|].
    destruct (decide (n = 1)); [by right; left|].
    destruct (decide (m = 1)); [by right; right|].
    rewrite !bool_decide_eq_false_2 in Hs by done. by destruct Hs.
  - intros [-> | [-> | ->]].
    + by rewrite bshape_refl.
    + by rewrite bshape_1_l.
    + by rewrite bshape_1_r.
Qed.

(** X7. [focal_loss_lgb] and [focal_loss_lgb_eval_error] return on exactly
    the same inputs, whatever [alpha] and [gamma]: those where every label
    truncates into [-C, C), the scores split into rows of [C > 0], and
    the two row counts are equal or one of them is 1. *)
Theorem callbacks_accept_same_inputs
    (y_pred : list R) (label : list Q) (a g : R) (C : nat) :
  (is_Some (focal_loss_lgb y_pred label a g C) ↔ acceptable C label y_pred = true) ∧
  (is_Some (focal_loss_lgb_eval_error y_pred label a g C)
   ↔ acceptable C label y_pred = true).
Proof.
  unfold acceptable.
  destruct (forallb (index_in_range C) label) eqn:Hidx; simpl.
  2: { destruct (forallb_false_lookup _ _ Hidx) as (i & l & Hi & Hl).
       pose proof (one_hot_None C label i l Hi Hl) as E.
       unfold focal_loss_lgb, grad_hess, focal_loss_lgb_eval_error. rewrite E.
       split; split; (intros [? ?] || intros ?); done. }
  case_bool_decide as Hsplit; simpl.
  2: { assert (Hrag : C = 0 ∨ length y_pred `mod` C ≠ 0).
       { destruct (decide (C = 0)); [by left|right]. intros ?. apply Hsplit. lia. }
       unfold focal_loss_lgb, grad_hess, focal_loss_lgb_eval_error.
       destruct (one_hot C label) as [T|]; simpl;
         rewrite ?reshape_None by (by rewrite length_fmap);
         split; split; (intros [? ?] || intros ?); done. }
  destruct Hsplit as [HC Hmod].
  set (M := length y_pred `div` C).
  assert (Hlen : length y_pred = M * C).
  { unfold M. rewrite (Nat.div_mod_eq (length y_pred) C) at 1. lia. }
  destruct (one_hot_accepted C label Hidx) as [t HT].
  pose proof (@reshape_tabulate fval (Some <$> y_pred) None M C HC) as HX.
  rewrite length_fmap in HX. specialize (HX Hlen).
  case_bool_decide as Hb.
  - apply bshape_Some in Hb.
    destruct (callbacks_defined y_pred label a g C _ _ _ _ HT HX Hb) as [H1 H2].
    by split.
  - assert (bshape (length label) M = None) as Hnone.
    { destruct (bshape (length label) M) eqn:E; [|done]. by destruct Hb. }
    destruct (callbacks_shape_error y_pred label a g C _ _ HT HX Hnone) as [-> ->].
    split; split; (intros [? ?] || intros ?); done.
Qed.

Lemma callbacks_accept_same_inputs_witness :
  is_Some (focal_loss_lgb [0; 1; 2; 3; 4; 5]%R [2 # 1; (-1) # 1]%Q (1/4) 2 3) ∧
  is_Some (focal_loss_lgb_eval_error [0; 1; 2; 3; 4; 5]%R [2 # 1; (-1) # 1]%Q (1/4) 2 3).
Proof.
  split.
  - apply (proj1 (callbacks_accept_same_inputs _ _ _ _ _)). reflexivity.
  - apply (proj2 (callbacks_accept_same_inputs _ _ _ _ _)). reflexivity.
Defined.

(** ** Order of the outputs *)

(** X8. With a single observation or a single class the class-major
    output has the order of the input: element [k] of the gradient and
    of the Hessian belongs to score [k]. *)
Theorem single_axis_keeps_order
    (y_pred : list R) (label : list Q) (a g : R) (N C : nat) :
  0 < C → length label = N → length y_pred = N * C →
  valid_labels C label = true →
  N = 1 ∨ C = 1 →
  ∃ grad hess,
    focal_loss_lgb y_pred label a g C = Some (grad, hess) ∧
    ∀ k x, y_pred !! k = Some x →
      ∃ l, label !! (k `div` C) = Some l ∧
        let f := λ u, loss_kernel a g u (indicator l (k `mod` C)) in
        grad !! k = Some (Some (central_diff1 f x 1e-6)) ∧
        hess !! k = Some (Some (central_diff2 f x 1e-6)).
Proof.
  intros HC HN Hlen Hv H1. do 2 eexists.
  split; [by apply (focal_loss_lgb_valid _ _ _ _ N C)|].
  intros k x Hx.
  assert (Hk : k < N * C) by (rewrite <- Hlen; by eapply lookup_lt_Some).
  assert (Hd : k `div` C < N) by (apply Nat.Div0.div_lt_upper_bound; lia).
  assert (Hm : k `mod` C < C) by (apply Nat.mod_upper_bound; lia).
  assert (Ek : k `div` C * C + k `mod` C = k)
    by (rewrite (Nat.div_mod_eq k C) at 3; lia).
  assert (Eo : k `mod` C * N + k `div` C = k).
  { destruct H1 as [-> | ->].
    - rewrite Nat.div_small, Nat.mod_small by lia. lia.
    - rewrite Nat.mod_1_r, Nat.div_1_r. lia. }
  destruct (lookup_lt_is_Some_2 label (k `div` C)) as [l Hl]; [lia|].
  exists l. split; [done|].
  assert (Hfl : ∀ f : nat → fval, flatten_F (tabulate N C f) !! k = Some (f k)).
  { intros f. rewrite <- Eo at 1. rewrite lookup_flatten_F by done. by rewrite Ek. }
  rewrite !Hfl. unfold score, target. by rewrite Hx, Hl.
Qed.

Lemma single_axis_keeps_order_witness :
  ∃ grad hess,
    focal_loss_lgb [0; 1; 2]%R [2 # 1]%Q (1/4) 2 3 = Some (grad, hess) ∧
    ∀ k x, [0; 1; 2]%R !! k = Some x →
      ∃ l, [2 # 1]%Q !! (k `div` 3) = Some l ∧
        let f := λ u, loss_kernel (1/4) 2 u (indicator l (k `mod` 3)) in
        grad !! k = Some (Some (central_diff1 f x 1e-6)) ∧
        hess !! k = Some (Some (central_diff2 f x 1e-6)).
Proof.
  apply (single_axis_keeps_order [0; 1; 2]%R [2 # 1]%Q (1/4) 2 1 3).
  - lia.
  - reflexivity.
  - reflexivity.
  - reflexivity.
  - left. reflexivity.
Defined.

(** Reading a column-major flattening back as C rows of N and flattening
    it column-major again restores the row-major buffer. *)
Lemma flatten_F_twice {A} (f : nat → A) N C :
  0 < N → 0 < C →
  ∃ Y, reshape (flatten_F (tabulate N C f)) N = Some Y ∧
       nrows Y = C ∧ ncols Y = N ∧
       flatten_F Y = f <$> seq 0 (N * C).
Proof.
  intros HN HC. eexists. split; [|split; [|split]].
  - apply (reshape_tabulate _ (f 0) C N); [done|].
    rewrite length_flatten_F. lia.
  - done.
  - done.
  - rewrite flatten_F_tabulate. apply seq_fmap_ext. intros k Hk.
    assert (Hd : k `div` C < N) by (apply Nat.Div0.div_lt_upper_bound; lia).
    assert (Hm : k `mod` C < C) by (apply Nat.mod_upper_bound; lia).
    rewrite lookup_flatten_F by done. simpl. f_equal.
    rewrite (Nat.div_mod_eq k C) at 3. lia.
Qed.

(** X9. Reading a returned gradient (or Hessian) back as C rows of N
    ([reshape(-1, N)]) and flattening it column-major again restores the
    order of the scores: element [k] then belongs to score [k]. *)
Theorem transposing_back_restores_order
    (y_pred : list R) (label : list Q) (a g : R) (N C : nat) :
  0 < N → 0 < C → length label = N → length y_pred = N * C →
  valid_labels C label = true →
  ∃ grad hess G H,
    focal_loss_lgb y_pred label a g C = Some (grad, hess) ∧
    reshape grad N = Some G ∧ reshape hess N = Some H ∧
    nrows G = C ∧ ncols G = N ∧ nrows H = C ∧ ncols H = N ∧
    ∀ k x, y_pred !! k = Some x →
      ∃ l, label !! (k `div` C) = Some l ∧
        let f := λ u, loss_kernel a g u (indicator l (k `mod` C)) in
        flatten_F G !! k = Some (Some (central_diff1 f x 1e-6)) ∧
        flatten_F H !! k = Some (Some (central_diff2 f x 1e-6)).
Proof.
  intros HN0 HC HN Hlen Hv.
  pose proof (focal_loss_lgb_valid y_pred label a g N C HC HN Hlen Hv) as Hf.
  destruct (@flatten_F_twice fval (λ k, Some
      (central_diff1 (λ u, loss_kernel a g u (target C label k))
                     (score y_pred k) 1e-6)) N C HN0 HC) as (G & HG & HG1 & HG2 & HGf).
  destruct (@flatten_F_twice fval (λ k, Some
      (central_diff2 (λ u, loss_kernel a g u (target C label k))
                     (score y_pred k) 1e-6)) N C HN0 HC) as (H & HH & HH1 & HH2 & HHf).
  eexists _, _, G, H. split; [exact Hf|].
  split; [exact HG|]. split; [exact HH|].
  do 4 (split; [done|]).
  intros k x Hx.
  assert (Hk : k < N * C) by (rewrite <- Hlen; by eapply lookup_lt_Some).
  assert (Hd : k `div` C < N) by (apply Nat.Div0.div_lt_upper_bound; lia).
  destruct (lookup_lt_is_Some_2 label (k `div` C)) as [l Hl]; [lia|].
  exists l. split; [done|].
  rewrite HGf, HHf, !list_lookup_fmap, lookup_seq_lt by done. simpl.
  unfold score, target. by rewrite Hx, Hl.
Qed.

Lemma transposing_back_restores_order_witness :
  ∃ grad hess G H,
    focal_loss_lgb [0; 1; 2; 3; 4; 5]%R [2 # 1; 0 # 1]%Q (1/4) 2 3 = Some (grad, hess) ∧
    reshape grad 2 = Some G ∧ reshape hess 2 = Some H ∧
    nrows G = 3 ∧ ncols G = 2 ∧ nrows H = 3 ∧ ncols H = 2 ∧
    ∀ k x, [0; 1; 2; 3; 4; 5]%R !! k = Some x →
      ∃ l, [2 # 1; 0 # 1]%Q !! (k `div` 3) = Some l ∧
        let f := λ u, loss_kernel (1/4) 2 u (indicator l (k `mod` 3)) in
        flatten_F G !! k = Some (Some (central_diff1 f x 1e-6)) ∧
        flatten_F H !! k = Some (Some (central_diff2 f x 1e-6)).
Proof.
  apply (transposing_back_restores_order
           [0; 1; 2; 3; 4; 5]%R [2 # 1; 0 # 1]%Q (1/4) 2 2 3).
  - lia.
  - lia.
  - reflexivity.
  - reflexivity.
  - reflexivity.
Defined.

(** ** The demonstration cells *)

Section BCE.
Local Open Scope R_scope.

Lemma bce_cell x t :
  Cell.neg
    (Cell.add
       (Cell.mul (Some t)
          (Cell.log (Cell.div (Some 1) (Cell.add (Some 1) (Cell.exp (Cell.neg (Some x)))))))
       (Cell.mul (Cell.sub (Some 1) (Some t))
          (Cell.log
             (Cell.sub (Some 1)
                (Cell.div (Some 1) (Cell.add (Some 1) (Cell.exp (Cell.neg (Some x)))))))))
  = Some (bce_with_logits x t).
Proof.
  rewrite cell_logistic. pose proof (logistic_bounds x). simpl.
  rewrite !log_real_pos by lra. done.
Qed.

Lemma loss_kernel_half a_half x t :
  a_half = 1 / 2 → loss_kernel a_half 0 x t = bce_with_logits x t / 2.
Proof.
  intros ->. unfold loss_kernel, weight, modulation, cross_entropy, bce_with_logits.
  simpl. unfold Rpower. rewrite Rmult_0_l, exp_0. lra.
Qed.

Lemma sum_scale (f : nat → R) (c : R) (l : list nat) :
  foldr Rplus 0 ((λ k, f k / c) <$> l) = foldr Rplus 0 (f <$> l) / c.
Proof. induction l as [|k l IH]; csimpl; [lra|]. rewrite IH. lra. Qed.

End BCE.

Lemma BCEWithLogitsLoss_tabulate (x t : nat → R) n m :
  0 < n * m →
  BCEWithLogitsLoss (NpArray (tabulate n m (λ k, Some (t k))))
                    (NpArray (tabulate n m (λ k, Some (x k))))
  = Some (Some (mean ((λ k, bce_with_logits (x k) (t k)) <$> seq 0 (n * m)))).
Proof.
  intros Hnm. unfold BCEWithLogitsLoss, sigmoid. np_pointwise.
  rewrite <- (np_mean_tabulate (λ k, bce_with_logits (x k) (t k))) by done.
  do 2 f_equal. apply tabulate_ext. intros k _. apply bce_cell.
Qed.

(** X13. With [alpha = 0.5] and [gamma = 0] the evaluation metric is half
    of what the cell [BCEWithLogitsLoss] of the notebook computes on the
    same one-hot labels and reshaped scores. *)
Theorem eval_error_is_half_bce
    (y_pred : list R) (label : list Q) (N C : nat) :
  0 < N → 0 < C → length label = N → length y_pred = N * C →
  valid_labels C label = true →
  ∃ (y_true_oh y_pred2 : ndarray fval) (b : R),
    one_hot C label = Some y_true_oh ∧
    reshape (Some <$> y_pred) C = Some y_pred2 ∧
    BCEWithLogitsLoss (NpArray y_true_oh) (NpArray y_pred2) = Some (Some b) ∧
    focal_loss_lgb_eval_error y_pred label 0.5 0 C
    = Some ("focal_loss"%string, Some (b / 2)%R, false).
Proof.
  intros HN HC Hl Hlen Hv.
  destruct (eval_loss_valid y_pred label 0.5 0 N C) as (T & X & HT & HX & Hloss);
    [done..|].
  exists T, X. eexists. split; [done|]. split; [done|].
  assert (HT' := HT). assert (HX' := HX).
  rewrite one_hot_tabulate in HT' by done.
  rewrite (@reshape_tabulate fval _ None N C) in HX' by (by rewrite ?length_fmap).
  injection HT' as <-. injection HX' as <-. rewrite Hl.
  assert (HNC : 0 < N * C) by (apply Nat.mul_pos_pos; lia).
  split.
  - rewrite <- (BCEWithLogitsLoss_tabulate (score y_pred) (target C label)) by done.
    do 2 f_equal. apply tabulate_ext. intros k Hk. by rewrite score_lookup by lia.
  - unfold focal_loss_lgb_eval_error. rewrite HT, HX. simpl. rewrite Hloss.
    rewrite np_mean_tabulate by done. simpl. do 4 f_equal.
    unfold mean. rewrite !length_fmap, length_seq.
    rewrite (seq_fmap_ext _
               (λ k, bce_with_logits (score y_pred k) (target C label k) / 2)%R)
      by (intros; apply loss_kernel_half; lra).
    rewrite (sum_scale (λ k, bce_with_logits (score y_pred k) (target C label k)) 2).
    field. apply not_0_INR. lia.
Qed.

Lemma eval_error_is_half_bce_witness :
  ∃ (y_true_oh y_pred2 : ndarray fval) (b : R),
    one_hot 3 [2 # 1; 0 # 1]%Q = Some y_true_oh ∧
    reshape (Some <$> [0; 1; 2; 3; 4; 5]%R) 3 = Some y_pred2 ∧
    BCEWithLogitsLoss (NpArray y_true_oh) (NpArray y_pred2) = Some (Some b) ∧
    focal_loss_lgb_eval_error [0; 1; 2; 3; 4; 5]%R [2 # 1; 0 # 1]%Q 0.5 0 3
    = Some ("focal_loss"%string, Some (b / 2)%R, false).
Proof.
  apply (eval_error_is_half_bce [0; 1; 2; 3; 4; 5]%R [2 # 1; 0 # 1]%Q 2 3).
  - lia.
  - lia.
  - reflexivity.
  - reflexivity.
  - reflexivity.
Defined.


Lemma take_rows_eye_one_hot C (idx : list Z) :
  take_rows (eye C) idx = one_hot C (inject_Z <$> idx).
Proof.
  unfold one_hot. f_equal. rewrite <- list_fmap_compose.
  rewrite <- (list_fmap_id idx) at 1. apply list_fmap_ext.
  intros i z _. simpl. by rewrite astype_int_inject_Z.
Qed.

Lemma y_true_oh_single_row (y_true : ndarray Z) :
  nrows y_true = 1 → wf_ndarray y_true →
  y_true_oh y_true = one_hot 10 (inject_Z <$> data y_true).
Proof.
  intros Hr Hwf. unfold y_true_oh, take_rows_2d. rewrite Hr. simpl.
  assert (row y_true 0 = data y_true) as ->.
  { unfold row. simpl. apply take_ge. unfold wf_ndarray in Hwf. lia. }
  rewrite take_rows_eye_one_hot. by destruct (one_hot _ _).
Qed.

(** X14. The labels of the first demonstration are drawn from [0, 11) but
    expanded with [np.eye(10)]: the cell raises as soon as one drawn
    label is 10, and otherwise yields one one-hot row of length 10 per
    label. *)
Theorem y_true_oh_rejects_label_10 (y_true : ndarray Z) :
  nrows y_true = 1 → wf_ndarray y_true →
  forallb (λ z, bool_decide (0 ≤ z < 11)%Z) (data y_true) = true →
  (10%Z ∈ data y_true → y_true_oh y_true = None) ∧
  (10%Z ∉ data y_true →
   ∃ T, y_true_oh y_true = Some T ∧
        nrows T = ncols y_true ∧ ncols T = 10 ∧
        ∀ i z, data y_true !! i = Some z →
          cell T i (Z.to_nat z) = Some (Some 1%R) ∧
          ∀ c, c < 10 → c ≠ Z.to_nat z → cell T i c = Some (Some 0%R)).
Proof.
  intros Hr Hwf Hrange. rewrite y_true_oh_single_row by done.
  assert (HF : Forall (λ z, (0 ≤ z < 11)%Z) (data y_true)).
  { rewrite forallb_forall in Hrange. apply Forall_forall. intros z Hz.
    apply list_elem_of_In, Hrange in Hz. by apply bool_decide_eq_true in Hz. }
  assert (Hlen : length (data y_true) = ncols y_true)
    by (unfold wf_ndarray in Hwf; lia).
  split.
  - intros [i Hi]%list_elem_of_lookup_1.
    apply (one_hot_None 10 _ i (inject_Z 10)); [|reflexivity].
    by rewrite list_lookup_fmap, Hi.
  - intros Hno.
    assert (Hv : valid_labels 10 (inject_Z <$> data y_true) = true).
    { unfold valid_labels. apply forallb_forall. intros l Hl.
      apply list_elem_of_In, list_elem_of_fmap in Hl as (z & -> & Hz).
      unfold valid_label. rewrite astype_int_inject_Z. apply bool_decide_eq_true.
      rewrite Forall_forall in HF. specialize (HF z Hz).
      assert (z ≠ 10%Z) by (intros ->; done). lia. }
    eexists. split; [by apply one_hot_tabulate|].
    rewrite length_fmap. split; [done|]. split; [done|].
    intros i z Hi.
    assert (Hi' : i < length (data y_true)) by (by eapply lookup_lt_Some).
    assert (Hz : (0 ≤ z < 10)%Z).
    { rewrite Forall_forall in HF.
      pose proof (HF z (list_elem_of_lookup_2 _ _ _ Hi)).
      assert (z ≠ 10%Z) by (intros ->; apply Hno; by eapply list_elem_of_lookup_2).
      lia. }
    assert (Hcell : ∀ c, c < 10 →
              cell (tabulate (length (data y_true)) 10
                      (λ k, Some (indicator
                         (default 0%Q ((inject_Z <$> data y_true) !! (k `div` 10)))
                         (k `mod` 10)))) i c
              = Some (Some (if bool_decide (Z.to_nat z = c) then 1%R else 0%R))).
    { intros c Hc. rewrite cell_tabulate by done.
      destruct (divmod_offset i c 10 Hc) as [-> ->].
      rewrite list_lookup_fmap, Hi. simpl.
      unfold indicator, label_class. by rewrite astype_int_inject_Z. }
    split.
    + rewrite Hcell by lia. by rewrite bool_decide_eq_true_2.
    + intros c Hc Hne. rewrite Hcell by done. by rewrite bool_decide_eq_false_2.
Qed.

Lemma y_true_oh_rejects_label_10_witness :
  (10%Z ∈ [6; 10]%Z → y_true_oh (mk_ndarray 1 2 [6; 10]%Z) = None) ∧
  (10%Z ∉ [6; 10]%Z →
   ∃ T, y_true_oh (mk_ndarray 1 2 [6; 10]%Z) = Some T ∧
        nrows T = 2 ∧ ncols T = 10 ∧
        ∀ i z, [6; 10]%Z !! i = Some z →
          cell T i (Z.to_nat z) = Some (Some 1%R) ∧
          ∀ c, c < 10 → c ≠ Z.to_nat z → cell T i c = Some (Some 0%R)).
Proof.
  apply (y_true_oh_rejects_label_10 (mk_ndarray 1 2 [6; 10]%Z)).
  - reflexivity.
  - reflexivity.
  - reflexivity.
Defined.

(** ** Sign of the loss *)

Section Sign64.
Local Open Scope R_scope.

Lemma cross_entropy64_nonpos (p t : R) :
  0 <= t <= 1 → 0 < p <= 1 → 0 < rnd (1 - p) → cross_entropy64 p t <= 0.
Proof.
  intros Ht Hp Hq. unfold cross_entropy64.
  assert (Hq1 : rnd (1 - p) <= 1) by (apply rnd_le_1; lra).
  assert (H1 : rnd (ln p) <= 0) by (apply rnd_nonpos, ln_nonpos; lra).
  assert (H2 : rnd (ln (rnd (1 - p))) <= 0) by (apply rnd_nonpos, ln_nonpos; lra).
  assert (H3 : 0 <= rnd (1 - t)) by (apply rnd_nonneg; lra).
  assert (H4 : rnd (t * rnd (ln p)) <= 0) by (apply rnd_nonpos; nra).
  assert (H5 : rnd (rnd (1 - t) * rnd (ln (rnd (1 - p)))) <= 0)
    by (apply rnd_nonpos; nra).
  apply rnd_nonpos. lra.
Qed.

Lemma loss64_nonneg (a g p t : R) :
  0 <= a <= 1 → 0 <= g → t = 0 ∨ t = 1 → 0 < p <= 1 → 0 < rnd (1 - p) →
  0 <= loss64 a g p t.
Proof.
  intros Ha Hg Ht Hp Hq.
  assert (Ht01 : 0 <= t <= 1) by (destruct Ht; lra).
  pose proof (weight64_bounds a t Ha Ht01) as Hw.
  pose proof (modulation64_bounds g p t Ht ltac:(lra) Hg) as Hm.
  pose proof (cross_entropy64_nonpos p t Ht01 Hp Hq) as Hc.
  unfold loss64.
  assert (HA : rnd (- weight64 a t * modulation64 g p t) <= 0)
    by (apply rnd_nonpos; nra).
  apply rnd_nonneg. nra.
Qed.

(** X10. In binary64, for [alpha] in [0, 1], [gamma >= 0] and a target
    0 or 1, the per-element loss is at least 0 wherever it is finite,
    and it is finite for scores from -700 to 36. *)
Theorem loss_nonnegative_where_finite (a g x t : R) :
  0 <= a <= 1 → 0 <= g → t = 0 ∨ t = 1 →
  (∀ l, finite64 (fl64 a g (F64 x) (F64 t)) = Some l → 0 <= l) ∧
  (-700 <= x <= 36 →
   ∃ l, finite64 (fl64 a g (F64 x) (F64 t)) = Some l ∧ 0 <= l).
Proof.
  intros Ha Hg Ht.
  destruct (sigmoid64_range x) as (p & Hp & Hp01).
  assert (Hall : ∀ l, finite64 (fl64 a g (F64 x) (F64 t)) = Some l → 0 <= l).
  { intros l Hl.
    apply (fl64_value a g x p t) in Hl as (-> & Hpp & Hq); [|done..].
    by apply loss64_nonneg. }
  split; [done|]. intros Hx.
  destruct (sigmoid64_interior x Hx) as (p' & Hp' & Hpi).
  assert (p' = p) as -> by congruence.
  pose proof (fl64_finite a g x p t Ha Hg Ht Hp Hpi) as Hfin.
  eexists. split; [exact Hfin|]. by apply Hall.
Qed.

Lemma loss_nonnegative_where_finite_witness :
  ∃ l, finite64 (fl64 (1/4) 2 (F64 0) (F64 1)) = Some l ∧ 0 <= l.
Proof.
  apply (proj2 (loss_nonnegative_where_finite (1/4) 2 0 1
                  ltac:(lra) ltac:(lra) ltac:(right; reflexivity))).
  lra.
Defined.

End Sign64.
(** ** Predicted classes *)

Section Predictions.
Implicit Types (s : R → R) (l L : list R).

Lemma sigmoid_value_spec x : sigmoid64 (F64 x) = F64 (sigmoid_value x).
Proof.
  unfold sigmoid_value. destruct (sigmoid64_range x) as (p & Hp & _).
  by rewrite Hp.
Qed.

Lemma sigmoid_value_mono x y : (x <= y)%R → (sigmoid_value x <= sigmoid_value y)%R.
Proof.
  intros Hxy. apply (sigmoid64_mono x y); [done|apply sigmoid_value_spec..].
Qed.

Lemma mapM_sigmoid l :
  mapM (λ x : R, finite64 (sigmoid64 (F64 x))) l = Some (sigmoid_value <$> l).
Proof.
  apply mapM_Some, Forall2_fmap_r, Forall_Forall2_diag, Forall_forall.
  intros x _. by rewrite sigmoid_value_spec.
Qed.

Lemma argmax_from_weak s L :
  (∀ x y, (x <= y)%R → (s x <= s y)%R) →
  ∀ l i bA bB vA vB,
    drop i L = l → L !! bA = Some vA → L !! bB = Some vB →
    bA ≤ bB → bB < i → s vA = s vB →
    argmax_from bA (s vA) i (s <$> l) ≤ argmax_from bB vB i l ∧
    ∃ xk xj, L !! argmax_from bA (s vA) i (s <$> l) = Some xk ∧
             L !! argmax_from bB vB i l = Some xj ∧ s xk = s xj.
Proof.
  intros Hs. induction l as [|v l IH]; intros i bA bB vA vB Hd HA HB Hle Hlt Hv.
  - simpl. split; [done|]. by exists vA, vB.
  - assert (Hi : L !! i = Some v).
    { rewrite <- (Nat.add_0_r i), <- lookup_drop, Hd. done. }
    assert (Hd' : drop (S i) L = l).
    { replace (S i) with (i + 1) by lia. by rewrite <- drop_drop, Hd. }
    csimpl. destruct (Rlt_dec (s vA) (s v)) as [H1|H1], (Rlt_dec vB v) as [H2|H2].
    + apply IH; auto with lia.
    + exfalso. pose proof (Hs v vB ltac:(lra)). lra.
    + apply IH; auto with lia.
      pose proof (Hs vB v ltac:(lra)). lra.
    + apply IH; auto with lia.
Qed.

Lemma argmax_weak s L k j :
  (∀ x y, (x <= y)%R → (s x <= s y)%R) →
  argmax (s <$> L) = Some k → argmax L = Some j →
  k ≤ j ∧ ∃ xk xj, L !! k = Some xk ∧ L !! j = Some xj ∧ s xk = s xj.
Proof.
  intros Hs. destruct L as [|v L]; [done|]. csimpl. intros [= <-] [= <-].
  apply (argmax_from_weak s (v :: L) Hs L 1 0 0 v v); auto with lia.
Qed.

Lemma row_fmap {A B} (f : A → B) n m (d : list A) r :
  row (mk_ndarray n m (f <$> d)) r = f <$> row (mk_ndarray n m d) r.
Proof. unfold row. simpl. by rewrite fmap_take, fmap_drop. Qed.


Lemma argmax_is_Some (l : list R) : l ≠ [] → is_Some (argmax l).
Proof. destruct l; [done|]. by eexists. Qed.

Lemma length_row {A} n m (d : list A) r :
  length d = n * m → r < n → length (row (mk_ndarray n m d) r) = m.
Proof.
  intros Hd Hr. unfold row. simpl. rewrite length_take, length_drop. nia.
Qed.

Lemma sigmoid_value_saturated x : (40 <= x)%R → sigmoid_value x = 1%R.
Proof.
  intros Hx. pose proof (sigmoid_value_spec x) as H.
  rewrite (sigmoid64_one x Hx) in H. by injection H.
Qed.

(** X15. The predicted classes [np.argmax(sigmoid(scores), axis=1)]:
    in each row the predicted class is at or before the first position
    of the largest raw score, and the sigmoid has the same binary64
    value at both; they can differ, as on the row [40, 50], where the
    sigmoid is 1.0 twice and the prediction is 0 while the largest
    score is at 1. *)
Theorem predictions_under_saturation :
  (∀ scores : ndarray R, wf_ndarray scores → ncols scores ≠ 0 →
     ∃ ks js,
       predicted_classes scores = Some ks ∧ np_argmax_axis1 scores = Some js ∧
       length ks = nrows scores ∧ length js = nrows scores ∧
       ∀ i k j, ks !! i = Some k → js !! i = Some j →
         k ≤ j ∧
         ∃ xk xj, row scores i !! k = Some xk ∧ row scores i !! j = Some xj ∧
                  sigmoid64 (F64 xk) = sigmoid64 (F64 xj)) ∧
  predicted_classes (mk_ndarray 1 2 [40; 50]%R) = Some [0] ∧
  np_argmax_axis1 (mk_ndarray 1 2 [40; 50]%R) = Some [1].
Proof.
  split; [|split].
  - intros [n m d] Hwf Hm. unfold wf_ndarray in Hwf. simpl in *.
    unfold predicted_classes. simpl. rewrite mapM_sigmoid. csimpl.
    unfold np_argmax_axis1. simpl. rewrite !bool_decide_eq_false_2 by done.
    assert (Hne : ∀ r, r < n → row (mk_ndarray n m d) r ≠ []).
    { intros r Hr E. pose proof (length_row n m d r Hwf Hr) as Hl.
      rewrite E in Hl. simpl in Hl. lia. }
    destruct (mapM_is_Some_2 (λ r, argmax (row (mk_ndarray n m d) r)) (seq 0 n))
      as [js Hjs].
    { apply Forall_forall. intros r Hr%elem_of_seq. simpl.
      apply argmax_is_Some, Hne. lia. }
    destruct (mapM_is_Some_2
                (λ r, argmax (row (mk_ndarray n m (sigmoid_value <$> d)) r))
                (seq 0 n)) as [ks Hks].
    { apply Forall_forall. intros r Hr%elem_of_seq. simpl.
      apply argmax_is_Some. rewrite row_fmap. intros E%fmap_nil_inv.
      by apply (Hne r); [lia|]. }
    exists ks, js. split; [done|]. split; [done|].
    split; [by rewrite <- (length_mapM _ _ _ Hks), length_seq|].
    split; [by rewrite <- (length_mapM _ _ _ Hjs), length_seq|].
    intros i k j Hk Hj.
    apply mapM_Some_1 in Hks, Hjs.
    destruct (Forall2_lookup_r _ _ _ _ _ Hks Hk) as (r & Hr & Ek).
    destruct (Forall2_lookup_r _ _ _ _ _ Hjs Hj) as (r' & Hr' & Ej).
    apply lookup_seq in Hr as [-> _]. apply lookup_seq in Hr' as [-> _].
    simpl in Ek, Ej. rewrite row_fmap in Ek.
    destruct (argmax_weak sigmoid_value _ k j sigmoid_value_mono Ek Ej)
      as (Hle & xk & xj & Hxk & Hxj & E).
    split; [done|]. exists xk, xj. split; [done|]. split; [done|].
    by rewrite !sigmoid_value_spec, E.
  - unfold predicted_classes. cbn [data nrows ncols]. rewrite mapM_sigmoid.
    csimpl. unfold np_argmax_axis1. simpl. unfold row. csimpl.
    rewrite !sigmoid_value_saturated by lra.
    destruct (Rlt_dec 1 1); [lra|done].
  - unfold np_argmax_axis1. simpl. unfold row. csimpl.
    destruct (Rlt_dec 40 50); [done|lra].
Qed.

Lemma predictions_under_saturation_witness :
  ∃ ks js,
    predicted_classes (mk_ndarray 2 3 [0; 2; 1; 5; 3; 5]%R) = Some ks ∧
    np_argmax_axis1 (mk_ndarray 2 3 [0; 2; 1; 5; 3; 5]%R) = Some js ∧
    length ks = 2 ∧ length js = 2 ∧
    ∀ i k j, ks !! i = Some k → js !! i = Some j →
      k ≤ j ∧
      ∃ xk xj, row (mk_ndarray 2 3 [0; 2; 1; 5; 3; 5]%R) i !! k = Some xk ∧
               row (mk_ndarray 2 3 [0; 2; 1; 5; 3; 5]%R) i !! j = Some xj ∧
               sigmoid64 (F64 xk) = sigmoid64 (F64 xj).
Proof.
  apply (proj1 predictions_under_saturation
           (mk_ndarray 2 3 [0; 2; 1; 5; 3; 5]%R)).
  - reflexivity.
  - simpl. lia.
Defined.

End Predictions.
